(** * Glencoe curling simulator: position evaluator and stone physics

    A shallow embedding of
      - the end evaluator [evaluatePosition17] (curlingeval.js),
      - the collision pass [detectCollisions] / [resolveCollision]
        (Physics.js),
      - the integrators [simulateStone], [simulateAll], [simulateDraw]
        (Simulation.js),
      - two callers: [addStone] and [simulateForCollisions] of the game
        controller (GameController.js), and the evaluator weighted by shot
        success, [evaluatePositionWithSuccessProbability]
        (enhanced_curlingeval.js),
    followed by the properties of the design document that concern them,
    and by further properties that the code itself shows.

    Numbers.  A JavaScript number is modelled by a real number: the
    arithmetic is exact, there is no rounding, no NaN and no infinity.
    Where the source uses [Infinity] as a sentinel the model uses an
    explicit case distinction.  Integers that the source uses as counters
    or keys (shot number, bucket key, stone counts) are in [Z] or [nat]. *)

From Stdlib Require Import Reals Lra Lia List ZArith String Bool.
Import ListNotations.
Open Scope R_scope.

(** ** JavaScript numbers *)

Module JS.

Definition ltb (a b : R) : bool := if Rlt_dec a b then true else false.
Definition leb (a b : R) : bool := if Rle_dec a b then true else false.
Definition eqb (a b : R) : bool := if Req_dec_T a b then true else false.

(** [x || d] on numbers: [d] replaces a falsy (zero) [x]. *)
Definition or_else (x d : R) : R := if eqb x 0 then d else x.

(** [Math.hypot(x, y)] *)
Definition hypot (x y : R) : R := sqrt (x * x + y * y).

(** [Math.pow(x, y)] for a base [x >= 0] and an exponent [y > 0]. *)
Definition pow (x y : R) : R := if leb x 0 then 0 else Rpower x y.

(** [Math.floor] *)
Definition floor (x : R) : Z := Zfloor x.

(** [arr.reduce((a,b)=>a+b,0)] *)
Definition sum (l : list R) : R := fold_left Rplus l 0.

(** [Math.max(...arr)] of a non-empty array. *)
Definition max_list (l : list R) : R :=
  match l with
  | [] => 0
  | x :: t => fold_left Rmax t x
  end.

(** [arr.sort((a,b)=>a-b)]: ascending numeric sort. *)
Fixpoint insert_sorted (x : R) (l : list R) : list R :=
  match l with
  | [] => [x]
  | y :: t => if leb x y then x :: l else y :: insert_sorted x t
  end.

Definition sort (l : list R) : list R := fold_right insert_sorted [] l.

(** A plain object with integer keys, in insertion order. *)
Definition obj : Type := list (Z * R).

Fixpoint get (o : obj) (k : Z) : option R :=
  match o with
  | [] => None
  | (k', v) :: t => if (k' =? k)%Z then Some v else get t k
  end.

(** [o[k] = v]: overwrite in place, or append a new key. *)
Fixpoint set (o : obj) (k : Z) (v : R) : obj :=
  match o with
  | [] => [(k, v)]
  | (k', v') :: t => if (k' =? k)%Z then (k', v) :: t else (k', v') :: set t k v
  end.

Definition keys (o : obj) : list Z := map fst o.

(** [Object.values(o)]: the values of the integer-index keys (the keys
    [>= 0]) come first, then those of the other keys, each group in the
    order the model keeps them. *)
Definition values (o : obj) : list R :=
  map snd (filter (fun e => (0 <=? fst e)%Z) o)
  ++ map snd (filter (fun e => negb (0 <=? fst e)%Z) o).

End JS.

Notation "a <? b" := (JS.ltb a b) : R_scope.
Notation "a <=? b" := (JS.leb a b) : R_scope.
Notation "a =? b" := (JS.eqb a b) : R_scope.

(** ** The evaluator (curlingeval.js) *)

Module Eval.

(** A stone as the evaluator receives it: [[team, x, y]]. *)
Definition EvalStone : Type := (string * R * R)%type.
Definition st_team (s : EvalStone) : string := fst (fst s).
Definition st_x (s : EvalStone) : R := snd (fst s).
Definition st_y (s : EvalStone) : R := snd s.

Definition R_HOUSE : R := 1829 / 1000.
Definition D_STONE : R := 285 / 1000.

Definition H0 : R := 90 / 100.
Definition ALPHA1 : R := 1.
Definition GAMMA : R := 15 / 10.
Definition W_GUARD : R := 60 / 100.
Definition W_CENTER : R := 30 / 100.
Definition W_FREEZE : R := 40 / 100.
Definition W_TAKEOUT : R := 50 / 100.
Definition W_CONG : R := 20 / 100.
Definition CENTER_BAND : R := 60 / 100.
Definition FREEZE_RADIUS : R := 35 / 100.

Definition HALF_WIDTH : R := 244 / 100.
Definition BACK_LINE : R := - (5486 / 1000).
Definition HOG_LINE : R := 640 / 100.

Definition BASELINE_HAMMER : list R :=
  [30 / 100; 40 / 100; 25 / 100; 4 / 100; 1 / 100; 0; 0; 0; 0].
Definition BASELINE_STEAL : list R :=
  [35 / 1000; 10 / 1000; 3 / 1000; 1 / 1000; 6 / 10000; 3 / 10000;
   1 / 10000; 5 / 100000].

Definition DBL_DMAX : R := 95 / 100.
Definition DBL_THETA_MAX : R := (12 * PI) / 180.
Definition DBL_J : R := 10 / 100.
Definition DBL_L : R := 20 / 100.
Definition DBL_KAPPA : R := 4.
Definition DBL_BETA0 : R := 3 / 10.
Definition DBL_BETA1 : R := 1.
Definition DBL_LAMBDA : R := 5 / 10.
Definition DBL_CAP_RHO : R := 6 / 10.

Definition A_EV : R := 1.
Definition BETA0 : R := 35 / 100.
Definition BETA1 : R := 90 / 100.

Definition eps6 : R := / 1000000.
Definition eps9 : R := / 1000000000.
Definition eps12 : R := / 1000000000000.
Definition eps5 : R := / 100000.

(** *** Utility *)

Definition clamp (x lo hi : R) : R := Rmax lo (Rmin hi x).

Definition softmax1D (arr : list R) : list R :=
  let m := JS.max_list arr in
  let exps := map (fun v => exp (v - m)) arr in
  let s := JS.sum exps in
  map (fun v => v / JS.or_else s 1) exps.

Definition isInPlay (x y : R) : bool :=
  if (HALF_WIDTH + D_STONE / 2 <? Rabs x) then false
  else if (y <? BACK_LINE - D_STONE / 2) then false
  else if (HOG_LINE + D_STONE / 2 <? y) then false
  else true.

Definition hypot2 (x y : R) : R := JS.hypot x y.

(** The end's remaining-stones factor [Math.sqrt(Math.max(s,0)/16.0)]. *)
Definition sqrtRemaining (s : Z) : R := sqrt (Rmax (IZR s) 0 / 16).

(** *** Positional scoring *)

Definition baseHammer (s : Z) (team hammerTeam : string) : R :=
  H0 * sqrtRemaining s * (if String.eqb team hammerTeam then 1 else -1).

Definition radialValue (r : R) : R :=
  if (R_HOUSE <? r) then 0
  else
    let depthBoost := if (r <? 13 / 10) then 125 / 100 else 9 / 10 in
    depthBoost * ALPHA1 * (1 - JS.pow (r / R_HOUSE) GAMMA).

Definition phiDeg_default : R := 75 / 10.

Fixpoint losLoop (x y ux uy vr phi : R) (blockers : list (R * R)) : R :=
  match blockers with
  | [] => 0
  | (bx, by_) :: rest =>
      if negb (JS.hypot bx by_ <? vr - eps6) then losLoop x y ux uy vr phi rest
      else
        let wx := bx - x in
        let wy := by_ - y in
        let wr := JS.hypot wx wy in
        if (wr <? eps6) then 1
        else
          let dot := Rmax (-1) (Rmin 1 ((wx * ux + wy * uy) / wr)) in
          let sinT := sqrt (Rmax 0 (1 - dot * dot)) in
          let perp := wr * sinT in
          let theta := acos dot in
          if (theta <=? phi) && (perp <=? D_STONE / 2) then 1
          else losLoop x y ux uy vr phi rest
  end.

Definition hasLineOfSightBlocker (x y : R) (blockers : list (R * R))
    (phiDeg : R) : R :=
  let vx := - x in
  let vy := - y in
  let vr := JS.hypot vx vy in
  if (vr <? eps6) then 1
  else
    let ux := vx / vr in
    let uy := vy / vr in
    let phi := (phiDeg * PI) / 180 in
    losLoop x y ux uy vr phi blockers.

Definition takeoutEase (G : R) : R := 1 - (9 / 10) * G.
Definition centerFactor (x : R) : R := 1 - Rmin (Rabs x) 1.

Record Entry : Type := mkEntry {
  e_x : R; e_y : R; e_r : R; e_G : R; e_T : R;
  e_v : R; e_pre : R; e_acc : R
}.

Definition positions (stones : list EvalStone) : list (R * R) :=
  map (fun s => (st_x s, st_y s)) stones.

Definition teamStones (team : string) (stones : list EvalStone)
    : list EvalStone :=
  filter (fun s => String.eqb (st_team s) team) stones.

(** The freeze flag of the stone at [(x, y)], radius [r]. *)
Definition freezeFlag (x y r : R) (teamPos : list (R * R)) : R :=
  if existsb (fun f =>
       let '(fx, fy) := f in
       negb ((fx =? x) && (fy =? y))
       && (hypot2 (fx - x) (fy - y) <=? FREEZE_RADIUS)
       && (hypot2 fx fy <=? r + 10 / 100)) teamPos
  then 1 else 0.

Definition stoneEntry (allPos teamPos : list (R * R)) (p : R * R) : Entry :=
  let '(x, y) := p in
  let r := hypot2 x y in
  let v := radialValue r in
  if (v <=? 0) then mkEntry x y r 0 1 0 0 0
  else
    let G := hasLineOfSightBlocker x y allPos phiDeg_default in
    let v1 := v * (1 + W_GUARD * G) in
    let v2 := v1 * (1 + W_CENTER * centerFactor x) in
    let F := freezeFlag x y r teamPos in
    let v3 := v2 * (1 + W_FREEZE * F) in
    let T := takeoutEase G in
    let v4 := v3 * (1 - W_TAKEOUT * T) in
    mkEntry x y r G T v4 v4 0.

Definition computeTeamStoneValues (team : string) (stones : list EvalStone)
    : list Entry :=
  let allPos := positions stones in
  let teamPos := positions (teamStones team stones) in
  map (stoneEntry allPos teamPos) teamPos.

(** *** Double-takeout vulnerability *)

Fixpoint set_nth {A : Type} (l : list A) (i : nat) (a : A) : list A :=
  match l, i with
  | [], _ => []
  | _ :: t, O => a :: t
  | h :: t, S i' => h :: set_nth t i' a
  end.

(** The blocker product [B] of the pair [(ei, ej)], before clamping. *)
Fixpoint blockerProduct (ei ej : Entry) (others : list (R * R)) (B : R) : R :=
  match others with
  | [] => B
  | (kx, ky) :: rest =>
      if ((kx =? e_x ei) && (ky =? e_y ei)) || ((kx =? e_x ej) && (ky =? e_y ej))
      then blockerProduct ei ej rest B
      else
        let okx := kx - e_x ei in
        let oky := ky - e_y ei in
        let offK := Rabs (okx * 1 + oky * 0) in
        blockerProduct ei ej rest (B * (1 - exp (- ((offK / DBL_L) ^ 2))))
  end.

(** One iteration of the pair loop body: the two entries after it. *)
Definition dblPair (beta : R) (others : list (R * R)) (ei ej : Entry)
    : Entry * Entry :=
  let ux := 0 in let uy := -1 in let nx := 1 in let ny := 0 in
  if (R_HOUSE <? e_r ei) || (R_HOUSE <? e_r ej) then (ei, ej)
  else
    let dx := e_x ej - e_x ei in
    let dy := e_y ej - e_y ei in
    let dij := JS.hypot dx dy in
    if (DBL_DMAX <? dij) || (dij <? eps6) then (ei, ej)
    else
      let X := Rmin (e_T ei) (e_T ej) in
      let cos0 := Rmax (-1) (Rmin 1 ((dx * ux + dy * uy) / dij)) in
      let thetaSmall := acos (Rabs cos0) in
      let A := Rmax 0 (1 - thetaSmall / DBL_THETA_MAX) in
      let off := Rabs (dx * nx + dy * ny) in
      let w := Rmax 0 (D_STONE / 2 - off) in
      let W := clamp (w / DBL_J) 0 1 in
      let B := clamp (blockerProduct ei ej others 1) 0 1 in
      let Pdbl := 1 / (1 + exp (- (DBL_KAPPA * (X * A * W * B) - beta))) in
      let Mi := Rmax (e_v ei) 0 in
      let Mj := Rmax (e_v ej) 0 in
      let M := Mi + Mj in
      if (M <=? 0) then (ei, ej)
      else
        let delta := DBL_LAMBDA * Pdbl * M in
        let capi := DBL_CAP_RHO * e_pre ei - e_acc ei in
        let capj := DBL_CAP_RHO * e_pre ej - e_acc ej in
        let di := Rmin (delta * (Mi / M)) (Rmax 0 capi) in
        let dj := Rmin (delta * (Mj / M)) (Rmax 0 capj) in
        (mkEntry (e_x ei) (e_y ei) (e_r ei) (e_G ei) (e_T ei)
           (Rmax 0 (e_v ei - di)) (e_pre ei) (e_acc ei + di),
         mkEntry (e_x ej) (e_y ej) (e_r ej) (e_G ej) (e_T ej)
           (Rmax 0 (e_v ej - dj)) (e_pre ej) (e_acc ej + dj)).

Definition dblStep (beta : R) (others : list (R * R)) (i : nat)
    (es : list Entry) (j : nat) : list Entry :=
  match nth_error es i, nth_error es j with
  | Some ei, Some ej =>
      let '(ei', ej') := dblPair beta others ei ej in
      set_nth (set_nth es i ei') j ej'
  | _, _ => es
  end.

(** The entries are mutated in place; the model returns the updated array. *)
Definition applyDoubleVulnerability (teamEntries : list Entry)
    (allStones : list EvalStone) (s : Z) (skill : R) : list Entry :=
  let n := List.length teamEntries in
  if (n <? 2)%nat then teamEntries
  else
    let q := clamp (JS.or_else skill 50 / 100) (1 / 10) (9 / 10) in
    let Sr := sqrtRemaining s in
    let beta := DBL_BETA0 + DBL_BETA1 * (1 - q) * (1 - Sr) in
    let others := positions allStones in
    fold_left
      (fun es i =>
         fold_left (dblStep beta others i) (seq (S i) (n - S i)) es)
      (seq 0 n) teamEntries.

(** *** Congestion *)

Definition countCenter (team : string) (stones : list EvalStone) : nat :=
  List.length
    (filter
       (fun s =>
          String.eqb (st_team s) team
          && negb (hypot2 (st_x s) (st_y s) <=? R_HOUSE)
          && (Rabs (st_x s) <=? CENTER_BAND))
       stones).

Definition congestionTerm (stones : list EvalStone) (hammerTeam : string)
    (s : Z) : R :=
  let nh := if String.eqb hammerTeam "red" then "yellow"%string
            else "red"%string in
  W_CONG * (INR (countCenter nh stones) - INR (countCenter hammerTeam stones))
  * sqrtRemaining s.

(** *** Distribution *)

Definition kVals : list Z := map (fun k => (Z.of_nat k - 8)%Z) (seq 0 17).

Definition baseline (k : Z) : R :=
  if (k =? 0)%Z then nth 0 BASELINE_HAMMER 0
  else if (0 <? k)%Z then JS.or_else (nth (Z.to_nat k) BASELINE_HAMMER 0) eps5
  else JS.or_else (nth (Z.to_nat (- k - 1)) BASELINE_STEAL 0) eps5.

Definition distribution17_fromScore (scoreForHammer : R) (s : Z) (skill : R)
    : JS.obj :=
  let sRoot := sqrtRemaining s in
  let q := clamp (JS.or_else skill 50 / 100) (1 / 10) (9 / 10) in
  let mu := clamp (A_EV * scoreForHammer) (-6) 6 in
  let beta := BETA0 + BETA1 * (1 - q) * (1 - sRoot) in
  let base := map baseline kVals in
  let logits :=
    map (fun kb => ln (snd kb + eps12) - beta * (IZR (fst kb) - mu) ^ 2)
        (combine kVals base) in
  let probs := softmax1D logits in
  fold_left (fun out kp => JS.set out (fst kp) (snd kp))
            (combine kVals probs) [].

(** *** Constraints *)

Record Thrown : Type := mkThrown { th_red : Z; th_yellow : Z }.

Definition countThrown (n : Z) (hammerTeam : string) : Thrown :=
  let n := (n + 1)%Z in
  if String.eqb hammerTeam "red"
  then mkThrown (n / 2)%Z ((n + 1) / 2)%Z
  else mkThrown ((n + 1) / 2)%Z (n / 2)%Z.

(** Sorted distances of the in-play, in-house stones of [team]. *)
Definition houseRadii (team : string) (stones : list EvalStone) : list R :=
  JS.sort
    (map (fun s => hypot2 (st_x s) (st_y s))
       (filter
          (fun s =>
             String.eqb (st_team s) team
             && isInPlay (st_x s) (st_y s)
             && (hypot2 (st_x s) (st_y s) <=? R_HOUSE))
          stones)).

(** [mine.filter(r => r < cutoff - 1e-9).length], where [cutoff] is the
    first element of [theirs], or [Infinity] when [theirs] is empty. *)
Definition countBefore (mine theirs : list R) : Z :=
  match theirs with
  | [] => Z.of_nat (List.length mine)
  | cutoff :: _ =>
      Z.of_nat (List.length (filter (fun r => r <? cutoff - eps9) mine))
  end.

(** [mine.length && (!theirs.length || mine[0] < theirs[0] - 1e-9)] *)
Definition leads (mine theirs : list R) : bool :=
  match mine, theirs with
  | [], _ => false
  | _ :: _, [] => true
  | m0 :: _, t0 :: _ => m0 <? t0 - eps9
  end.

(** The [score] that [collapseToTerminal] computes. *)
Definition terminalScore (stones : list EvalStone) (hammerTeam : string) : Z :=
  let rRed := houseRadii "red" stones in
  let rYel := houseRadii "yellow" stones in
  if leads rRed rYel then
    let raw := countBefore rRed rYel in
    if String.eqb hammerTeam "red" then raw else (- raw)%Z
  else if leads rYel rRed then
    let raw := countBefore rYel rRed in
    if String.eqb hammerTeam "yellow" then raw else (- raw)%Z
  else 0%Z.

(** [const b={}; for (let k=-8;k<=8;k++) b[k]=0;] *)
Definition zeroBuckets : JS.obj :=
  fold_left (fun b k => JS.set b k 0) kVals [].

Definition collapseToTerminal (stones : list EvalStone) (hammerTeam : string)
    : JS.obj :=
  JS.set zeroBuckets (terminalScore stones hammerTeam) 1.

Definition inPlayCount (team : string) (stones : list EvalStone) : Z :=
  Z.of_nat
    (List.length
       (filter
          (fun s => String.eqb (st_team s) team && isInPlay (st_x s) (st_y s))
          stones)).

(** The range [k = 1..8] of the two loops of [applyConstraints]. *)
Definition ks18 : list Z := map Z.of_nat (seq 1 8).

(** Body of the first loop of [applyConstraints]. *)
Definition zeroHammerStep (hammerTeam : string) (maxRed maxYel : Z)
    (buckets : JS.obj) (k : Z) : JS.obj :=
  let b1 := if String.eqb hammerTeam "red" && (maxRed <? k)%Z
            then JS.set buckets k 0 else buckets in
  if String.eqb hammerTeam "yellow" && (maxYel <? k)%Z
  then JS.set b1 k 0 else b1.

(** Body of the second loop of [applyConstraints]. *)
Definition zeroStealStep (hammerTeam : string) (maxRed maxYel : Z)
    (buckets : JS.obj) (k : Z) : JS.obj :=
  let b1 := if String.eqb hammerTeam "red" && (maxYel <? k)%Z
            then JS.set buckets (- k) 0 else buckets in
  if String.eqb hammerTeam "yellow" && (maxRed <? k)%Z
  then JS.set b1 (- k) 0 else b1.

(** [for (const k in buckets) buckets[k] /= Z] *)
Definition divideAll (buckets : JS.obj) (Z0 : R) : JS.obj :=
  map (fun e => (fst e, snd e / Z0)) buckets.

Definition applyConstraints (buckets : JS.obj) (stones : list EvalStone)
    (hammerTeam : string) (s n : Z) : JS.obj :=
  let inRed := inPlayCount "red" stones in
  let inYel := inPlayCount "yellow" stones in
  let th := countThrown n hammerTeam in
  let remRed := (8 - th_red th)%Z in
  let remYel := (8 - th_yellow th)%Z in
  let maxRed := (inRed + remRed)%Z in
  let maxYel := (inYel + remYel)%Z in
  if (s =? 0)%Z then collapseToTerminal stones hammerTeam
  else
    let b1 := fold_left (zeroHammerStep hammerTeam maxRed maxYel) ks18 buckets in
    let b2 := fold_left (zeroStealStep hammerTeam maxRed maxYel) ks18 b1 in
    let Z0 := JS.sum (JS.values b2) in
    if (0 <? Z0) then divideAll b2 Z0 else b2.

(** *** Entry point *)

Record Advantage : Type := mkAdvantage { red : R; yellow : R }.

Record AdvantageResult : Type := mkResult {
  advantage : Advantage;
  buckets17 : JS.obj
}.

Definition positionalScore (es : list Entry) : R :=
  fold_left (fun a e => a + e_v e) es 0.

(** The [scoreRed] of [evaluatePosition17]. *)
Definition scoreRed (shotNumber : Z) (hammerTeam : string)
    (stones : list EvalStone) (skillPercent : R) : R :=
  let s := (16 - (shotNumber + 1))%Z in
  let teamRed := computeTeamStoneValues "red" stones in
  let teamYel := computeTeamStoneValues "yellow" stones in
  let teamRed := applyDoubleVulnerability teamRed stones s skillPercent in
  let teamYel := applyDoubleVulnerability teamYel stones s skillPercent in
  let posRed := positionalScore teamRed in
  let posYel := positionalScore teamYel in
  let cong := congestionTerm stones hammerTeam s in
  let base := baseHammer s "red" hammerTeam in
  base + (posRed - posYel) + cong.

(** [skillPercent] is the value the body sees, that is 50 when the caller
    leaves it out. *)
Definition evaluatePosition17 (shotNumber : Z) (hammerTeam : string)
    (stones : list EvalStone) (skillPercent : R) : AdvantageResult :=
  let s := (16 - (shotNumber + 1))%Z in
  let scoreRed := scoreRed shotNumber hammerTeam stones skillPercent in
  let scoreForHammer :=
    if String.eqb hammerTeam "red" then scoreRed else - scoreRed in
  let buckets := distribution17_fromScore scoreForHammer s skillPercent in
  let buckets := applyConstraints buckets stones hammerTeam s shotNumber in
  mkResult (mkAdvantage scoreRed (- scoreRed)) buckets.

End Eval.

(** ** The physics (State.js, Physics.js, Params.js, Simulation.js) *)

Module Sim.

Record State : Type := mkState {
  t : R; x : R; y : R; vx : R; vy : R; w : R
}.

Record Params : Type := mkParams {
  m : R; g : R; R_ : R; rBand : R; mu0 : R; alpha : R; segments : nat;
  dt : R; tMax : R; vStop : R; wStop : R; vEps : R; restitution : R
}.

(** The stone objects of the game controller (the fields the core uses). *)
Record Stone : Type := mkStone {
  id : Z; team : string;
  s_x : R; s_y : R; s_vx : R; s_vy : R; s_w : R; s_t : R;
  inPlay : bool
}.

Definition toState (st : Stone) : State :=
  mkState (s_t st) (s_x st) (s_y st) (s_vx st) (s_vy st) (s_w st).

Definition fromState (st : Stone) (s : State) : Stone :=
  mkStone (id st) (team st) (x s) (y s) (vx s) (vy s) (w s) (t s) (inPlay st).

Record SheetDimensions : Type := mkSheet { XMIN : R; XMAX : R; HALF_W : R }.

(** *** Physics.js *)

Record UnitVec : Type := mkUnit { ux : R; uy : R; u_s : R }.

Definition unit (vx vy eps : R) : UnitVec :=
  let s := JS.hypot vx vy in
  if (s <? eps) then mkUnit 0 0 eps else mkUnit (vx / s) (vy / s) s.

Definition distance (a b : Stone) : R :=
  let dx := s_x b - s_x a in
  let dy := s_y b - s_y a in
  sqrt (dx * dx + dy * dy).

Definition resolveCollision (stone1 stone2 : Stone) (params : Params)
    : Stone * Stone :=
  let dx := s_x stone2 - s_x stone1 in
  let dy := s_y stone2 - s_y stone1 in
  let distance := sqrt (dx * dx + dy * dy) in
  let nx := dx / distance in
  let ny := dy / distance in
  let dvx := s_vx stone2 - s_vx stone1 in
  let dvy := s_vy stone2 - s_vy stone1 in
  let relativeVelocityAlongNormal := dvx * nx + dvy * ny in
  if (0 <? relativeVelocityAlongNormal) then (stone1, stone2)
  else
    let e := restitution params in
    let j := - (1 + e) * relativeVelocityAlongNormal / 2 in
    let vx1 := s_vx stone1 - j * nx in
    let vy1 := s_vy stone1 - j * ny in
    let vx2 := s_vx stone2 + j * nx in
    let vy2 := s_vy stone2 + j * ny in
    let crossFactor := 5 / 10 in
    let w1 := s_w stone1 + crossFactor * (nx * vy1 - ny * vx1) in
    let w2 := s_w stone2 + crossFactor * (nx * vy2 - ny * vx2) in
    let overlap := 2 * R_ params - distance in
    (mkStone (id stone1) (team stone1)
       (s_x stone1 - overlap * nx / 2) (s_y stone1 - overlap * ny / 2)
       vx1 vy1 w1 (s_t stone1) (inPlay stone1),
     mkStone (id stone2) (team stone2)
       (s_x stone2 + overlap * nx / 2) (s_y stone2 + overlap * ny / 2)
       vx2 vy2 w2 (s_t stone2) (inPlay stone2)).

(** The body of the inner loop of [detectCollisions] for the pair [(i, j)]. *)
Definition collidePair (params : Params) (i : nat) (stonesList : list Stone)
    (j : nat) : list Stone :=
  match nth_error stonesList i, nth_error stonesList j with
  | Some si, Some sj =>
      if negb (inPlay sj) then stonesList
      else if (distance si sj <? 2 * R_ params) then
        let '(si', sj') := resolveCollision si sj params in
        Eval.set_nth (Eval.set_nth stonesList i si') j sj'
      else stonesList
  | _, _ => stonesList
  end.

Definition collideRow (params : Params) (stonesList : list Stone) (i : nat)
    : list Stone :=
  match nth_error stonesList i with
  | Some si =>
      if negb (inPlay si) then stonesList
      else
        let n := List.length stonesList in
        fold_left (collidePair params i) (seq (S i) (n - S i)) stonesList
  | None => stonesList
  end.

Definition detectCollisions (stonesList : list Stone) (params : Params)
    : list Stone :=
  fold_left (collideRow params) (seq 0 (List.length stonesList)) stonesList.

(** *** Simulation.js *)

Definition phis (p : Params) : list R :=
  map (fun i => (2 * PI * INR i) / INR (segments p)) (seq 0 (segments p)).

Record Force : Type := mkForce { Fx : R; Fy : R; tau : R }.

(** One running-band segment at angle [phi], added to the accumulators. *)
Definition segmentForce (p : Params) (s : State) (F : Force) (phi : R)
    : Force :=
  let dN := (m p * g p) / INR (segments p) in
  let vlocx := vx s - w s * rBand p * sin phi in
  let vlocy := vy s + w s * rBand p * cos phi in
  let vmag := JS.or_else (JS.hypot vlocx vlocy) (vEps p) in
  let mu := mu0 p * (1 / sqrt vmag) in
  let vhatx := vlocx / vmag in
  let vhaty := vlocy / vmag in
  let dFx := - (dN * mu) * vhatx in
  let dFy := - (dN * mu) * vhaty in
  mkForce (Fx F + dFx) (Fy F + dFy)
          (tau F + rBand p * (cos phi * dFy - sin phi * dFx)).

(** Net force and torque on a stone in state [s]: the band segments, then
    the pivot term. *)
Definition netForce (p : Params) (s : State) : Force :=
  let F := fold_left (segmentForce p s) (phis p) (mkForce 0 0 0) in
  let Vh := unit (vx s) (vy s) (vEps p) in
  let Vperp_x := - uy Vh in
  let Vperp_y := ux Vh in
  let vRot := Rmax (Rabs (w s) * rBand p) (vEps p) in
  let muP := alpha p * mu0 p * (1 / sqrt vRot) in
  let FpMag := m p * g p * muP in
  let sgnw := if (0 <? w s) then 1 else if (w s <? 0) then -1 else 0 in
  mkForce (Fx F + sgnw * FpMag * Vperp_x)
          (Fy F + sgnw * FpMag * Vperp_y)
          (tau F + - sgnw * FpMag * rBand p).

Definition momentOfInertia (p : Params) : R := (5 / 10) * m p * R_ p * R_ p.

Definition accel_x (p : Params) (s : State) : R := Fx (netForce p s) / m p.
Definition accel_y (p : Params) (s : State) : R := Fy (netForce p s) / m p.
Definition accel_z (p : Params) (s : State) : R :=
  tau (netForce p s) / momentOfInertia p.

(** One pass through the integration lines of the loop body. *)
Definition integrate (p : Params) (s : State) : State :=
  let ax := accel_x p s in
  let ay := accel_y p s in
  let alphaZ := accel_z p s in
  let vx' := vx s + dt p * ax in
  let vy' := vy s + dt p * ay in
  let w' := w s + dt p * alphaZ in
  let x' := x s + dt p * vx' in
  let y' := y s + dt p * vy' in
  mkState (t s + dt p) x' y' vx' vy' w'.

Definition stopped (p : Params) (s : State) : bool :=
  (JS.hypot (vx s) (vy s) <? vStop p) && (Rabs (w s) <? wStop p).

(** The loop bound [Math.floor(duration / dt)]: [None] stands for
    [Infinity] ([dt = 0] and [duration > 0]); a NaN or negative bound
    gives no iteration. *)
Definition stepBound (duration dt : R) : option nat :=
  if (dt =? 0) then (if (0 <? duration) then None else Some O)
  else Some (Z.to_nat (JS.floor (duration / dt))).

(** [n] iterations of the loop of [simulateStone] from state [s]; [traj]
    is the trajectory so far. *)
Fixpoint stoneLoop (p : Params) (n : nat) (s : State) (traj : list State)
    : State * list State :=
  match n with
  | O => (s, traj)
  | S n' =>
      if stopped p s then (s, traj)
      else
        let s' := integrate p s in
        stoneLoop p n' s' (traj ++ [s'])
  end.

(** [simulateStone]: the trajectory and the stone after the call (the
    source writes the final state back into the stone; with
    [checkCollisions] it also writes every intermediate state, which the
    final write overwrites).  With an infinite bound the time step is
    zero, the state never changes, and the loop ends only if the stone is
    at rest on entry: [None] is the call that does not return. *)
Definition simulateStone (stone : Stone) (p : Params) (duration : R)
    (checkCollisions : bool) : option (list State * Stone) :=
  let s := toState stone in
  match stepBound duration (dt p) with
  | Some n =>
      let '(s', traj) := stoneLoop p n s [s] in
      Some (traj, fromState stone s')
  | None =>
      if stopped p s then Some ([s], fromState stone s) else None
  end.

Definition offSheet (sd : SheetDimensions) (px py : R) : bool :=
  (XMAX sd + 5 / 10 <? px) || (px <? XMIN sd - 5 / 10)
  || (HALF_W sd + 5 / 10 <? Rabs py).

(** The trajectories object: stone id to array of states. *)
Definition Trajectories : Type := list (Z * list State).

Fixpoint traj_set (tr : Trajectories) (k : Z) (v : list State)
    : Trajectories :=
  match tr with
  | [] => [(k, v)]
  | (k', v') :: rest =>
      if (k' =? k)%Z then (k', v) :: rest else (k', v') :: traj_set rest k v
  end.

(** [trajectories[k].push(s)]; every id has its array from the start of
    [simulateAll], so the key is always found. *)
Fixpoint traj_push (tr : Trajectories) (k : Z) (s : State) : Trajectories :=
  match tr with
  | [] => []
  | (k', v') :: rest =>
      if (k' =? k)%Z then (k', v' ++ [s]) :: rest
      else (k', v') :: traj_push rest k s
  end.

Definition allStopped (p : Params) (stones : list Stone) : bool :=
  forallb (fun st => negb (inPlay st) || stopped p (toState st)) stones.

(** The [stones.forEach] of one tick: every in-play stone is advanced by
    one call of [simulateStone] and taken out of play once off the sheet. *)
Fixpoint moveStones (p : Params) (sd : SheetDimensions)
    (stones : list Stone) (tr : Trajectories)
    : option (list Stone * Trajectories) :=
  match stones with
  | [] => Some ([], tr)
  | stone :: rest =>
      if negb (inPlay stone) then
        match moveStones p sd rest tr with
        | Some (rest', tr') => Some (stone :: rest', tr')
        | None => None
        end
      else
        match simulateStone stone p (dt p) false with
        | None => None
        | Some (stepTraj, stone1) =>
            let tr1 := traj_push tr (id stone1)
                         (last stepTraj (toState stone1)) in
            let stone2 :=
              if offSheet sd (s_x stone1) (s_y stone1)
              then mkStone (id stone1) (team stone1) (s_x stone1)
                     (s_y stone1) (s_vx stone1) (s_vy stone1) (s_w stone1)
                     (s_t stone1) false
              else stone1 in
            match moveStones p sd rest tr1 with
            | Some (rest', tr') => Some (stone2 :: rest', tr')
            | None => None
            end
        end
  end.

Record Run : Type := mkRun {
  run_trajectories : Trajectories;
  run_stones : list Stone;
  run_ticks : nat
}.

(** The [while (time < duration)] loop; [fuel] bounds the number of
    iterations the model follows, and [None] means the loop has not
    ended within it. *)
Fixpoint timeLoop (fuel : nat) (p : Params) (sd : SheetDimensions)
    (duration time : R) (stones : list Stone) (tr : Trajectories)
    (ticks : nat) : option Run :=
  if negb (time <? duration) then Some (mkRun tr stones ticks)
  else if allStopped p stones then Some (mkRun tr stones ticks)
  else
    match fuel with
    | O => None
    | S fuel' =>
        match moveStones p sd stones tr with
        | None => None
        | Some (stones1, tr1) =>
            let stones2 := detectCollisions stones1 p in
            timeLoop fuel' p sd duration (time + dt p) stones2 tr1 (S ticks)
        end
    end.

Definition simulateAll (fuel : nat) (p : Params) (duration : R)
    (stones : list Stone) (sd : SheetDimensions) : option Run :=
  let trajectories :=
    fold_left (fun tr st => traj_set tr (id st) []) stones [] in
  timeLoop fuel p sd duration 0 stones trajectories O.

Record DrawResult : Type := mkDraw {
  traj : list State;
  stoneStopped : bool;
  stoppedOnSheet : bool
}.

(** [n] iterations of the loop of [simulateDraw]: the last state, the
    trajectory, and whether the stone came to rest. *)
Fixpoint drawLoop (p : Params) (sd : SheetDimensions) (n : nat) (s : State)
    (tr : list State) : State * list State * bool :=
  match n with
  | O => (s, tr, false)
  | S n' =>
      if stopped p s then (s, tr, true)
      else
        let s' := integrate p s in
        if offSheet sd (x s') (y s') then (s', tr ++ [s'], false)
        else drawLoop p sd n' s' (tr ++ [s'])
  end.

Definition drawResult (sd : SheetDimensions) (r : State * list State * bool)
    : DrawResult :=
  let '(s, tr, st) := r in
  mkDraw tr st
    (st && (XMIN sd <=? x s) && (x s <=? XMAX sd) && (Rabs (y s) <=? HALF_W sd)).

(** [simulateDraw]; [None] is the call that does not return (infinite
    bound, stone neither at rest nor leaving the sheet). *)
Definition simulateDraw (Vmag omegaMag : R) (turnStr : string) (p : Params)
    (startPt broomPt : R * R) (sd : SheetDimensions) : option DrawResult :=
  let dir := unit (fst broomPt - fst startPt) (snd broomPt - snd startPt)
               (vEps p) in
  let vx0 := Vmag * ux dir in
  let vy0 := Vmag * uy dir in
  let w0 := if String.eqb turnStr "in" then Rabs omegaMag
            else - Rabs omegaMag in
  let s := mkState 0 (fst startPt) (snd startPt) vx0 vy0 w0 in
  match stepBound (tMax p) (dt p) with
  | Some n => Some (drawResult sd (drawLoop p sd n s [s]))
  | None =>
      if stopped p s then Some (drawResult sd (s, [s], true))
      else
        let s' := integrate p s in
        if offSheet sd (x s') (y s')
        then Some (drawResult sd (s', [s; s'], false))
        else None
  end.

End Sim.


(** ** The game controller (GameController.js) *)

Module Controller.
Import Sim.

(** [generateStoneId]: one more than the largest id, or 1 on an empty
    sheet. *)
Definition generateStoneId (stones : list Stone) : Z :=
  match map id stones with
  | [] => 1%Z
  | i :: rest => (fold_left Z.max rest i + 1)%Z
  end.

(** [addStone]: the new stone is appended at rest near the start point
    [startX], on the side of its team. *)
Definition addStone (startX : R) (stones : list Stone) (team : string)
    : list Stone :=
  let offset := INR (List.length stones) * (2 / 10) in
  let yPos := if String.eqb team "red" then - (2 / 10) - offset
              else 2 / 10 + offset in
  stones ++ [mkStone (generateStoneId stones) team startX yPos 0 0 0 0 true].

(** The value of a call that ends without a [return] statement. *)
Inductive CallValue : Type := undefined.

Definition truthy (v : CallValue) : bool :=
  match v with undefined => false end.

(** The value of [detectCollisions(stones, p)]; the stones it updates are
    [Sim.detectCollisions]. *)
Definition detectCollisions_value (stones : list Stone) (p : Params)
    : CallValue := undefined.

Record CollisionData : Type := mkCollisionData {
  collisionOccurred : bool;
  stoneMoved : list Z;
  collisionTime : option R
}.

(** [preVelocities]: the speed of every in-play stone, by id. *)
Definition preVelocities (stones : list Stone) : JS.obj :=
  fold_left
    (fun o st =>
       if inPlay st then JS.set o (id st) (JS.hypot (s_vx st) (s_vy st))
       else o)
    stones [].

(** [stoneMoved[id] = true] *)
Definition mark (moved : list Z) (k : Z) : list Z :=
  if existsb (Z.eqb k) moved then moved else moved ++ [k].

(** The stones that gained more than 0.05 of speed, the thrown stone (id
    999) apart. *)
Definition markMoved (pre : JS.obj) (stones : list Stone) (moved : list Z)
    : list Z :=
  fold_left
    (fun mv st =>
       if inPlay st then
         match JS.get pre (id st) with
         | Some v0 =>
             if negb (id st =? 999)%Z
                && (v0 + 5 / 100 <? JS.hypot (s_vx st) (s_vy st))
             then mark mv (id st) else mv
         | None => mv
         end
       else mv)
    stones moved.

(** The [while (time < p.tMax)] loop of [simulateForCollisions]; [fuel] and
    [None] are as in [Sim.timeLoop]. *)
Fixpoint collisionLoop (fuel : nat) (p : Params) (sd : SheetDimensions)
    (time : R) (stones : list Stone) (tr : Trajectories) (cd : CollisionData)
    : option (Trajectories * CollisionData * list Stone) :=
  if negb (time <? tMax p) then Some (tr, cd, stones)
  else if allStopped p stones then Some (tr, cd, stones)
  else
    match fuel with
    | O => None
    | S fuel' =>
        let pre := preVelocities stones in
        match moveStones p sd stones tr with
        | None => None
        | Some (stones1, tr1) =>
            let stones2 := detectCollisions stones1 p in
            let collisionsDetected := detectCollisions_value stones1 p in
            let cd' :=
              if truthy collisionsDetected
              then mkCollisionData true
                     (markMoved pre stones2 (stoneMoved cd)) (Some time)
              else cd in
            collisionLoop fuel' p sd (time + dt p) stones2 tr1 cd'
        end
    end.

(** [simulateForCollisions]: the trajectories (each starting with the
    stone's state on entry), the collision data attached to them, and the
    stones after the call. *)
Definition simulateForCollisions (fuel : nat) (stones : list Stone)
    (p : Params) (sd : SheetDimensions)
    : option (Trajectories * CollisionData * list Stone) :=
  let trajectories :=
    fold_left (fun tr st => traj_set tr (id st) [toState st]) stones [] in
  collisionLoop fuel p sd 0 stones trajectories
    (mkCollisionData false [] None).

End Controller.

(** ** The evaluator with shot success (enhanced_curlingeval.js) *)

Module Enhanced.

Definition SHOT_TYPE_BASE_SUCCESS : list (string * R) :=
  [("Draw"%string, 85 / 100); ("Guard"%string, 88 / 100); ("Take-out"%string, 78 / 100);
   ("Hit and Roll"%string, 72 / 100); ("Freeze"%string, 68 / 100); ("Tap"%string, 82 / 100);
   ("Peel"%string, 75 / 100); ("Double Take-out"%string, 55 / 100);
   ("Triple Take-out"%string, 35 / 100)].

Definition PRESSURE_PENALTY : R := 92 / 100.
Definition EARLY_GAME_BONUS : R := 105 / 100.
Definition FATIGUE_PENALTY : R := 96 / 100.
Definition SKILL_MIN : R := 6 / 10.
Definition SKILL_MAX : R := 95 / 100.
Definition DISTANCE_DECAY : R := 15 / 100.
Definition ANGLE_PENALTY : R := 8 / 10.
Definition COMPLEXITY_PENALTY : R := 85 / 100.

(** The members that the table, an object literal, inherits from
    [Object.prototype]: looking one of them up gives a function or an
    object, not a number. *)
Definition inheritedNames : list string :=
  ["constructor"%string; "hasOwnProperty"%string; "isPrototypeOf"%string; "propertyIsEnumerable"%string;
   "toLocaleString"%string; "toString"%string; "valueOf"%string; "__proto__"%string;
   "__defineGetter__"%string; "__defineSetter__"%string; "__lookupGetter__"%string;
   "__lookupSetter__"%string].

Fixpoint lookup (tbl : list (string * R)) (k : string) : option R :=
  match tbl with
  | [] => None
  | (k', v) :: rest => if String.eqb k' k then Some v else lookup rest k
  end.

(** [SHOT_TYPE_BASE_SUCCESS[shotType] || 0.75]; [None] when the value is
    an inherited member, with which the arithmetic that follows gives no
    number. *)
Definition baseSuccess (shotType : string) : option R :=
  match lookup SHOT_TYPE_BASE_SUCCESS shotType with
  | Some v => Some (JS.or_else v (75 / 100))
  | None =>
      if existsb (String.eqb shotType) inheritedNames then None
      else Some (75 / 100)
  end.

(** The shot context, with every field given. *)
Record ShotContext : Type := mkContext {
  shotType : string;
  skillLevel : R;
  shotNumber : R;
  gameScore_red : R;
  gameScore_yellow : R;
  endNumber : R;
  targetDistance : R;
  angleComplexity : R;
  stoneCount : R
}.

Definition calculateShotSuccessProbability (c : ShotContext) : option R :=
  match baseSuccess (shotType c) with
  | None => None
  | Some successRate =>
      let skillFactor :=
        SKILL_MIN + (SKILL_MAX - SKILL_MIN) * (skillLevel c / 100) in
      let successRate := successRate * skillFactor in
      let scoreDiff := Rabs (gameScore_red c - gameScore_yellow c) in
      let isLateGame := (8 <=? endNumber c) in
      let isLateEnd := (12 <=? shotNumber c) in
      let successRate :=
        if isLateGame && (scoreDiff <=? 2) && isLateEnd
        then successRate * PRESSURE_PENALTY else successRate in
      let successRate :=
        if (endNumber c <=? 3) && (shotNumber c <=? 8)
        then successRate * EARLY_GAME_BONUS else successRate in
      let successRate :=
        if (10 <=? endNumber c)
        then successRate * FATIGUE_PENALTY else successRate in
      let successRate :=
        if (0 <? targetDistance c)
        then successRate * exp (- DISTANCE_DECAY * targetDistance c)
        else successRate in
      let successRate :=
        if (0 <? angleComplexity c)
        then successRate * (1 - angleComplexity c * (1 - ANGLE_PENALTY))
        else successRate in
      let successRate :=
        if (4 <? stoneCount c)
        then successRate
             * JS.pow COMPLEXITY_PENALTY (Rmax 0 (stoneCount c - 4))
        else successRate in
      Some (Rmax (1 / 10) (Rmin (99 / 100) successRate))
  end.

(** The shot under consideration; a field left out is [None]. *)
Record PotentialShot : Type := mkShot {
  p_type : option string;
  p_targetDistance : option R;
  p_angleComplexity : option R;
  p_outcome : option (list Eval.EvalStone)
}.

(** [potentialShot.type || 'Draw'] *)
Definition typeOrDraw (ty : option string) : string :=
  match ty with
  | Some s => if String.eqb s "" then "Draw"%string else s
  | None => "Draw"%string
  end.

(** [x || 0] on an optional number *)
Definition orZero (v : option R) : R :=
  match v with
  | Some a => JS.or_else a 0
  | None => 0
  end.

Definition estimateFailureOutcome (shotNumber : Z) (hammerTeam : string)
    (stones : list Eval.EvalStone) (potentialShot : PotentialShot)
    (skillPercent : R) : Eval.AdvantageResult :=
  match p_type potentialShot with
  | Some ty =>
      if String.eqb ty "Draw" then
        Eval.evaluatePosition17 (shotNumber + 1) hammerTeam stones skillPercent
      else if String.eqb ty "Take-out" then
        Eval.evaluatePosition17 (shotNumber + 1) hammerTeam stones skillPercent
      else if String.eqb ty "Hit and Roll" then
        Eval.evaluatePosition17 (shotNumber + 1) hammerTeam stones skillPercent
      else
        Eval.evaluatePosition17 (shotNumber + 1) hammerTeam stones skillPercent
  | None =>
      Eval.evaluatePosition17 (shotNumber + 1) hammerTeam stones skillPercent
  end.

Record Scenarios : Type := mkScenarios {
  success : Eval.AdvantageResult;
  failure : Eval.AdvantageResult;
  current : Eval.AdvantageResult
}.

(** The returned object; the last two fields are absent when no shot is
    considered. *)
Record Evaluation : Type := mkEvaluation {
  advantage : Eval.Advantage;
  buckets17 : JS.obj;
  successProbability : option R;
  scenarios : option Scenarios
}.

(** [o[score] || 0] *)
Definition bucket (o : JS.obj) (score : Z) : R := orZero (JS.get o score).

(** [skillPercent] is the value the body sees (50 when the caller leaves
    it out), [potentialShot] is [None] for [null].  The result [None]: the
    success probability is not a number, and neither are the weighted
    values. *)
Definition evaluatePositionWithSuccessProbability (shotNumber : Z)
    (hammerTeam : string) (stones : list Eval.EvalStone) (skillPercent : R)
    (potentialShot : option PotentialShot) : option Evaluation :=
  let baseEval :=
    Eval.evaluatePosition17 shotNumber hammerTeam stones skillPercent in
  match potentialShot with
  | None =>
      Some (mkEvaluation (Eval.advantage baseEval) (Eval.buckets17 baseEval)
              None None)
  | Some shot =>
      let shotContext :=
        mkContext (typeOrDraw (p_type shot)) skillPercent (IZR shotNumber)
          0 0 (IZR (shotNumber / 16 + 1))
          (orZero (p_targetDistance shot)) (orZero (p_angleComplexity shot))
          (INR (List.length stones)) in
      match calculateShotSuccessProbability shotContext with
      | None => None
      | Some successProb =>
          let successfulStones :=
            match p_outcome shot with
            | Some out => out
            | None => stones
            end in
          let successEval :=
            Eval.evaluatePosition17 (shotNumber + 1) hammerTeam
              successfulStones skillPercent in
          let failureEval :=
            estimateFailureOutcome shotNumber hammerTeam stones shot
              skillPercent in
          let weightedAdvantage :=
            Eval.mkAdvantage
              (successProb * Eval.red (Eval.advantage successEval)
               + (1 - successProb) * Eval.red (Eval.advantage failureEval))
              (successProb * Eval.yellow (Eval.advantage successEval)
               + (1 - successProb)
                 * Eval.yellow (Eval.advantage failureEval)) in
          let weightedBuckets :=
            fold_left
              (fun o score =>
                 JS.set o score
                   (successProb * bucket (Eval.buckets17 successEval) score
                    + (1 - successProb)
                      * bucket (Eval.buckets17 failureEval) score))
              Eval.kVals [] in
          Some (mkEvaluation weightedAdvantage weightedBuckets
                  (Some successProb)
                  (Some (mkScenarios successEval failureEval baseEval)))
      end
  end.

End Enhanced.

(** ** The helpers that classify a simulated path (the integration
    example for the evaluator with shot success) *)

Module Integration.
Import Sim.

(** A path record: the fields the helpers read. *)
Record PathRecord : Type := mkRecord {
  makesContact : bool;
  velocity : R;
  trajectory : list State
}.

(** [record.trajectory[record.trajectory.length - 1]]; [None] is
    [undefined], for an empty trajectory. *)
Definition finalStateOf (record : PathRecord) : option State :=
  match trajectory record with
  | [] => None
  | s :: rest => Some (last rest s)
  end.

Definition classifyShotType (record : PathRecord)
    (existingStones : list Stone) (finalState : State) : string :=
  let endx := x finalState in
  let endy := y finalState in
  let distanceToButton := sqrt (endx * endx + endy * endy) in
  if makesContact record then
    if (25 / 10 <? velocity record) then "Take-out"%string
    else if (15 / 10 <? distanceToButton) then "Hit and Roll"%string
    else "Hit"%string
  else
    if (distanceToButton <? 183 / 100) then "Draw"%string
    else if (2 <? endy) then "Guard"%string
    else "Draw"%string.

(** [None]: the trajectory is empty and reading a field of its last
    element throws. *)
Definition calculateTargetDistance (record : PathRecord)
    (broomPosition : R * R) : option R :=
  match finalStateOf record with
  | None => None
  | Some finalState =>
      let dx := x finalState - fst broomPosition in
      let dy := y finalState - snd broomPosition in
      Some (sqrt (dx * dx + dy * dy))
  end.

(** One pass of the loop over the stones. *)
Definition nearbyStep (finalState : State) (complexity : R) (stone : Stone)
    : R :=
  let distance :=
    sqrt ((s_x stone - x finalState) * (s_x stone - x finalState)
          + (s_y stone - y finalState) * (s_y stone - y finalState)) in
  if (distance <? 5 / 10) then complexity + 2 / 10 else complexity.

(** [None]: the trajectory is empty and the loop body, which runs when
    there is a stone, throws. *)
Definition calculateAngleComplexity (record : PathRecord)
    (stones : list Stone) : option R :=
  if negb (makesContact record) then Some 0
  else
    match finalStateOf record, stones with
    | Some finalState, _ =>
        Some (Rmin (fold_left (nearbyStep finalState) stones 0) 1)
    | None, [] => Some (Rmin 0 1)
    | None, _ :: _ => None
    end.

End Integration.
(** ** Notions used to state the properties *)

Module Spec.

(** The least element of a list, if any. *)
Fixpoint minimum (l : list R) : option R :=
  match l with
  | [] => None
  | h :: tl => match minimum tl with
               | None => Some h
               | Some m0 => Some (Rmin h m0)
               end
  end.


(** *** The evaluator *)

Section Evaluator.
Import Eval.

(** A valid call of [evaluatePosition17]. *)
Record valid_input (shotNumber : Z) (hammerTeam : string)
    (stones : list EvalStone) (skill : R) : Prop := {
  shot_range : (0 <= shotNumber <= 15)%Z;
  hammer_known : hammerTeam = "red"%string \/ hammerTeam = "yellow"%string;
  red_count : (List.length (teamStones "red" stones) <= 8)%nat;
  yellow_count : (List.length (teamStones "yellow" stones) <= 8)%nat;
  skill_range : 10 <= skill <= 90
}.

(** The distribution that puts all the mass on bucket [k]. *)
Definition pointMass (k : Z) : JS.obj :=
  map (fun j => (j, if (j =? k)%Z then 1 else 0)) kVals.

(** The terminal computation as the design document words it: the stones
    in the house in order of distance, the owner of the first one, the
    length of its leading run, capped at 8, signed by the hammer. *)
Definition inHouseStones (stones : list EvalStone) : list (string * R) :=
  map (fun s => (st_team s, hypot2 (st_x s) (st_y s)))
    (filter
       (fun s => isInPlay (st_x s) (st_y s)
                 && (hypot2 (st_x s) (st_y s) <=? R_HOUSE))
       stones).

Fixpoint insertByDistance (e : string * R) (l : list (string * R))
    : list (string * R) :=
  match l with
  | [] => [e]
  | h :: tl => if (snd e <=? snd h) then e :: l
               else h :: insertByDistance e tl
  end.

Definition byDistance (l : list (string * R)) : list (string * R) :=
  fold_right insertByDistance [] l.

Fixpoint leadingRun (team : string) (l : list (string * R)) : nat :=
  match l with
  | [] => O
  | (t0, _) :: tl =>
      if String.eqb t0 team then S (leadingRun team tl) else O
  end.

Definition documentedTerminalBucket (stones : list EvalStone)
    (hammerTeam : string) : Z :=
  match byDistance (inHouseStones stones) with
  | [] => 0%Z
  | ((t0, _) :: _) as l =>
      let n := Z.min (Z.of_nat (leadingRun t0 l)) 8 in
      if String.eqb t0 hammerTeam then n else (- n)%Z
  end.

(** The terminal computation with the source's margin of [1e-9]: a team
    scores only if its closest stone beats the other team's closest stone
    by more than the margin, and it scores the stones that do. *)
Definition radii (team : string) (stones : list EvalStone) : list R :=
  map (fun s => hypot2 (st_x s) (st_y s))
    (filter
       (fun s => String.eqb (st_team s) team
                 && isInPlay (st_x s) (st_y s)
                 && (hypot2 (st_x s) (st_y s) <=? R_HOUSE))
       stones).

Definition signedFor (team hammerTeam : string) (n : nat) : Z :=
  if String.eqb hammerTeam team then Z.of_nat n else (- Z.of_nat n)%Z.

Definition beatenBy (limit : R) (l : list R) : nat :=
  List.length (filter (fun r => r <? limit - eps9) l).

Definition marginScore (stones : list EvalStone) (hammerTeam : string) : Z :=
  let rs := radii "red" stones in
  let ys := radii "yellow" stones in
  match minimum rs, minimum ys with
  | None, None => 0%Z
  | Some _, None => signedFor "red" hammerTeam (List.length rs)
  | None, Some _ => signedFor "yellow" hammerTeam (List.length ys)
  | Some a, Some b =>
      if (a <? b - eps9) then signedFor "red" hammerTeam (beatenBy b rs)
      else if (b <? a - eps9)
           then signedFor "yellow" hammerTeam (beatenBy a ys)
           else 0%Z
  end.

(** The most a team can still have counting at the end of the end: its
    stones in play plus the stones it has yet to throw. *)
Definition thrownBy (team : string) (th : Thrown) : Z :=
  if String.eqb team "red" then th_red th else th_yellow th.

Definition ownBound (team : string) (stones : list EvalStone)
    (shotNumber : Z) (hammerTeam : string) : Z :=
  (inPlayCount team stones
   + (8 - thrownBy team (countThrown shotNumber hammerTeam)))%Z.

Definition otherTeam (team : string) : string :=
  if String.eqb team "red" then "yellow"%string else "red"%string.

(** The stones that count for some team in a call with hammer tag [h]:
    those tagged "red", "yellow" or [h]. *)
Definition recognized (h : string) (s : EvalStone) : bool :=
  String.eqb (st_team s) "red" || String.eqb (st_team s) "yellow"
  || String.eqb (st_team s) h.

Definition dropForeign (h : string) (stones : list EvalStone)
    : list EvalStone :=
  filter (recognized h) stones.

(** What a pass must keep for the normalisation to go through. *)
Definition well_formed (o : JS.obj) : Prop :=
  JS.keys o = kVals
  /\ Forall (fun e => 0 <= snd e) o
  /\ exists v, JS.get o 0%Z = Some v /\ 0 < v.

(** The buckets after the two zeroing loops, for [s <> 0]. *)
Definition constrained (buckets : JS.obj) (stones : list EvalStone)
    (hammerTeam : string) (n : Z) : JS.obj :=
  let maxRed := ownBound "red" stones n hammerTeam in
  let maxYel := ownBound "yellow" stones n hammerTeam in
  fold_left (zeroStealStep hammerTeam maxRed maxYel) ks18
    (fold_left (zeroHammerStep hammerTeam maxRed maxYel) ks18 buckets).

End Evaluator.

(** *** The physics *)

Section Physics.
Import Sim.

(** The relative velocity of two stones projected on their line of
    centres, as [resolveCollision] computes it. *)
Definition normalVelocity (stone1 stone2 : Stone) : R :=
  let dx := s_x stone2 - s_x stone1 in
  let dy := s_y stone2 - s_y stone1 in
  let d := sqrt (dx * dx + dy * dy) in
  (s_vx stone2 - s_vx stone1) * (dx / d)
  + (s_vy stone2 - s_vy stone1) * (dy / d).

(** A semi-implicit Euler step from [s] to [s']: the velocities move by
    the accelerations at [s], the position by the new velocities. *)
Definition semi_implicit (p : Params) (s s' : State) : Prop :=
  vx s' = vx s + dt p * (Fx (netForce p s) / m p)
  /\ vy s' = vy s + dt p * (Fy (netForce p s) / m p)
  /\ w s' = w s + dt p * (tau (netForce p s) / momentOfInertia p)
  /\ x s' = x s + dt p * vx s'
  /\ y s' = y s + dt p * vy s'
  /\ t s' = t s + dt p.

(** The trajectories that the two integrators return. *)
Inductive produced (p : Params) : list State -> Prop :=
  | produced_by_simulateStone (stone stone' : Stone) (duration : R)
      (checkCollisions : bool) (tr : list State) :
      simulateStone stone p duration checkCollisions = Some (tr, stone') ->
      produced p tr
  | produced_by_simulateDraw (Vmag omegaMag : R) (turnStr : string)
      (startPt broomPt : R * R) (sd : SheetDimensions) (r : DrawResult) :
      simulateDraw Vmag omegaMag turnStr p startPt broomPt sd = Some r ->
      produced p (traj r).

(** Each state of the list is the integration of the one before. *)
Fixpoint linked (p : Params) (tr : list State) : Prop :=
  match tr with
  | [] => True
  | a :: rest =>
      match rest with
      | [] => True
      | b :: _ => b = integrate p a /\ linked p rest
      end
  end.

(** No in-play stone is off the sheet. *)
Definition allOnSheet (sd : SheetDimensions) (stones : list Stone) : Prop :=
  forall st, In st stones -> inPlay st = true ->
    offSheet sd (s_x st) (s_y st) = false.

(** No two in-play stones overlap. *)
Definition noOverlap (p : Params) (stones : list Stone) : Prop :=
  forall i j si sj,
    nth_error stones i = Some si -> nth_error stones j = Some sj ->
    (i < j)%nat -> inPlay si = true -> inPlay sj = true ->
    2 * R_ p <= distance si sj.

(** The call of [simulateAll] does not return: its time loop outlasts
    every number of iterations. *)
Definition neverReturns (p : Params) (duration : R) (stones : list Stone)
    (sd : SheetDimensions) : Prop :=
  forall fuel, simulateAll fuel p duration stones sd = None.


(** Sample data. *)
Definition sampleParams (step : R) : Params :=
  mkParams 19 (981 / 100) (145 / 1000) (6 / 100) (8 / 1000) (5 / 100)
    60%nat step 60 (1 / 100) (2 / 100) (/ 1000000) (8 / 10).

Definition sampleSheet : SheetDimensions :=
  mkSheet 0 (31479 / 1000) (2375 / 1000).

Definition sampleStone (px vx0 : R) : Stone :=
  mkStone 1 "red" px 0 vx0 0 0 0 true.

End Physics.

End Spec.


(** ** Further notions, for the properties that the code itself shows *)

Module Notions.

(** *** The evaluator *)

Section Evaluator.
Import Eval.

(** What an entry of [computeTeamStoneValues] looks like. *)
Definition freshEntry (e : Entry) : Prop :=
  e_r e = hypot2 (e_x e) (e_y e)
  /\ (e_G e = 0 \/ e_G e = 1)
  /\ e_T e = takeoutEase (e_G e)
  /\ e_pre e = e_v e
  /\ e_acc e = 0
  /\ 0 <= e_v e <= 3458 / 1000
  /\ (e_v e = 0 <-> R_HOUSE <= e_r e).

(** The fields of an entry that the double-takeout pass never writes. *)
Definition frame (e : Entry) : R * R * R * R * R * R :=
  (e_x e, e_y e, e_r e, e_G e, e_T e, e_pre e).

(** The accumulated deduction is within its cap and accounts for the
    whole loss of value. *)
Definition withinCap (e : Entry) : Prop :=
  0 <= e_pre e
  /\ 0 <= e_acc e <= DBL_CAP_RHO * e_pre e
  /\ e_v e = e_pre e - e_acc e.

(** Exchange of the two colours. *)
Definition swapTeam (t : string) : string :=
  if String.eqb t "red" then "yellow"%string
  else if String.eqb t "yellow" then "red"%string else t.

Definition swapColours (stones : list EvalStone) : list EvalStone :=
  map (fun s => (swapTeam (st_team s), st_x s, st_y s)) stones.

End Evaluator.

(** *** The physics and the controller *)

Section Physics.
Import Sim.

(** Twice the kinetic energy of a pair of stones, per unit of mass. *)
Definition speedSquares (a b : Stone) : R :=
  s_vx a * s_vx a + s_vy a * s_vy a + s_vx b * s_vx b + s_vy b * s_vy b.

(** What the collision code never writes. *)
Definition badge (st : Stone) : Z * string * bool * R :=
  (id st, team st, inPlay st, s_t st).

(** [b] is what a collision pass may make of [a]. *)
Definition collided (a b : Stone) : Prop :=
  badge b = badge a /\ (inPlay a = false -> b = a).


(** The states of [tr] carry the time stamps [t0], [t0 + h], ... *)
Definition stamped (t0 h : R) (tr : list State) : Prop :=
  forall i s, nth_error tr i = Some s -> t s = t0 + INR i * h.

(** Every state of [tr] but the last is a state of a moving stone. *)
Definition movingUntilLast (p : Params) (tr : list State) : Prop :=
  forall i s, nth_error tr i = Some s -> (S i < List.length tr)%nat ->
    stopped p s = false.

(** Every state of [tr] but the first and the last is on the sheet. *)
Definition insideUntilLast (sd : SheetDimensions) (tr : list State) : Prop :=
  forall i s, nth_error tr i = Some s ->
    (0 < i)%nat -> (S i < List.length tr)%nat ->
    offSheet sd (x s) (y s) = false.

(** [b] is what some ticks of [simulateAll] may make of the stone [a]:
    the same stone, which may have left play but not come back, and which
    is untouched once out of play. *)
Definition advanced (a b : Stone) : Prop :=
  id b = id a /\ team b = team a
  /\ (inPlay b = true -> inPlay a = true)
  /\ (inPlay a = false -> b = a).

(** The trajectory [b] is the trajectory [a] of the same stone with one
    more state in front. *)
Definition headed (a b : Z * list State) : Prop :=
  fst b = fst a /\ exists s0, snd b = s0 :: snd a.

End Physics.

(** *** The shot success model *)

Section Success.
Import Enhanced.

(** The context [c] with another skill level. *)
Definition withSkill (c : ShotContext) (s : R) : ShotContext :=
  mkContext (shotType c) s (shotNumber c) (gameScore_red c)
    (gameScore_yellow c) (endNumber c) (targetDistance c)
    (angleComplexity c) (stoneCount c).

(** The context [c] with another distance to the target. *)
Definition withDistance (c : ShotContext) (d : R) : ShotContext :=
  mkContext (shotType c) (skillLevel c) (shotNumber c) (gameScore_red c)
    (gameScore_yellow c) (endNumber c) d (angleComplexity c) (stoneCount c).

(** The factors that the situation and the difficulty contribute. *)
Definition pressure (c : ShotContext) : R :=
  if (8 <=? endNumber c)
     && (Rabs (gameScore_red c - gameScore_yellow c) <=? 2)
     && (12 <=? shotNumber c)
  then PRESSURE_PENALTY else 1.

Definition early (c : ShotContext) : R :=
  if (endNumber c <=? 3) && (shotNumber c <=? 8) then EARLY_GAME_BONUS else 1.

Definition fatigue (c : ShotContext) : R :=
  if (10 <=? endNumber c) then FATIGUE_PENALTY else 1.

Definition distanceFactor (d : R) : R :=
  if (0 <? d) then exp (- DISTANCE_DECAY * d) else 1.

Definition angleFactor (a : R) : R :=
  if (0 <? a) then 1 - a * (1 - ANGLE_PENALTY) else 1.

Definition crowding (n : R) : R :=
  if (4 <? n) then JS.pow COMPLEXITY_PENALTY (Rmax 0 (n - 4)) else 1.

Definition skillFactor (s : R) : R :=
  SKILL_MIN + (SKILL_MAX - SKILL_MIN) * (s / 100).

Definition bounded (v : R) : R := Rmax (1 / 10) (Rmin (99 / 100) v).

End Success.

End Notions.
(** * Properties *)

(** ** Facts about the number and object model *)

Module JSFacts.
Import Spec.

Lemma ltb_true (a b : R) : a < b -> (a <? b) = true.
Proof. intro H. unfold JS.ltb. destruct (Rlt_dec a b); [reflexivity | contradiction]. Qed.

Lemma ltb_false (a b : R) : b <= a -> (a <? b) = false.
Proof. intro H. unfold JS.ltb. destruct (Rlt_dec a b); [lra | reflexivity]. Qed.

Lemma leb_true (a b : R) : a <= b -> (a <=? b) = true.
Proof. intro H. unfold JS.leb. destruct (Rle_dec a b); [reflexivity | contradiction]. Qed.

Lemma leb_false (a b : R) : b < a -> (a <=? b) = false.
Proof. intro H. unfold JS.leb. destruct (Rle_dec a b); [lra | reflexivity]. Qed.

Lemma eqb_true (a b : R) : a = b -> (a =? b) = true.
Proof. intro H. unfold JS.eqb. destruct (Req_dec_T a b); [reflexivity | contradiction]. Qed.

Lemma eqb_false (a b : R) : a <> b -> (a =? b) = false.
Proof. intro H. unfold JS.eqb. destruct (Req_dec_T a b); [contradiction | reflexivity]. Qed.

Lemma ltb_spec (a b : R) : (a <? b) = true <-> a < b.
Proof.
  unfold JS.ltb. destruct (Rlt_dec a b); split; intro H; auto; discriminate.
Qed.

Lemma or_else_nonzero (x d : R) : x <> 0 -> JS.or_else x d = x.
Proof. intro H. unfold JS.or_else. now rewrite eqb_false. Qed.

Lemma hypot_axis_x (a : R) : 0 <= a -> JS.hypot a 0 = a.
Proof.
  intro H. unfold JS.hypot.
  replace (a * a + 0 * 0) with (a * a) by ring. now apply sqrt_square.
Qed.

Lemma hypot_axis_y (a : R) : 0 <= a -> JS.hypot 0 a = a.
Proof.
  intro H. unfold JS.hypot.
  replace (0 * 0 + a * a) with (a * a) by ring. now apply sqrt_square.
Qed.

(** *** Sums *)

Lemma fold_plus_shift (l : list R) (a : R) :
  fold_left Rplus l a = a + fold_left Rplus l 0.
Proof.
  revert a. induction l as [| h tl IH]; intro a; simpl.
  - ring.
  - rewrite (IH (a + h)), (IH (0 + h)). ring.
Qed.

Lemma sum_cons (h : R) (l : list R) : JS.sum (h :: l) = h + JS.sum l.
Proof.
  unfold JS.sum. simpl. rewrite (fold_plus_shift l (0 + h)). ring.
Qed.

Lemma sum_nil : JS.sum [] = 0.
Proof. reflexivity. Qed.

Lemma sum_app (l1 l2 : list R) : JS.sum (l1 ++ l2) = JS.sum l1 + JS.sum l2.
Proof.
  induction l1 as [| h tl IH]; simpl.
  - rewrite sum_nil. ring.
  - rewrite !sum_cons, IH. ring.
Qed.

Lemma sum_nonneg (l : list R) : Forall (fun v => 0 <= v) l -> 0 <= JS.sum l.
Proof.
  induction 1 as [| h tl Hh _ IH].
  - rewrite sum_nil. lra.
  - rewrite sum_cons. lra.
Qed.

Lemma sum_pos (l : list R) :
  l <> [] -> Forall (fun v => 0 < v) l -> 0 < JS.sum l.
Proof.
  intros Hne Hall. destruct l as [| h tl]; [congruence |].
  inversion Hall as [| ? ? Hh Htl]; subst.
  rewrite sum_cons.
  assert (0 <= JS.sum tl).
  { apply sum_nonneg. eapply Forall_impl; [| exact Htl]. simpl. intros; lra. }
  lra.
Qed.

Lemma sum_map_div (l : list R) (d : R) :
  JS.sum (map (fun v => v / d) l) = JS.sum l / d.
Proof.
  induction l as [| h tl IH]; simpl.
  - rewrite sum_nil. unfold Rdiv. ring.
  - rewrite !sum_cons, IH. unfold Rdiv. ring.
Qed.

(** The sum of [Object.values] does not depend on the enumeration order. *)
Lemma sum_values (o : JS.obj) : JS.sum (JS.values o) = JS.sum (map snd o).
Proof.
  unfold JS.values. rewrite sum_app.
  induction o as [| [k v] tl IH]; simpl.
  - rewrite sum_nil. ring.
  - destruct (0 <=? k)%Z; simpl; rewrite !sum_cons; lra.
Qed.

(** *** Objects *)

Lemma keys_set_present (o : JS.obj) (k : Z) (v : R) :
  In k (JS.keys o) -> JS.keys (JS.set o k v) = JS.keys o.
Proof.
  induction o as [| [k' v'] tl IH]; simpl; intro Hin.
  - contradiction.
  - destruct (Z.eqb_spec k' k) as [-> | Hne]; simpl.
    + reflexivity.
    + f_equal. apply IH. destruct Hin; [congruence | assumption].
Qed.

Lemma get_set_same (o : JS.obj) (k : Z) (v : R) :
  JS.get (JS.set o k v) k = Some v.
Proof.
  induction o as [| [k' v'] tl IH]; simpl.
  - now rewrite Z.eqb_refl.
  - destruct (Z.eqb_spec k' k) as [-> | Hne]; simpl.
    + now rewrite Z.eqb_refl.
    + destruct (Z.eqb_spec k' k); [contradiction | exact IH].
Qed.

Lemma get_set_other (o : JS.obj) (k k' : Z) (v : R) :
  k <> k' -> JS.get (JS.set o k v) k' = JS.get o k'.
Proof.
  intro Hkk. induction o as [| [k0 v0] tl IH]; simpl.
  - destruct (Z.eqb_spec k k'); [contradiction | reflexivity].
  - destruct (Z.eqb_spec k0 k) as [-> | Hne]; simpl.
    + destruct (Z.eqb_spec k k'); [contradiction | reflexivity].
    + destruct (Z.eqb_spec k0 k'); [reflexivity | exact IH].
Qed.

Lemma get_in_keys (o : JS.obj) (k : Z) :
  In k (JS.keys o) -> exists v, JS.get o k = Some v.
Proof.
  induction o as [| [k' v'] tl IH]; simpl; intro Hin.
  - contradiction.
  - destruct (Z.eqb_spec k' k) as [-> | Hne].
    + now exists v'.
    + apply IH. destruct Hin; [congruence | assumption].
Qed.

Lemma get_in (o : JS.obj) (k : Z) (v : R) :
  JS.get o k = Some v -> In (k, v) o.
Proof.
  induction o as [| [k' v'] tl IH]; simpl; intro H.
  - discriminate.
  - destruct (Z.eqb_spec k' k) as [-> | Hne].
    + left. congruence.
    + right. now apply IH.
Qed.

Lemma set_values_nonneg (o : JS.obj) (k : Z) (v : R) :
  0 <= v -> Forall (fun e => 0 <= snd e) o ->
  Forall (fun e => 0 <= snd e) (JS.set o k v).
Proof.
  intros Hv. induction 1 as [| [k' v'] tl Hh Htl IH]; simpl.
  - constructor; [exact Hv | constructor].
  - destruct (k' =? k)%Z; constructor; auto.
Qed.

(** Assigning fresh, distinct keys one after the other builds the object
    entry by entry. *)
Lemma build_fresh (ks : list Z) (vs : list R) (acc : JS.obj) :
  NoDup ks -> (forall k, In k ks -> ~ In k (JS.keys acc)) ->
  fold_left (fun out kp => JS.set out (fst kp) (snd kp)) (combine ks vs) acc
  = acc ++ combine ks vs.
Proof.
  revert vs acc. induction ks as [| k tl IH]; intros vs acc Hnd Hfresh; simpl.
  - now rewrite app_nil_r.
  - destruct vs as [| v vs']; simpl.
    + now rewrite app_nil_r.
    + assert (Hset : JS.set acc k v = acc ++ [(k, v)]).
      { assert (Hk : ~ In k (JS.keys acc)) by (apply Hfresh; now left).
        clear - Hk. induction acc as [| [k' v'] t IHt]; simpl in *.
        - reflexivity.
        - destruct (Z.eqb_spec k' k) as [-> | Hne].
          + exfalso. apply Hk. now left.
          + f_equal. apply IHt. intro Hin. apply Hk. now right. }
      rewrite Hset. inversion Hnd as [| ? ? Hnotin Hnd']; subst.
      rewrite IH.
      * now rewrite <- app_assoc.
      * exact Hnd'.
      * intros k0 Hin0. unfold JS.keys. rewrite map_app, in_app_iff. simpl.
        intros [Hacc | [Heq | []]].
        -- apply (Hfresh k0); [now right | exact Hacc].
        -- subst k0. contradiction.
Qed.

(** *** Sorting *)

Lemma insert_sorted_length (v : R) (l : list R) :
  List.length (JS.insert_sorted v l) = S (List.length l).
Proof.
  induction l as [| h tl IH]; simpl.
  - reflexivity.
  - destruct (v <=? h); simpl; [reflexivity | now rewrite IH].
Qed.

Lemma sort_length (l : list R) : List.length (JS.sort l) = List.length l.
Proof.
  induction l as [| h tl IH]; simpl.
  - reflexivity.
  - unfold JS.sort in *. simpl. now rewrite insert_sorted_length, IH.
Qed.

Lemma filter_insert_sorted_length (f : R -> bool) (v : R) (l : list R) :
  List.length (filter f (JS.insert_sorted v l))
  = List.length (filter f (v :: l)).
Proof.
  induction l as [| h tl IH]; simpl.
  - reflexivity.
  - destruct (v <=? h); simpl.
    + reflexivity.
    + simpl in IH. destruct (f h), (f v); simpl in *; lia.
Qed.

Lemma filter_sort_length (f : R -> bool) (l : list R) :
  List.length (filter f (JS.sort l)) = List.length (filter f l).
Proof.
  induction l as [| h tl IH]; simpl.
  - reflexivity.
  - unfold JS.sort in *. simpl. rewrite filter_insert_sorted_length. simpl.
    destruct (f h); simpl; now rewrite IH.
Qed.

Lemma head_insert_sorted (v : R) (l : list R) :
  hd_error (JS.insert_sorted v l)
  = match hd_error l with
    | None => Some v
    | Some h => Some (Rmin v h)
    end.
Proof.
  destruct l as [| h tl]; simpl.
  - reflexivity.
  - unfold JS.leb. destruct (Rle_dec v h); simpl; f_equal; unfold Rmin;
      destruct (Rle_dec v h); try reflexivity; contradiction.
Qed.

Lemma head_sort (l : list R) : hd_error (JS.sort l) = minimum l.
Proof.
  induction l as [| h tl IH]; simpl.
  - reflexivity.
  - unfold JS.sort in *. simpl. rewrite head_insert_sorted, IH.
    destruct (minimum tl); reflexivity.
Qed.

Lemma minimum_none (l : list R) : minimum l = None <-> l = [].
Proof.
  destruct l as [| h tl]; simpl.
  - tauto.
  - destruct (minimum tl); split; intro H; discriminate.
Qed.

Lemma minimum_lower (l : list R) (m0 : R) :
  minimum l = Some m0 -> Forall (fun r => m0 <= r) l.
Proof.
  revert m0. induction l as [| h tl IH]; intros m0 H; simpl in *.
  - constructor.
  - destruct (minimum tl) as [m1 |] eqn:E.
    + injection H as <-. constructor.
      * apply Rmin_l.
      * eapply Forall_impl; [| apply (IH m1 eq_refl)].
        simpl. intros a Ha. pose proof (Rmin_r h m1). lra.
    + injection H as <-. apply minimum_none in E. subst tl.
      constructor; [lra | constructor].
Qed.

Lemma minimum_in (l : list R) (m0 : R) : minimum l = Some m0 -> In m0 l.
Proof.
  revert m0. induction l as [| h tl IH]; intros m0 H; simpl in *.
  - discriminate.
  - destruct (minimum tl) as [m1 |] eqn:E.
    + injection H as <-. unfold Rmin. destruct (Rle_dec h m1).
      * now left.
      * right. now apply IH.
    + injection H as <-. now left.
Qed.

End JSFacts.

(** ** The evaluator *)

Module EvalFacts.
Import Spec Eval JSFacts.

(** *** The bucket keys *)

Lemma kVals_eq :
  kVals = [-8; -7; -6; -5; -4; -3; -2; -1; 0; 1; 2; 3; 4; 5; 6; 7; 8]%Z.
Proof. reflexivity. Qed.

Lemma in_kVals (k : Z) : In k kVals <-> (-8 <= k <= 8)%Z.
Proof.
  rewrite kVals_eq. simpl. split.
  - intros H. repeat (destruct H as [H | H]; [lia |]). contradiction.
  - intro H.
    assert (k = -8 \/ k = -7 \/ k = -6 \/ k = -5 \/ k = -4 \/ k = -3
            \/ k = -2 \/ k = -1 \/ k = 0 \/ k = 1 \/ k = 2 \/ k = 3
            \/ k = 4 \/ k = 5 \/ k = 6 \/ k = 7 \/ k = 8)%Z as Hk by lia.
    repeat (destruct Hk as [Hk | Hk]; [subst k; tauto |]). subst k; tauto.
Qed.

Lemma NoDup_kVals : NoDup kVals.
Proof.
  rewrite kVals_eq.
  repeat (constructor; [simpl; intros H;
                        repeat (destruct H as [H | H]; [discriminate |]);
                        contradiction |]).
  constructor.
Qed.

Lemma kVals_length : List.length kVals = 17%nat.
Proof. reflexivity. Qed.

Lemma in_ks18 (k : Z) : In k ks18 <-> (1 <= k <= 8)%Z.
Proof.
  unfold ks18. simpl. split.
  - intros H. repeat (destruct H as [H | H]; [lia |]). contradiction.
  - intro H.
    assert (k = 1 \/ k = 2 \/ k = 3 \/ k = 4 \/ k = 5 \/ k = 6 \/ k = 7
            \/ k = 8)%Z as Hk by lia.
    repeat (destruct Hk as [Hk | Hk]; [subst k; tauto |]). subst k; tauto.
Qed.

Lemma keys_combine (ks : list Z) (vs : list R) :
  List.length ks = List.length vs -> JS.keys (combine ks vs) = ks.
Proof.
  revert vs. induction ks as [| k tl IH]; intros [| v vs] H; simpl in *;
    try discriminate; try reflexivity.
  f_equal. apply IH. lia.
Qed.

(** *** Softmax *)

Lemma softmax_length (arr : list R) :
  List.length (softmax1D arr) = List.length arr.
Proof. unfold softmax1D. now rewrite !length_map. Qed.

Lemma exps_sum_pos (arr : list R) (c : R) :
  arr <> [] -> 0 < JS.sum (map (fun v => exp (v - c)) arr).
Proof.
  intro Hne. apply sum_pos.
  - destruct arr; [congruence | discriminate].
  - apply Forall_forall. intros v Hin. apply in_map_iff in Hin.
    destruct Hin as [u [<- _]]. apply exp_pos.
Qed.

Lemma softmax_pos (arr : list R) :
  arr <> [] -> Forall (fun v => 0 < v) (softmax1D arr).
Proof.
  intro Hne. unfold softmax1D.
  set (c := JS.max_list arr).
  pose proof (exps_sum_pos arr c Hne) as Hs.
  rewrite or_else_nonzero by lra.
  apply Forall_forall. intros v Hin. apply in_map_iff in Hin.
  destruct Hin as [e [<- He]]. apply in_map_iff in He.
  destruct He as [u [<- _]].
  apply Rdiv_lt_0_compat; [apply exp_pos | exact Hs].
Qed.

(** The probabilities of the softmax add up to one. *)
Lemma softmax_sum (arr : list R) : arr <> [] -> JS.sum (softmax1D arr) = 1.
Proof.
  intro Hne. unfold softmax1D.
  set (c := JS.max_list arr).
  pose proof (exps_sum_pos arr c Hne) as Hs.
  rewrite or_else_nonzero by lra.
  rewrite sum_map_div. field. lra.
Qed.

(** *** The distribution before the constraints *)

Lemma distribution_is_combine (sc : R) (s : Z) (sk : R) :
  exists probs,
    distribution17_fromScore sc s sk = combine kVals probs
    /\ List.length probs = 17%nat
    /\ Forall (fun v => 0 < v) probs
    /\ JS.sum probs = 1.
Proof.
  unfold distribution17_fromScore. cbv zeta.
  match goal with
  | |- context [softmax1D ?l] => set (logits := l)
  end.
  assert (Hlen : List.length logits = 17%nat).
  { unfold logits. rewrite length_map, length_combine, length_map.
    rewrite kVals_length. reflexivity. }
  assert (Hne : logits <> []).
  { intro E. rewrite E in Hlen. discriminate. }
  exists (softmax1D logits). split; [| split; [| split]].
  - rewrite build_fresh.
    + reflexivity.
    + apply NoDup_kVals.
    + intros k _ [].
  - now rewrite softmax_length.
  - now apply softmax_pos.
  - now apply softmax_sum.
Qed.

Lemma combine_positive (ks : list Z) (vs : list R) :
  Forall (fun v => 0 < v) vs -> Forall (fun e => 0 < snd e) (combine ks vs).
Proof.
  intro H. apply Forall_forall. intros [k v] Hin. simpl.
  apply in_combine_r in Hin. rewrite Forall_forall in H. now apply H.
Qed.

Lemma distribution_well_formed (sc : R) (s : Z) (sk : R) :
  well_formed (distribution17_fromScore sc s sk).
Proof.
  destruct (distribution_is_combine sc s sk) as [probs [-> [Hlen [Hpos _]]]].
  assert (Hkeys : JS.keys (combine kVals probs) = kVals).
  { apply keys_combine. now rewrite kVals_length, Hlen. }
  pose proof (combine_positive kVals probs Hpos) as Hcp.
  repeat split.
  - exact Hkeys.
  - eapply Forall_impl; [| exact Hcp]. simpl. intros; lra.
  - destruct (get_in_keys (combine kVals probs) 0%Z) as [v Hv].
    { rewrite Hkeys. apply in_kVals. lia. }
    exists v. split; [exact Hv |].
    apply get_in in Hv. rewrite Forall_forall in Hcp. apply (Hcp _ Hv).
Qed.

(** *** The feasibility pass *)

Lemma set_zero_well_formed (o : JS.obj) (k : Z) :
  well_formed o -> In k kVals -> k <> 0%Z -> well_formed (JS.set o k 0).
Proof.
  intros [Hk [Hnn [v [Hv Hpos]]]] Hin Hne. repeat split.
  - rewrite keys_set_present; [exact Hk | now rewrite Hk].
  - apply set_values_nonneg; [lra | exact Hnn].
  - exists v. split; [| exact Hpos]. now rewrite get_set_other.
Qed.

Lemma zeroHammerStep_well_formed (h : string) (mr my : Z) (o : JS.obj) (k : Z) :
  In k ks18 -> well_formed o -> well_formed (zeroHammerStep h mr my o k).
Proof.
  intros Hin Hwf. apply in_ks18 in Hin. unfold zeroHammerStep.
  assert (Hk : In k kVals) by (apply in_kVals; lia).
  assert (Hne : k <> 0%Z) by lia.
  destruct (_ && _); destruct (_ && _);
    repeat apply set_zero_well_formed; assumption.
Qed.

Lemma zeroStealStep_well_formed (h : string) (mr my : Z) (o : JS.obj) (k : Z) :
  In k ks18 -> well_formed o -> well_formed (zeroStealStep h mr my o k).
Proof.
  intros Hin Hwf. apply in_ks18 in Hin. unfold zeroStealStep.
  assert (Hk : In (- k)%Z kVals) by (apply in_kVals; lia).
  assert (Hne : (- k)%Z <> 0%Z) by lia.
  destruct (_ && _); destruct (_ && _);
    repeat apply set_zero_well_formed; assumption.
Qed.

Lemma fold_left_preserves {A B : Type} (P : A -> Prop) (f : A -> B -> A)
    (l : list B) (a : A) :
  (forall a0 b, In b l -> P a0 -> P (f a0 b)) -> P a -> P (fold_left f l a).
Proof.
  revert a. induction l as [| b tl IH]; intros a Hstep Ha; simpl.
  - exact Ha.
  - apply IH.
    + intros a0 b0 Hin. apply Hstep. now right.
    + apply Hstep; [now left | exact Ha].
Qed.

Lemma well_formed_sum_pos (o : JS.obj) :
  well_formed o -> 0 < JS.sum (JS.values o).
Proof.
  intros [_ [Hnn [v [Hv Hpos]]]]. rewrite sum_values.
  apply get_in in Hv. clear - Hnn Hv Hpos.
  induction o as [| [k' v'] tl IH]; simpl in *.
  - contradiction.
  - rewrite sum_cons. inversion Hnn as [| ? ? Hh Htl]; subst. simpl in Hh.
    destruct Hv as [E | Hin].
    + injection E as -> ->.
      assert (0 <= JS.sum (map snd tl)).
      { apply sum_nonneg. apply Forall_forall. intros a Ha.
        apply in_map_iff in Ha. destruct Ha as [e [<- He]].
        rewrite Forall_forall in Htl. now apply Htl. }
      lra.
    + specialize (IH Htl Hin). lra.
Qed.

Lemma divideAll_keys (o : JS.obj) (d : R) : JS.keys (divideAll o d) = JS.keys o.
Proof.
  unfold divideAll, JS.keys. rewrite map_map. now apply map_ext.
Qed.

Lemma divideAll_sum (o : JS.obj) (d : R) :
  d <> 0 -> d = JS.sum (JS.values o) -> JS.sum (JS.values (divideAll o d)) = 1.
Proof.
  intros Hd Hsum. rewrite sum_values. unfold divideAll. rewrite map_map. simpl.
  rewrite <- (map_map snd (fun v => v / d)), sum_map_div.
  rewrite <- sum_values, <- Hsum. now field.
Qed.

Lemma divideAll_get (o : JS.obj) (d : R) (k : Z) :
  JS.get (divideAll o d) k = option_map (fun v => v / d) (JS.get o k).
Proof.
  induction o as [| [k' v'] tl IH]; simpl.
  - reflexivity.
  - destruct (k' =? k)%Z; [reflexivity | exact IH].
Qed.

Lemma ownBound_red (stones : list EvalStone) (n : Z) (h : string) :
  ownBound "red" stones n h
  = (inPlayCount "red" stones + (8 - th_red (countThrown n h)))%Z.
Proof. reflexivity. Qed.

Lemma ownBound_yellow (stones : list EvalStone) (n : Z) (h : string) :
  ownBound "yellow" stones n h
  = (inPlayCount "yellow" stones + (8 - th_yellow (countThrown n h)))%Z.
Proof. reflexivity. Qed.

Lemma applyConstraints_running (buckets : JS.obj) (stones : list EvalStone)
    (h : string) (s n : Z) :
  s <> 0%Z -> well_formed buckets ->
  let b2 := constrained buckets stones h n in
  well_formed b2
  /\ applyConstraints buckets stones h s n
     = divideAll b2 (JS.sum (JS.values b2)).
Proof.
  intros Hs Hwf b2.
  assert (Hwf2 : well_formed b2).
  { unfold b2, constrained.
    apply fold_left_preserves.
    - intros; now apply zeroStealStep_well_formed.
    - apply fold_left_preserves.
      + intros; now apply zeroHammerStep_well_formed.
      + exact Hwf. }
  split; [exact Hwf2 |].
  pose proof (well_formed_sum_pos _ Hwf2) as Hpos.
  unfold b2, constrained in *. cbv zeta in *.
  rewrite ownBound_red, ownBound_yellow in *.
  unfold applyConstraints. cbv zeta.
  destruct (Z.eqb_spec s 0) as [E | _]; [contradiction |].
  rewrite (ltb_true _ _ Hpos). reflexivity.
Qed.

(** *** Which buckets the zeroing loops reach *)

Lemma get_fold_zero (P : Z -> bool) (key : Z -> Z) (ks : list Z)
    (o : JS.obj) (j : Z) :
  JS.get (fold_left (fun b k => if P k then JS.set b (key k) 0 else b) ks o) j
  = if existsb (fun k => P k && (key k =? j)%Z) ks then Some 0
    else JS.get o j.
Proof.
  revert o. induction ks as [| k tl IH]; intro o; simpl.
  - reflexivity.
  - rewrite IH. destruct (existsb _ tl).
    + now rewrite orb_true_r.
    + rewrite orb_false_r. destruct (P k); simpl; [| reflexivity].
      destruct (Z.eqb_spec (key k) j) as [<- | Hne].
      * apply get_set_same.
      * now apply get_set_other.
Qed.

Lemma zeroHammerStep_known (h : string) (mr my : Z) :
  h = "red"%string \/ h = "yellow"%string ->
  zeroHammerStep h mr my
  = fun b k => if ((if String.eqb h "red" then mr else my) <? k)%Z
               then JS.set b k 0 else b.
Proof.
  intros [-> | ->]; unfold zeroHammerStep; reflexivity.
Qed.

Lemma zeroStealStep_known (h : string) (mr my : Z) :
  h = "red"%string \/ h = "yellow"%string ->
  zeroStealStep h mr my
  = fun b k => if ((if String.eqb h "red" then my else mr) <? k)%Z
               then JS.set b (- k)%Z 0 else b.
Proof.
  intros [-> | ->]; unfold zeroStealStep; reflexivity.
Qed.

Lemma existsb_ks18 (f : Z -> bool) :
  existsb f ks18 = true <-> exists k, (1 <= k <= 8)%Z /\ f k = true.
Proof.
  rewrite existsb_exists. split; intros [k [Hk Hf]]; exists k; split;
    try assumption; now apply in_ks18.
Qed.

Lemma ownBound_hammer (h : string) (stones : list EvalStone) (n : Z) :
  h = "red"%string \/ h = "yellow"%string ->
  (if String.eqb h "red" then ownBound "red" stones n h
   else ownBound "yellow" stones n h) = ownBound h stones n h
  /\ (if String.eqb h "red" then ownBound "yellow" stones n h
      else ownBound "red" stones n h) = ownBound (otherTeam h) stones n h.
Proof. intros [-> | ->]; split; reflexivity. Qed.

(** After the two loops a bucket is zero exactly when its score exceeds
    the scoring team's own bound; every other bucket keeps its value. *)
Lemma constrained_get (b0 : JS.obj) (stones : list EvalStone) (h : string)
    (n j : Z) :
  h = "red"%string \/ h = "yellow"%string ->
  JS.get (constrained b0 stones h n) j
  = if ((1 <=? j)%Z && (ownBound h stones n h <? j)%Z)
       || ((j <=? -1)%Z && (ownBound (otherTeam h) stones n h <? - j)%Z)
    then (if (-8 <=? j)%Z && (j <=? 8)%Z then Some 0 else JS.get b0 j)
    else JS.get b0 j.
Proof.
  intro Hh. unfold constrained. cbv zeta.
  rewrite (zeroHammerStep_known h _ _ Hh), (zeroStealStep_known h _ _ Hh).
  destruct (ownBound_hammer h stones n Hh) as [-> ->].
  rewrite (get_fold_zero
             (fun k => (ownBound (otherTeam h) stones n h <? k)%Z)
             (fun k => (- k)%Z)).
  rewrite (get_fold_zero (fun k => (ownBound h stones n h <? k)%Z)
             (fun k => k)).
  set (mh := ownBound h stones n h).
  set (mo := ownBound (otherTeam h) stones n h).
  destruct (existsb (fun k => (mo <? k)%Z && (- k =? j)%Z) ks18) eqn:E1.
  - apply existsb_ks18 in E1. destruct E1 as [k [Hk Hf]].
    apply andb_true_iff in Hf. destruct Hf as [Hlt Heq].
    apply Z.eqb_eq in Heq. apply Z.ltb_lt in Hlt.
    replace ((j <=? -1)%Z && (mo <? - j)%Z) with true
      by (symmetry; apply andb_true_iff; split;
          [apply Z.leb_le | apply Z.ltb_lt]; lia).
    rewrite orb_true_r.
    replace ((-8 <=? j)%Z && (j <=? 8)%Z) with true
      by (symmetry; apply andb_true_iff; split; apply Z.leb_le; lia).
    reflexivity.
  - assert (Hno1 : (j <=? -1)%Z && (mo <? - j)%Z && ((-8 <=? j)%Z && (j <=? 8)%Z) = false).
    { apply not_true_is_false. intro Ht.
      apply andb_true_iff in Ht. destruct Ht as [Ht1 Ht2].
      apply andb_true_iff in Ht1. destruct Ht1 as [Ha Hb].
      apply andb_true_iff in Ht2. destruct Ht2 as [Hc Hd].
      apply Z.leb_le in Ha, Hc, Hd. apply Z.ltb_lt in Hb.
      assert (Hex : existsb (fun k => (mo <? k)%Z && (- k =? j)%Z) ks18 = true).
      { apply existsb_ks18. exists (- j)%Z. split; [lia |].
        apply andb_true_iff. split; [now apply Z.ltb_lt | apply Z.eqb_eq; lia]. }
      congruence. }
    destruct (existsb (fun k => (mh <? k)%Z && (k =? j)%Z) ks18) eqn:E2.
    + apply existsb_ks18 in E2. destruct E2 as [k [Hk Hf]].
      apply andb_true_iff in Hf. destruct Hf as [Hlt Heq].
      apply Z.eqb_eq in Heq. apply Z.ltb_lt in Hlt. subst k.
      replace ((1 <=? j)%Z && (mh <? j)%Z) with true
        by (symmetry; apply andb_true_iff; split;
            [apply Z.leb_le | apply Z.ltb_lt]; lia).
      replace ((-8 <=? j)%Z && (j <=? 8)%Z) with true
        by (symmetry; apply andb_true_iff; split; apply Z.leb_le; lia).
      reflexivity.
    + assert (Hno2 : (1 <=? j)%Z && (mh <? j)%Z && ((-8 <=? j)%Z && (j <=? 8)%Z) = false).
      { apply not_true_is_false. intro Ht.
        apply andb_true_iff in Ht. destruct Ht as [Ht1 Ht2].
        apply andb_true_iff in Ht1. destruct Ht1 as [Ha Hb].
        apply andb_true_iff in Ht2. destruct Ht2 as [Hc Hd].
        apply Z.leb_le in Ha, Hc, Hd. apply Z.ltb_lt in Hb.
        assert (Hex : existsb (fun k => (mh <? k)%Z && (k =? j)%Z) ks18 = true).
        { apply existsb_ks18. exists j. split; [lia |].
          apply andb_true_iff. split; [now apply Z.ltb_lt | apply Z.eqb_refl]. }
        congruence. }
      destruct ((1 <=? j)%Z && (mh <? j)%Z), ((j <=? -1)%Z && (mo <? - j)%Z),
        ((-8 <=? j)%Z && (j <=? 8)%Z); simpl in *; try reflexivity;
        discriminate.
Qed.

(** *** Terminal collapse *)

Lemma zeroBuckets_eq : zeroBuckets = map (fun j => (j, 0)) kVals.
Proof. reflexivity. Qed.

Lemma set_one_pointMass (ks : list Z) (k : Z) :
  NoDup ks -> In k ks ->
  JS.set (map (fun j => (j, 0)) ks) k 1
  = map (fun j => (j, if (j =? k)%Z then 1 else 0)) ks.
Proof.
  induction ks as [| j tl IH]; intros Hnd Hin; simpl.
  - contradiction.
  - inversion Hnd as [| ? ? Hnotin Hnd']; subst.
    destruct (Z.eqb_spec j k) as [-> | Hne].
    + f_equal. apply map_ext_in. intros a Ha.
      destruct (Z.eqb_spec a k); [subst; contradiction | reflexivity].
    + f_equal. apply IH; [exact Hnd' |].
      destruct Hin; [contradiction | assumption].
Qed.

Lemma collapse_pointMass (stones : list EvalStone) (h : string) :
  In (terminalScore stones h) kVals ->
  collapseToTerminal stones h = pointMass (terminalScore stones h).
Proof.
  intro Hin. unfold collapseToTerminal, pointMass. rewrite zeroBuckets_eq.
  apply set_one_pointMass; [apply NoDup_kVals | exact Hin].
Qed.

Lemma pointMass_keys (k : Z) : JS.keys (pointMass k) = kVals.
Proof.
  unfold pointMass, JS.keys. rewrite map_map. apply map_id.
Qed.

Lemma pointMass_get (k j : Z) :
  In j kVals -> JS.get (pointMass k) j = Some (if (j =? k)%Z then 1 else 0).
Proof.
  unfold pointMass. generalize NoDup_kVals. generalize kVals.
  induction l as [| a tl IH]; intros Hnd Hin; simpl.
  - contradiction.
  - destruct (Z.eqb_spec a j) as [-> | Hne].
    + reflexivity.
    + inversion Hnd; subst. apply IH; [assumption |].
      destruct Hin; [contradiction | assumption].
Qed.

Lemma pointMass_sum (k : Z) : In k kVals -> JS.sum (map snd (pointMass k)) = 1.
Proof.
  unfold pointMass. generalize NoDup_kVals. generalize kVals.
  induction l as [| a tl IH]; intros Hnd Hin; simpl.
  - contradiction.
  - rewrite sum_cons. simpl. inversion Hnd as [| ? ? Hnotin Hnd']; subst.
    destruct (Z.eqb_spec a k) as [-> | Hne].
    + assert (Hz : JS.sum (map snd (map (fun j => (j, if (j =? k)%Z then 1 else 0)) tl)) = 0).
      { clear - Hnotin. induction tl as [| b tl' IHt]; simpl.
        - apply sum_nil.
        - rewrite sum_cons. simpl.
          destruct (Z.eqb_spec b k) as [-> | Hb].
          + exfalso. apply Hnotin. now left.
          + rewrite IHt; [ring |]. intro H. apply Hnotin. now right. }
      rewrite Hz. ring.
    + rewrite IH; [ring | exact Hnd' |].
      destruct Hin; [contradiction | assumption].
Qed.

Lemma houseRadii_sort (team : string) (stones : list EvalStone) :
  houseRadii team stones = JS.sort (radii team stones).
Proof. reflexivity. Qed.

Lemma leads_hd (mine theirs : list R) :
  leads mine theirs
  = match hd_error mine, hd_error theirs with
    | None, _ => false
    | Some _, None => true
    | Some a, Some b => a <? b - eps9
    end.
Proof. destruct mine, theirs; reflexivity. Qed.

Lemma countBefore_hd (mine theirs : list R) :
  countBefore mine theirs
  = match hd_error theirs with
    | None => Z.of_nat (List.length mine)
    | Some c => Z.of_nat (beatenBy c mine)
    end.
Proof. destruct theirs; reflexivity. Qed.

(** The sort-based computation of the source is the margin rule. *)
Lemma terminalScore_margin (stones : list EvalStone) (h : string) :
  terminalScore stones h = marginScore stones h.
Proof.
  unfold terminalScore, marginScore. rewrite !houseRadii_sort.
  set (rs := radii "red" stones). set (ys := radii "yellow" stones).
  rewrite !leads_hd, !countBefore_hd, !head_sort, !sort_length.
  unfold signedFor, beatenBy.
  destruct (minimum rs) as [a |], (minimum ys) as [b |];
    rewrite ?filter_sort_length; reflexivity.
Qed.

Lemma filter_length_le {A : Type} (f : A -> bool) (l : list A) :
  (List.length (filter f l) <= List.length l)%nat.
Proof.
  induction l as [| a tl IH]; simpl; [lia |]. destruct (f a); simpl; lia.
Qed.

Lemma radii_length (team : string) (stones : list EvalStone) :
  (List.length (radii team stones)
   <= List.length (teamStones team stones))%nat.
Proof.
  unfold radii, teamStones. rewrite length_map.
  induction stones as [| s tl IH]; simpl; [lia |].
  destruct (String.eqb (st_team s) team); simpl.
  - destruct (_ && _); simpl; lia.
  - lia.
Qed.

Lemma marginScore_range (stones : list EvalStone) (h : string) :
  (List.length (teamStones "red" stones) <= 8)%nat ->
  (List.length (teamStones "yellow" stones) <= 8)%nat ->
  (-8 <= marginScore stones h <= 8)%Z.
Proof.
  intros Hr Hy.
  pose proof (radii_length "red" stones) as Lr.
  pose proof (radii_length "yellow" stones) as Ly.
  unfold marginScore, signedFor, beatenBy.
  destruct (minimum _) as [a |], (minimum _) as [b |].
  - pose proof (filter_length_le (fun r => r <? b - eps9) (radii "red" stones)).
    pose proof (filter_length_le (fun r => r <? a - eps9) (radii "yellow" stones)).
    destruct (a <? b - eps9); [destruct (String.eqb h "red"); lia |].
    destruct (b <? a - eps9); [destruct (String.eqb h "yellow"); lia | lia].
  - destruct (String.eqb h "red"); lia.
  - destruct (String.eqb h "yellow"); lia.
  - lia.
Qed.

(** At the last shot the buckets are the collapse, whatever the score. *)
Lemma buckets_at_last_shot (h : string) (stones : list EvalStone) (skill : R) :
  buckets17 (evaluatePosition17 15 h stones skill)
  = collapseToTerminal stones h.
Proof. reflexivity. Qed.

Lemma last_shot_buckets (h : string) (stones : list EvalStone) (skill : R) :
  (List.length (teamStones "red" stones) <= 8)%nat ->
  (List.length (teamStones "yellow" stones) <= 8)%nat ->
  buckets17 (evaluatePosition17 15 h stones skill)
  = pointMass (marginScore stones h).
Proof.
  intros Hred Hyel.
  rewrite buckets_at_last_shot, <- terminalScore_margin.
  apply collapse_pointMass. rewrite terminalScore_margin.
  apply in_kVals. now apply marginScore_range.
Qed.

Lemma distribution_get_pos (sc : R) (s : Z) (sk : R) (j : Z) :
  In j kVals ->
  exists v, JS.get (distribution17_fromScore sc s sk) j = Some v /\ 0 < v.
Proof.
  intro Hj.
  destruct (distribution_is_combine sc s sk) as [probs [E [Hlen [Hpos _]]]].
  rewrite E.
  assert (Hkeys : JS.keys (combine kVals probs) = kVals).
  { apply keys_combine. now rewrite kVals_length, Hlen. }
  destruct (get_in_keys (combine kVals probs) j) as [v Hv].
  { now rewrite Hkeys. }
  exists v. split; [exact Hv |].
  apply get_in in Hv.
  pose proof (combine_positive kVals probs Hpos) as Hcp.
  rewrite Forall_forall in Hcp. apply (Hcp _ Hv).
Qed.

Lemma buckets_before_last_shot (n : Z) (h : string) (stones : list EvalStone)
    (skill : R) :
  n <> 15%Z ->
  exists b0, well_formed b0 /\
    (forall j, In j kVals -> exists v, JS.get b0 j = Some v /\ 0 < v) /\
    let b2 := constrained b0 stones h n in
    well_formed b2
    /\ buckets17 (evaluatePosition17 n h stones skill)
       = divideAll b2 (JS.sum (JS.values b2)).
Proof.
  intro Hn. cbv beta zeta iota delta [evaluatePosition17 buckets17].
  match goal with
  | |- context [applyConstraints ?b _ _ _ _] => exists b
  end.
  split; [apply distribution_well_formed |].
  split; [intros j Hj; now apply distribution_get_pos |].
  apply applyConstraints_running; [lia | apply distribution_well_formed].
Qed.

(** *** Stones that belong to no team *)

Lemma filter_none {A : Type} (f : A -> bool) (l : list A) :
  (forall a, In a l -> f a = false) -> filter f l = [].
Proof.
  induction l as [| a tl IH]; intro H; simpl.
  - reflexivity.
  - rewrite (H a) by now left. apply IH. intros b Hb. apply H. now right.
Qed.

Section ForeignStones.

Variable stones : list EvalStone.
Variable team : string.
Hypothesis foreign : forall s, In s stones -> st_team s <> team.

Lemma foreign_eqb (s : EvalStone) :
  In s stones -> String.eqb (st_team s) team = false.
Proof. intro H. apply String.eqb_neq. now apply foreign. Qed.

Lemma teamStones_foreign : teamStones team stones = [].
Proof. apply filter_none. intros s Hs. now apply foreign_eqb. Qed.

Lemma computeTeamStoneValues_foreign : computeTeamStoneValues team stones = [].
Proof.
  unfold computeTeamStoneValues. cbv zeta. now rewrite teamStones_foreign.
Qed.

Lemma countCenter_foreign : countCenter team stones = O.
Proof.
  unfold countCenter. rewrite filter_none; [reflexivity |].
  intros s Hs. now rewrite foreign_eqb.
Qed.

End ForeignStones.

Lemma filter_filter_implied {A : Type} (f g : A -> bool) (l : list A) :
  (forall a, f a = true -> g a = true) ->
  filter f (filter g l) = filter f l.
Proof.
  intro H. induction l as [| a tl IH]; simpl.
  - reflexivity.
  - destruct (g a) eqn:Hg; simpl.
    + destruct (f a); [f_equal |]; exact IH.
    + destruct (f a) eqn:Hf; [| exact IH].
      rewrite (H a Hf) in Hg. discriminate.
Qed.

Section DropForeign.

Variable h : string.
Variable stones : list EvalStone.
Variable team : string.
Hypothesis team_counts :
  team = "red"%string \/ team = "yellow"%string \/ team = h.

Lemma recognized_team (s : EvalStone) :
  String.eqb (st_team s) team = true -> recognized h s = true.
Proof.
  intro H. unfold recognized.
  destruct team_counts as [-> | [-> | ->]]; rewrite H;
    rewrite ?orb_true_r; reflexivity.
Qed.

Lemma filter_team_dropForeign (f : EvalStone -> bool) :
  filter (fun s => String.eqb (st_team s) team && f s) (dropForeign h stones)
  = filter (fun s => String.eqb (st_team s) team && f s) stones.
Proof.
  apply filter_filter_implied. intros s Hs.
  apply andb_true_iff in Hs. now apply recognized_team.
Qed.

Lemma teamStones_dropForeign :
  teamStones team (dropForeign h stones) = teamStones team stones.
Proof.
  unfold teamStones. apply filter_filter_implied. apply recognized_team.
Qed.

Lemma countCenter_dropForeign :
  countCenter team (dropForeign h stones) = countCenter team stones.
Proof.
  unfold countCenter, dropForeign. f_equal.
  apply filter_filter_implied. intros s Hs. apply recognized_team.
  destruct (String.eqb (st_team s) team); [reflexivity | discriminate].
Qed.

Lemma inPlayCount_dropForeign :
  inPlayCount team (dropForeign h stones) = inPlayCount team stones.
Proof.
  unfold inPlayCount. do 2 f_equal.
  apply (filter_team_dropForeign (fun s => isInPlay (st_x s) (st_y s))).
Qed.

Lemma houseRadii_dropForeign :
  houseRadii team (dropForeign h stones) = houseRadii team stones.
Proof.
  unfold houseRadii, dropForeign. do 2 f_equal.
  apply filter_filter_implied. intros s Hs. apply recognized_team.
  destruct (String.eqb (st_team s) team); [reflexivity | discriminate].
Qed.

End DropForeign.

(** The buckets sum to one whatever the labels, the shot number and the
    skill. *)
Lemma buckets17_distribution (n : Z) (h : string) (stones : list EvalStone)
    (skill : R) :
  (List.length (teamStones "red" stones) <= 8)%nat ->
  (List.length (teamStones "yellow" stones) <= 8)%nat ->
  JS.keys (buckets17 (evaluatePosition17 n h stones skill)) = kVals
  /\ JS.sum (JS.values (buckets17 (evaluatePosition17 n h stones skill))) = 1.
Proof.
  intros Hred Hyel.
  destruct (Z.eq_dec n 15) as [-> | Hn].
  - rewrite buckets_at_last_shot.
    assert (Hin : In (terminalScore stones h) kVals).
    { rewrite terminalScore_margin. apply in_kVals.
      now apply marginScore_range. }
    rewrite (collapse_pointMass _ _ Hin).
    split; [apply pointMass_keys |].
    rewrite sum_values. now apply pointMass_sum.
  - destruct (buckets_before_last_shot n h stones skill Hn)
      as [b0 [_ [_ [Hwf ->]]]].
    pose proof (well_formed_sum_pos _ Hwf) as Hpos.
    split.
    + rewrite divideAll_keys. apply Hwf.
    + apply divideAll_sum; [lra | reflexivity].
Qed.

(** *** Concrete evaluations *)

Lemma isInPlay_true (px py : R) :
  Rabs px <= HALF_WIDTH + D_STONE / 2 ->
  BACK_LINE - D_STONE / 2 <= py -> py <= HOG_LINE + D_STONE / 2 ->
  isInPlay px py = true.
Proof.
  intros H1 H2 H3. unfold isInPlay.
  now rewrite !ltb_false by assumption.
Qed.

Lemma Rabs_0_1 : Rabs 0 = 0 /\ Rabs 1 = 1.
Proof. split; apply Rabs_pos_eq; lra. Qed.

Lemma hypot_value (a b c : R) :
  0 <= c -> c * c = a * a + b * b -> JS.hypot a b = c.
Proof.
  intros Hc Hsq. unfold JS.hypot. apply sqrt_lem_1; try assumption.
  pose proof (Rle_0_sqr a). pose proof (Rle_0_sqr b). unfold Rsqr in *. lra.
Qed.

Lemma radialValue_one :
  radialValue 1 = 125 / 100 * (1 - Rpower (1 / R_HOUSE) GAMMA)
  /\ 0 < radialValue 1.
Proof.
  assert (Hq : 1 / R_HOUSE = 1000 / 1829) by (unfold R_HOUSE; field).
  assert (Hv : radialValue 1 = 125 / 100 * (1 - Rpower (1 / R_HOUSE) GAMMA)).
  { unfold radialValue. cbv zeta.
    rewrite ltb_false by (unfold R_HOUSE; lra).
    rewrite ltb_true by lra.
    unfold JS.pow. rewrite leb_false by (rewrite Hq; lra).
    unfold ALPHA1. ring. }
  split; [exact Hv |]. rewrite Hv.
  assert (Hp : Rpower (1 / R_HOUSE) GAMMA < 1).
  { assert (Hln : ln (1 / R_HOUSE) < ln 1)
      by (apply ln_increasing; rewrite Hq; lra).
    rewrite ln_1 in Hln.
    assert (He : exp (GAMMA * ln (1 / R_HOUSE)) < exp 0)
      by (apply exp_increasing; unfold GAMMA; lra).
    rewrite exp_0 in He. exact He. }
  lra.
Qed.

(** A stone half way between the stone at (0, 1) and the button guards
    it, whatever its tag. *)
Lemma guarded_from_half_way :
  hasLineOfSightBlocker 0 1 [(0, 1); (0, 1 / 2)] phiDeg_default = 1.
Proof.
  unfold hasLineOfSightBlocker. cbv zeta.
  assert (Hvr : JS.hypot (- (0)) (- (1)) = 1) by (apply hypot_value; lra).
  rewrite Hvr. rewrite ltb_false by (unfold eps6; lra).
  cbn [losLoop].
  assert (Hb1 : JS.hypot 0 1 = 1) by (apply hypot_value; lra).
  assert (Hb2 : JS.hypot 0 (1 / 2) = 1 / 2) by (apply hypot_value; lra).
  assert (Hw : JS.hypot (0 - 0) (1 / 2 - 1) = 1 / 2)
    by (apply hypot_value; lra).
  rewrite Hb1, Hb2, Hw.
  rewrite (ltb_false 1) by (unfold eps6; lra).
  rewrite (ltb_true (1 / 2)) by (unfold eps6; lra).
  cbn [negb].
  rewrite (ltb_false (1 / 2)) by (unfold eps6; lra).
  replace (((0 - 0) * (- (0) / 1) + (1 / 2 - 1) * (- (1) / 1)) / (1 / 2))
    with 1 by field.
  rewrite (Rmin_left 1 1) by lra. rewrite (Rmax_right (-1) 1) by lra.
  rewrite acos_1.
  replace (1 - 1 * 1) with 0 by ring.
  rewrite (Rmax_left 0 0) by lra. rewrite sqrt_0.
  rewrite leb_true by (unfold phiDeg_default; pose proof PI_RGT_0; nra).
  rewrite leb_true by (unfold D_STONE; lra).
  reflexivity.
Qed.

Lemma unguarded_alone :
  hasLineOfSightBlocker 0 1 [(0, 1)] phiDeg_default = 0.
Proof.
  unfold hasLineOfSightBlocker. cbv zeta.
  assert (Hvr : JS.hypot (- (0)) (- (1)) = 1) by (apply hypot_value; lra).
  rewrite Hvr. rewrite ltb_false by (unfold eps6; lra).
  cbn [losLoop].
  assert (Hb1 : JS.hypot 0 1 = 1) by (apply hypot_value; lra).
  rewrite Hb1. rewrite (ltb_false 1) by (unfold eps6; lra).
  reflexivity.
Qed.

(** The value of a lone red stone at (0, 1), given its guard flag. *)
Lemma entry_value_at_0_1 (allPos : list (R * R)) :
  let G := hasLineOfSightBlocker 0 1 allPos phiDeg_default in
  e_v (stoneEntry allPos [(0, 1)] (0, 1))
  = radialValue 1 * (1 + W_GUARD * G) * (1 + W_CENTER)
    * (1 - W_TAKEOUT * takeoutEase G).
Proof.
  intro G. unfold stoneEntry. cbv zeta.
  assert (Hr : hypot2 0 1 = 1) by (apply hypot_value; lra).
  rewrite Hr. destruct radialValue_one as [_ Hpos].
  rewrite leb_false by exact Hpos.
  fold G. cbn [e_v].
  unfold freezeFlag. cbn [existsb].
  rewrite !eqb_true by reflexivity. cbn [andb negb orb].
  unfold centerFactor. rewrite Rabs_R0, Rmin_left by lra.
  ring.
Qed.

Lemma applyDoubleVulnerability_single (e : Entry) (st : list EvalStone)
    (s : Z) (skill : R) :
  applyDoubleVulnerability [e] st s skill = [e].
Proof. reflexivity. Qed.

Lemma applyDoubleVulnerability_nil (st : list EvalStone) (s : Z) (skill : R) :
  applyDoubleVulnerability [] st s skill = [].
Proof. reflexivity. Qed.

(** The red score when the only red stone lies at (0, 1) and there is no
    yellow stone. *)
Lemma scoreRed_lone_red (rest : list EvalStone) (n : Z) (skill : R) :
  (forall s, In s rest ->
     st_team s <> "red"%string /\ st_team s <> "yellow"%string) ->
  let stones := ("red"%string, 0, 1) :: rest in
  scoreRed n "red" stones skill
  = baseHammer (16 - (n + 1)) "red" "red"
    + e_v (stoneEntry (positions stones) [(0, 1)] (0, 1)).
Proof.
  intros Hrest stones.
  assert (Hr : forall s, In s rest -> st_team s <> "red"%string)
    by (intros s Hs; apply (Hrest s Hs)).
  assert (Hy : forall s, In s stones -> st_team s <> "yellow"%string).
  { intros s [<- | Hs]; [discriminate | apply (Hrest s Hs)]. }
  assert (Hh : hypot2 0 1 = 1) by (apply hypot_value; lra).
  unfold scoreRed. cbv zeta.
  rewrite (computeTeamStoneValues_foreign stones "yellow" Hy).
  assert (Hred : computeTeamStoneValues "red" stones
                 = [stoneEntry (positions stones) [(0, 1)] (0, 1)]).
  { unfold computeTeamStoneValues. cbv zeta.
    assert (Ht : teamStones "red" stones = [("red"%string, 0, 1)]).
    { unfold stones, teamStones. cbn [filter st_team fst].
      change (String.eqb "red" "red") with true. cbv iota.
      fold (teamStones "red" rest).
      now rewrite (teamStones_foreign rest "red" Hr). }
    rewrite Ht. reflexivity. }
  rewrite Hred, applyDoubleVulnerability_single, applyDoubleVulnerability_nil.
  assert (Hcong : congestionTerm stones "red" (16 - (n + 1)) = 0).
  { unfold congestionTerm. cbv zeta.
    change (String.eqb "red" "red") with true. cbv iota.
    rewrite (countCenter_foreign stones "yellow" Hy).
    assert (Hc : countCenter "red" stones = O).
    { unfold countCenter, stones. cbn [filter st_team st_x st_y fst snd].
      rewrite Hh. rewrite (leb_true 1) by (unfold R_HOUSE; lra).
      change (String.eqb "red" "red") with true. cbn [andb negb].
      rewrite filter_none; [reflexivity |].
      intros s Hs. now rewrite (foreign_eqb rest "red" Hr s Hs). }
    rewrite Hc. simpl. ring. }
  rewrite Hcong. unfold positionalScore. simpl. ring.
Qed.

End EvalFacts.

(** ** Properties of the evaluator *)

Module EvalProps.
Import Spec Eval JSFacts EvalFacts.

(** C1.  For a valid call of [evaluatePosition17] (shot number in 0..15,
    hammer "red" or "yellow", at most 8 stones per team, skill in 10..90)
    the returned buckets have exactly the keys -8..8 and their 17
    probabilities sum to 1 within 1e-9. *)
Theorem buckets17_keys_and_total (n : Z) (h : string)
    (stones : list EvalStone) (skill : R) :
  valid_input n h stones skill ->
  JS.keys (buckets17 (evaluatePosition17 n h stones skill)) = kVals
  /\ Rabs (JS.sum (JS.values (buckets17 (evaluatePosition17 n h stones skill)))
           - 1) <= / 1000000000.
Proof.
  intros [_ _ Hred Hyel _].
  destruct (buckets17_distribution n h stones skill Hred Hyel) as [Hk ->].
  split; [exact Hk |].
  replace (1 - 1) with 0 by ring. rewrite Rabs_R0.
  left. apply Rinv_0_lt_compat. lra.
Qed.

Lemma buckets17_keys_and_total_witness :
  JS.keys (buckets17 (evaluatePosition17 0 "red" [] 50)) = kVals
  /\ Rabs (JS.sum (JS.values (buckets17 (evaluatePosition17 0 "red" [] 50)))
           - 1) <= / 1000000000.
Proof.
  apply (buckets17_keys_and_total 0 "red" [] 50).
  constructor; simpl; try lia; try lra. now left.
Defined.

(** C2, as amended.  At shot number 15, with at most 8 stones per team,
    the distribution is the point mass on the margin score: one bucket
    among -8..8 has probability 1 and the others 0; a team scores only if
    its closest stone in the house is nearer than the other team's closest
    by more than 1e-9, and then scores its stones that are nearer than that
    stone by more than 1e-9; the bucket is positive for the hammer team,
    negative otherwise, and 0 when neither team leads. *)
Theorem last_shot_point_mass (h : string) (stones : list EvalStone)
    (skill : R) :
  (List.length (teamStones "red" stones) <= 8)%nat ->
  (List.length (teamStones "yellow" stones) <= 8)%nat ->
  let b := buckets17 (evaluatePosition17 15 h stones skill) in
  let k := marginScore stones h in
  (-8 <= k <= 8)%Z
  /\ b = pointMass k
  /\ JS.keys b = kVals
  /\ JS.get b k = Some 1
  /\ forall j, In j kVals -> j <> k -> JS.get b j = Some 0.
Proof.
  intros Hred Hyel b k.
  pose proof (marginScore_range stones h Hred Hyel) as Hrange.
  assert (Hin : In k kVals) by now apply in_kVals.
  assert (Hb : b = pointMass k) by now apply last_shot_buckets.
  split; [exact Hrange |]. split; [exact Hb |]. rewrite Hb.
  split; [apply pointMass_keys |]. split.
  - rewrite (pointMass_get k k Hin). now rewrite Z.eqb_refl.
  - intros j Hj Hne. rewrite (pointMass_get k j Hj).
    destruct (Z.eqb_spec j k); [contradiction | reflexivity].
Qed.

Lemma last_shot_point_mass_witness :
  let b := buckets17 (evaluatePosition17 15 "red" [] 50) in
  let k := marginScore [] "red" in
  (-8 <= k <= 8)%Z
  /\ b = pointMass k
  /\ JS.keys b = kVals
  /\ JS.get b k = Some 1
  /\ forall j, In j kVals -> j <> k -> JS.get b j = Some 0.
Proof.
  apply (last_shot_point_mass "red" [] 50); simpl; lia.
Defined.

(** C3.  The two advantages returned by [evaluatePosition17] are exact
    negations of each other, for every input. *)
Theorem advantage_negation (n : Z) (h : string) (stones : list EvalStone)
    (skill : R) :
  red (advantage (evaluatePosition17 n h stones skill))
  = - yellow (advantage (evaluatePosition17 n h stones skill)).
Proof.
  cbv beta zeta iota delta [evaluatePosition17 advantage red yellow].
  now rewrite Ropp_involutive.
Qed.

(** C2, counterexample.  Red lies at distance 1 and yellow at distance
    1 + 5e-10: red owns the closest stone, so the documented computation
    gives bucket +1 to the hammer team red, while the source, which wants
    a lead of more than 1e-9, puts the whole mass on bucket 0. *)
Lemma last_shot_documented_bucket_differs :
  let stones := [("red"%string, 1, 0);
                 ("yellow"%string, 0, 1 + / 2000000000)] in
  let b := buckets17 (evaluatePosition17 15 "red" stones 50) in
  documentedTerminalBucket stones "red" = 1%Z
  /\ JS.get b (documentedTerminalBucket stones "red") = Some 0
  /\ JS.get b 0%Z = Some 1.
Proof.
  intros stones b.
  assert (Hh1 : hypot2 1 0 = 1) by (apply hypot_axis_x; lra).
  assert (Hh2 : hypot2 0 (1 + / 2000000000) = 1 + / 2000000000)
    by (apply hypot_axis_y; lra).
  destruct Rabs_0_1 as [Ha0 Ha1].
  assert (Hp1 : isInPlay 1 0 = true).
  { apply isInPlay_true; rewrite ?Ha1;
      unfold HALF_WIDTH, D_STONE, BACK_LINE, HOG_LINE; lra. }
  assert (Hp2 : isInPlay 0 (1 + / 2000000000) = true).
  { apply isInPlay_true; rewrite ?Ha0;
      unfold HALF_WIDTH, D_STONE, BACK_LINE, HOG_LINE; lra. }
  assert (Hdoc : documentedTerminalBucket stones "red" = 1%Z).
  { unfold documentedTerminalBucket, inHouseStones, stones.
    cbn [filter map st_x st_y st_team fst snd].
    rewrite Hp1, Hp2, Hh1, Hh2.
    rewrite !leb_true by (unfold R_HOUSE; lra).
    cbn [andb map byDistance fold_right insertByDistance snd st_x st_y
         st_team fst].
    rewrite Hh1, Hh2. rewrite leb_true by lra. reflexivity. }
  assert (Hb : b = pointMass 0).
  { unfold b.
    rewrite last_shot_buckets by (simpl; lia).
    f_equal. unfold marginScore, radii, stones.
    cbn [filter map st_x st_y st_team fst snd String.eqb Ascii.eqb Bool.eqb].
    rewrite Hp1, Hp2, Hh1, Hh2.
    rewrite !leb_true by (unfold R_HOUSE; lra).
    cbn [andb map minimum st_x st_y st_team fst snd].
    rewrite Hh1, Hh2. unfold eps9. now rewrite !ltb_false by lra. }
  rewrite Hdoc, Hb.
  split; [reflexivity |].
  split; now rewrite pointMass_get by (apply in_kVals; lia).
Qed.

(** C10, as amended.  [evaluatePosition17] never rejects a team tag.
    A stone whose tag is neither "red" nor "yellow" nor the hammer tag gets
    no positional entry and contributes nothing to the congestion term,
    the feasibility counts or the terminal collapse: these are unchanged
    when such stones are dropped.  So when every stone carries such a tag
    the result is the result for the empty stone list.  (What such a stone
    can still do is stand in the way as a blocker for the red and yellow
    stones of a mixed list; and a stone whose tag is the hammer tag counts
    in the congestion term.) *)
Theorem foreign_stones_contribute_nothing (n s : Z) (h : string)
    (stones : list EvalStone) (skill : R) :
  let kept := dropForeign h stones in
  List.length (computeTeamStoneValues "red" stones)
  = List.length (teamStones "red" kept)
  /\ List.length (computeTeamStoneValues "yellow" stones)
     = List.length (teamStones "yellow" kept)
  /\ congestionTerm stones h s = congestionTerm kept h s
  /\ inPlayCount "red" stones = inPlayCount "red" kept
  /\ inPlayCount "yellow" stones = inPlayCount "yellow" kept
  /\ collapseToTerminal stones h = collapseToTerminal kept h
  /\ (forall b, applyConstraints b stones h s n
                = applyConstraints b kept h s n)
  /\ (kept = [] ->
      evaluatePosition17 n h stones skill = evaluatePosition17 n h [] skill).
Proof.
  intro kept.
  assert (Hr : "red"%string = "red"%string \/ "red"%string = "yellow"%string
               \/ "red"%string = h) by now left.
  assert (Hy : "yellow"%string = "red"%string
               \/ "yellow"%string = "yellow"%string
               \/ "yellow"%string = h) by (right; now left).
  assert (Hh : h = "red"%string \/ h = "yellow"%string \/ h = h)
    by (right; now right).
  assert (Hcong : forall s0, congestionTerm stones h s0 = congestionTerm kept h s0).
  { intro s0. unfold congestionTerm, kept. cbv zeta.
    rewrite (countCenter_dropForeign h stones h Hh).
    destruct (String.eqb h "red").
    - now rewrite (countCenter_dropForeign h stones "yellow" Hy).
    - now rewrite (countCenter_dropForeign h stones "red" Hr). }
  assert (Hcol : collapseToTerminal stones h = collapseToTerminal kept h).
  { unfold collapseToTerminal, terminalScore, kept. cbv zeta.
    rewrite (houseRadii_dropForeign h stones "red" Hr).
    now rewrite (houseRadii_dropForeign h stones "yellow" Hy). }
  assert (Hcon : forall b, applyConstraints b stones h s n
                           = applyConstraints b kept h s n).
  { intro b. unfold applyConstraints. cbv zeta. rewrite Hcol. unfold kept.
    rewrite (inPlayCount_dropForeign h stones "red" Hr).
    now rewrite (inPlayCount_dropForeign h stones "yellow" Hy). }
  split; [| split; [| split; [| split; [| split; [| split; [| split]]]]]].
  - unfold computeTeamStoneValues, positions, kept. cbv zeta.
    rewrite !length_map. now rewrite (teamStones_dropForeign h stones "red" Hr).
  - unfold computeTeamStoneValues, positions, kept. cbv zeta.
    rewrite !length_map.
    now rewrite (teamStones_dropForeign h stones "yellow" Hy).
  - apply Hcong.
  - unfold kept. now rewrite (inPlayCount_dropForeign h stones "red" Hr).
  - unfold kept. now rewrite (inPlayCount_dropForeign h stones "yellow" Hy).
  - exact Hcol.
  - exact Hcon.
  - intro Hnone.
    assert (Hscore : scoreRed n h stones skill = scoreRed n h [] skill).
    { unfold scoreRed. cbv zeta. rewrite Hcong, Hnone.
      unfold computeTeamStoneValues. cbv zeta.
      rewrite <- (teamStones_dropForeign h stones "red" Hr).
      rewrite <- (teamStones_dropForeign h stones "yellow" Hy).
      fold kept. rewrite Hnone. reflexivity. }
    unfold evaluatePosition17. cbv zeta.
    rewrite Hscore. f_equal.
    clear Hcon. 
    unfold applyConstraints. cbv zeta. rewrite Hcol.
    rewrite <- (inPlayCount_dropForeign h stones "red" Hr).
    rewrite <- (inPlayCount_dropForeign h stones "yellow" Hy).
    fold kept. rewrite Hnone. reflexivity.
Qed.

Lemma foreign_stones_contribute_nothing_witness :
  evaluatePosition17 0 "red" [("A"%string, 0, 3); ("B"%string, 1, 1)] 50
  = evaluatePosition17 0 "red" [] 50.
Proof.
  apply (foreign_stones_contribute_nothing 0 15 "red"
           [("A"%string, 0, 3); ("B"%string, 1, 1)] 50).
  reflexivity.
Defined.

(** C10, counterexample.  With the hammer tag "A", as the game
    controller passes it, a stone tagged "A" in front of the house on the
    centre line enters the congestion term: the advantage is not that of
    the empty list. *)
Lemma foreign_hammer_stone_counts :
  evaluatePosition17 0 "A" [("A"%string, 0, 3)] 50
  <> evaluatePosition17 0 "A" [] 50.
Proof.
  intro H.
  apply (f_equal (fun r => red (advantage r))) in H.
  cbv beta zeta iota delta [evaluatePosition17 advantage red] in H.
  unfold scoreRed in H. cbv zeta in H.
  rewrite (computeTeamStoneValues_foreign [("A"%string, 0, 3)] "red") in H
    by (intros s [<- | []]; discriminate).
  rewrite (computeTeamStoneValues_foreign [("A"%string, 0, 3)] "yellow") in H
    by (intros s [<- | []]; discriminate).
  unfold congestionTerm, countCenter in H.
  cbn [filter st_team st_x st_y fst snd String.eqb Ascii.eqb Bool.eqb] in H.
  assert (Hh : hypot2 0 3 = 3) by (apply hypot_axis_y; lra).
  destruct Rabs_0_1 as [Ha0 _].
  rewrite Hh, Ha0 in H.
  rewrite leb_false in H by (unfold R_HOUSE; lra).
  rewrite leb_true in H by (unfold CENTER_BAND; lra).
  cbn in H.
  assert (Hs : 0 < sqrtRemaining 15).
  { unfold sqrtRemaining. apply sqrt_lt_R0.
    rewrite Rmax_left by lra. lra. }
  unfold W_CONG in H.
  replace (16 - 1)%Z with 15%Z in H by reflexivity.
  lra.
Qed.

(** A stone of a foreign tag is not without effect in a mixed list: put
    half way between a red stone and the button it guards the red stone,
    and the red advantage is larger than without it. *)
Lemma foreign_stone_still_guards :
  red (advantage (evaluatePosition17 0 "red" [("red"%string, 0, 1)] 50))
  < red (advantage
           (evaluatePosition17 0 "red"
              [("red"%string, 0, 1); ("A"%string, 0, 1 / 2)] 50)).
Proof.
  cbv beta zeta iota delta [evaluatePosition17 advantage red].
  assert (H1 := scoreRed_lone_red [] 0 50).
  assert (H2 := scoreRed_lone_red [("A"%string, 0, 1 / 2)] 0 50).
  cbv zeta in H1, H2.
  change (positions [("red"%string, 0, 1)]) with [(0, 1)] in H1.
  change (positions [("red"%string, 0, 1); ("A"%string, 0, 1 / 2)])
    with [(0, 1); (0, 1 / 2)] in H2.
  rewrite entry_value_at_0_1 in H1, H2. cbv zeta in H1, H2.
  rewrite unguarded_alone in H1. rewrite guarded_from_half_way in H2.
  refine (eq_ind_r (fun a => a < _) _ (H1 _)); [| intros s []].
  refine (eq_ind_r (fun a => _ < a) _ (H2 _));
    [| intros s [<- | []]; split; discriminate].
  destruct radialValue_one as [_ Hpos].
  unfold W_GUARD, W_CENTER, W_TAKEOUT, takeoutEase. nra.
Qed.

(** C6, as amended.  With shots remaining and the hammer "red" or
    "yellow", after the feasibility pass a bucket is zero exactly when its
    score is beyond the scoring team's own bound (its stones in play plus
    the stones it has yet to throw): buckets k > 0 against the hammer
    team's bound, buckets -k against the other team's.  Every other bucket
    stays positive: no further bound is applied, none from the opposing
    team's capacity to block.  The buckets sum to 1. *)
Theorem feasibility_pass (n : Z) (h : string) (stones : list EvalStone)
    (skill : R) :
  h = "red"%string \/ h = "yellow"%string -> (n < 15)%Z ->
  let b := buckets17 (evaluatePosition17 n h stones skill) in
  (forall j, (-8 <= j <= 8)%Z ->
     exists v, JS.get b j = Some v /\ 0 <= v
       /\ (v = 0 <->
           (1 <= j /\ ownBound h stones n h < j)%Z
           \/ (j <= -1 /\ ownBound (otherTeam h) stones n h < - j)%Z))
  /\ JS.sum (JS.values b) = 1.
Proof.
  intros Hh Hn b.
  destruct (buckets_before_last_shot n h stones skill) as [b0 [_ [Hpos [Hwf Hb]]]];
    [lia |].
  fold b in Hb.
  pose proof (well_formed_sum_pos _ Hwf) as HZ.
  split.
  - intros j Hj. rewrite Hb, divideAll_get, (constrained_get _ _ _ _ _ Hh).
    destruct (Hpos j) as [v0 [Hv0 Hv0pos]]; [now apply in_kVals |].
    replace ((-8 <=? j)%Z && (j <=? 8)%Z) with true
      by (symmetry; apply andb_true_iff; split; apply Z.leb_le; lia).
    destruct (((1 <=? j)%Z && (ownBound h stones n h <? j)%Z)
              || ((j <=? -1)%Z
                  && (ownBound (otherTeam h) stones n h <? - j)%Z)) eqn:E.
    + exists (0 / JS.sum (JS.values (constrained b0 stones h n))).
      split; [reflexivity |].
      assert (Hz : 0 / JS.sum (JS.values (constrained b0 stones h n)) = 0)
        by (unfold Rdiv; ring).
      rewrite Hz. split; [lra |]. split; [intros _ | reflexivity].
      apply orb_true_iff in E.
      destruct E as [E | E]; apply andb_true_iff in E; destruct E as [E1 E2];
        apply Z.leb_le in E1; apply Z.ltb_lt in E2; [left | right]; lia.
    + exists (v0 / JS.sum (JS.values (constrained b0 stones h n))).
      rewrite Hv0. split; [reflexivity |].
      assert (Hq : 0 < v0 / JS.sum (JS.values (constrained b0 stones h n)))
        by now apply Rdiv_lt_0_compat.
      split; [lra |]. split; [lra |].
      intro Hex. exfalso.
      apply orb_false_iff in E. destruct E as [E1 E2].
      apply andb_false_iff in E1. apply andb_false_iff in E2.
      destruct Hex as [[Ha Hb'] | [Ha Hb']].
      * destruct E1 as [E1 | E1];
          [apply Z.leb_gt in E1 | apply Z.ltb_ge in E1]; lia.
      * destruct E2 as [E2 | E2];
          [apply Z.leb_gt in E2 | apply Z.ltb_ge in E2]; lia.
  - rewrite Hb. apply divideAll_sum; [lra | reflexivity].
Qed.

Lemma feasibility_pass_witness :
  let b := buckets17 (evaluatePosition17 0 "red" [] 50) in
  (forall j, (-8 <= j <= 8)%Z ->
     exists v, JS.get b j = Some v /\ 0 <= v
       /\ (v = 0 <->
           (1 <= j /\ ownBound "red" [] 0 "red" < j)%Z
           \/ (j <= -1 /\ ownBound (otherTeam "red") [] 0 "red" < - j)%Z))
  /\ JS.sum (JS.values b) = 1.
Proof.
  apply (feasibility_pass 0 "red" [] 50); [now left | lia].
Defined.

(** C6, counterexample.  With one shot remaining, no stone in play and
    the hammer tag "A" (the tag the game controller passes), the hammer
    team can count at most its one remaining stone, yet bucket 8 keeps a
    positive probability: the loops compare the hammer tag with "red" and
    "yellow" only. *)
Lemma foreign_hammer_no_feasibility :
  let b := buckets17 (evaluatePosition17 14 "A" [] 50) in
  ownBound "A" [] 14 "A" = 1%Z
  /\ exists v, JS.get b 8%Z = Some v /\ 0 < v.
Proof.
  intro b. split; [reflexivity |].
  destruct (buckets_before_last_shot 14 "A" [] 50) as [b0 [_ [Hpos [Hwf Hb]]]];
    [lia |].
  fold b in Hb.
  pose proof (well_formed_sum_pos _ Hwf) as HZ.
  destruct (Hpos 8%Z) as [v0 [Hv0 Hv0pos]]; [apply in_kVals; lia |].
  assert (Hid : constrained b0 [] "A" 14 = b0) by reflexivity.
  rewrite Hid in Hb, HZ.
  exists (v0 / JS.sum (JS.values b0)). split.
  - now rewrite Hb, divideAll_get, Hv0.
  - now apply Rdiv_lt_0_compat.
Qed.

End EvalProps.

(** ** The physics *)

Module SimFacts.
Import Spec Sim JSFacts.

(** *** Collisions *)

Lemma resolveCollision_separating (stone1 stone2 : Stone) (params : Params) :
  0 < normalVelocity stone1 stone2 ->
  resolveCollision stone1 stone2 params = (stone1, stone2).
Proof.
  intro H. unfold resolveCollision. cbv zeta.
  unfold normalVelocity in H. cbv zeta in H.
  now rewrite ltb_true by exact H.
Qed.

Lemma resolveCollision_closing (stone1 stone2 : Stone) (params : Params) :
  normalVelocity stone1 stone2 <= 0 ->
  let dx := s_x stone2 - s_x stone1 in
  let dy := s_y stone2 - s_y stone1 in
  let d := sqrt (dx * dx + dy * dy) in
  let nx := dx / d in
  let ny := dy / d in
  let j := - (1 + restitution params) * normalVelocity stone1 stone2 / 2 in
  let overlap := 2 * R_ params - d in
  let vx1 := s_vx stone1 - j * nx in
  let vy1 := s_vy stone1 - j * ny in
  let vx2 := s_vx stone2 + j * nx in
  let vy2 := s_vy stone2 + j * ny in
  resolveCollision stone1 stone2 params
  = (mkStone (id stone1) (team stone1)
       (s_x stone1 - overlap * nx / 2) (s_y stone1 - overlap * ny / 2)
       vx1 vy1 (s_w stone1 + 5 / 10 * (nx * vy1 - ny * vx1))
       (s_t stone1) (inPlay stone1),
     mkStone (id stone2) (team stone2)
       (s_x stone2 + overlap * nx / 2) (s_y stone2 + overlap * ny / 2)
       vx2 vy2 (s_w stone2 + 5 / 10 * (nx * vy2 - ny * vx2))
       (s_t stone2) (inPlay stone2)).
Proof.
  intro H. cbv zeta. unfold resolveCollision. cbv zeta.
  unfold normalVelocity in *. cbv zeta in H.
  now rewrite ltb_false by exact H.
Qed.

Lemma distance_sq (a b : Stone) :
  distance a b * distance a b
  = (s_x b - s_x a) * (s_x b - s_x a) + (s_y b - s_y a) * (s_y b - s_y a).
Proof.
  unfold distance. cbv zeta. apply sqrt_sqrt.
  pose proof (Rle_0_sqr (s_x b - s_x a)) as H1.
  pose proof (Rle_0_sqr (s_y b - s_y a)) as H2.
  unfold Rsqr in *. lra.
Qed.

(** After the position adjustment the centres are one diameter apart. *)
Lemma separated_after_resolution (stone1 stone2 : Stone) (params : Params) :
  0 < distance stone1 stone2 -> distance stone1 stone2 < 2 * R_ params ->
  normalVelocity stone1 stone2 <= 0 ->
  distance (fst (resolveCollision stone1 stone2 params))
           (snd (resolveCollision stone1 stone2 params))
  = 2 * R_ params.
Proof.
  intros Hpos Hlt Hclosing.
  rewrite (resolveCollision_closing stone1 stone2 params Hclosing).
  cbv zeta. simpl fst. simpl snd.
  pose proof (distance_sq stone1 stone2) as Hsq.
  unfold distance in *. cbv zeta in *. simpl s_x. simpl s_y.
  set (dx := s_x stone2 - s_x stone1) in *.
  set (dy := s_y stone2 - s_y stone1) in *.
  set (d := sqrt (dx * dx + dy * dy)) in *.
  apply sqrt_lem_1.
  - apply Rplus_le_le_0_compat; apply Rle_0_sqr.
  - lra.
  - assert (Hd : d <> 0) by lra.
    replace (s_x stone2 + (2 * R_ params - d) * (dx / d) / 2
             - (s_x stone1 - (2 * R_ params - d) * (dx / d) / 2))
      with (dx * (2 * R_ params / d)) by (unfold dx; field; exact Hd).
    replace (s_y stone2 + (2 * R_ params - d) * (dy / d) / 2
             - (s_y stone1 - (2 * R_ params - d) * (dy / d) / 2))
      with (dy * (2 * R_ params / d)) by (unfold dy; field; exact Hd).
    replace (dx * (2 * R_ params / d) * (dx * (2 * R_ params / d))
             + dy * (2 * R_ params / d) * (dy * (2 * R_ params / d)))
      with ((dx * dx + dy * dy) * ((2 * R_ params / d) * (2 * R_ params / d)))
      by ring.
    rewrite <- Hsq. field. exact Hd.
Qed.

Lemma distance_on_axis (a b : Stone) :
  s_y a = s_y b -> s_x a <= s_x b -> distance a b = s_x b - s_x a.
Proof.
  intros Hy Hx. unfold distance. cbv zeta. rewrite Hy.
  replace ((s_x b - s_x a) * (s_x b - s_x a) + (s_y b - s_y b) * (s_y b - s_y b))
    with ((s_x b - s_x a) * (s_x b - s_x a)) by ring.
  apply sqrt_square. lra.
Qed.

(** The collision pass on a list of two stones resolves the pair once,
    when both stones are in play and their centres are less than 2R
    apart. *)
Lemma detectCollisions_pair (a b : Stone) (params : Params) :
  detectCollisions [a; b] params
  = if inPlay a && inPlay b && (distance a b <? 2 * R_ params)
    then [fst (resolveCollision a b params); snd (resolveCollision a b params)]
    else [a; b].
Proof.
  unfold detectCollisions.
  change (seq 0 (List.length [a; b])) with [0%nat; 1%nat].
  cbn [fold_left]. unfold collideRow at 2. cbn [nth_error].
  destruct (inPlay a); cbn [negb andb].
  - change (seq 1 (List.length [a; b] - 1)) with [1%nat].
    cbn [fold_left]. unfold collidePair. cbn [nth_error].
    destruct (inPlay b) eqn:Hb; cbn [negb andb].
    + destruct (distance a b <? 2 * R_ params).
      * destruct (resolveCollision a b params) as [a' b'] eqn:Hr.
        cbn [Eval.set_nth fst snd].
        unfold collideRow. cbn [nth_error].
        destruct (inPlay b'); reflexivity.
      * unfold collideRow. cbn [nth_error]. rewrite Hb. reflexivity.
    + unfold collideRow. cbn [nth_error]. rewrite Hb. reflexivity.
  - unfold collideRow. cbn [nth_error].
    destruct (inPlay b); reflexivity.
Qed.

(** *** Integration *)

Lemma integrate_semi_implicit (p : Params) (s : State) :
  semi_implicit p s (integrate p s).
Proof. unfold semi_implicit, integrate. cbv zeta. simpl. tauto. Qed.

Lemma linked_snoc (p : Params) (tr : list State) (s d : State) :
  linked p tr -> last tr d = s -> tr <> [] ->
  linked p (tr ++ [integrate p s]).
Proof.
  induction tr as [| a rest IH]; intros Hl Hlast Hne.
  - congruence.
  - destruct rest as [| b rest'].
    + simpl in *. subst a. split; [reflexivity | exact I].
    + destruct Hl as [Hb Hrest].
      change ((a :: b :: rest') ++ [integrate p s])
        with (a :: (b :: rest') ++ [integrate p s]).
      change (linked p (a :: (b :: rest') ++ [integrate p s]))
        with (b = integrate p a /\ linked p ((b :: rest') ++ [integrate p s])).
      split; [exact Hb |].
      apply IH; [exact Hrest | exact Hlast | discriminate].
Qed.

Lemma last_snoc {A : Type} (l : list A) (a d : A) : last (l ++ [a]) d = a.
Proof. apply last_last. Qed.

Lemma stoneLoop_linked (p : Params) (n : nat) (s : State) (tr : list State) :
  linked p tr -> last tr s = s -> tr <> [] ->
  linked p (snd (stoneLoop p n s tr)).
Proof.
  revert s tr. induction n as [| n' IH]; intros s tr Hl Hlast Hne; simpl.
  - exact Hl.
  - destruct (stopped p s); simpl.
    + exact Hl.
    + apply IH.
      * now apply (linked_snoc p tr s s).
      * apply last_snoc.
      * intro E. now apply app_eq_nil in E.
Qed.

Lemma drawLoop_linked (p : Params) (sd : SheetDimensions) (n : nat)
    (s : State) (tr : list State) :
  linked p tr -> last tr s = s -> tr <> [] ->
  linked p (snd (fst (drawLoop p sd n s tr))).
Proof.
  revert s tr. induction n as [| n' IH]; intros s tr Hl Hlast Hne; simpl.
  - exact Hl.
  - destruct (stopped p s); simpl.
    + exact Hl.
    + destruct (offSheet sd _ _); simpl.
      * now apply (linked_snoc p tr s s).
      * apply IH.
        -- now apply (linked_snoc p tr s s).
        -- apply last_snoc.
        -- intro E. now apply app_eq_nil in E.
Qed.

Lemma drawResult_traj (sd : SheetDimensions) (r : State * list State * bool) :
  traj (drawResult sd r) = snd (fst r).
Proof. destruct r as [[s tr] b]. reflexivity. Qed.

Lemma produced_linked (p : Params) (tr : list State) :
  produced p tr -> linked p tr.
Proof.
  intros [stone stone' duration cc tr0 H
         | Vmag omegaMag turnStr startPt broomPt sd r H].
  - unfold simulateStone in H. cbv zeta in H.
    destruct (stepBound duration (dt p)) as [n |].
    + pose proof (stoneLoop_linked p n (toState stone) [toState stone]) as Hl.
      destruct (stoneLoop p n (toState stone) [toState stone]) as [s' tr1].
      injection H as <- _. apply Hl; simpl; auto; discriminate.
    + destruct (stopped p (toState stone)); [| discriminate].
      injection H as <- _. exact I.
  - unfold simulateDraw in H. cbv zeta in H.
    destruct (stepBound (tMax p) (dt p)) as [n |].
    + injection H as <-. rewrite drawResult_traj.
      apply drawLoop_linked; simpl; auto; discriminate.
    + destruct (stopped p _).
      * injection H as <-. exact I.
      * destruct (offSheet sd _ _); [| discriminate].
        injection H as <-. simpl. split; [reflexivity | exact I].
Qed.

Lemma linked_nth (p : Params) (tr : list State) (i : nat) (s s' : State) :
  linked p tr -> nth_error tr i = Some s -> nth_error tr (S i) = Some s' ->
  s' = integrate p s.
Proof.
  revert i. induction tr as [| a rest IH]; intros i Hl Hi Hi'.
  - destruct i; discriminate.
  - destruct rest as [| b rest'].
    + destruct i; simpl in Hi'; [discriminate | destruct i; discriminate].
    + destruct Hl as [Hb Hrest]. destruct i as [| i'].
      * simpl in Hi, Hi'. congruence.
      * apply (IH i' Hrest); assumption.
Qed.

Lemma stoneLoop_one (p : Params) (s : State) (tr : list State) :
  stopped p s = false ->
  stoneLoop p 1 s tr = (integrate p s, tr ++ [integrate p s]).
Proof. intro H. simpl. now rewrite H. Qed.

Lemma stepBound_one (step : R) : step <> 0 -> stepBound step step = Some 1%nat.
Proof.
  intro H. unfold stepBound. rewrite eqb_false by exact H.
  replace (step / step) with (IZR 1) by (field; exact H).
  unfold JS.floor. now rewrite ZfloorZ.
Qed.

Lemma stepBound_zero : stepBound 0 0 = Some O.
Proof.
  unfold stepBound. rewrite eqb_true by reflexivity.
  now rewrite ltb_false by lra.
Qed.

(** *** The time loop *)

Lemma fromState_toState (st : Stone) : fromState st (toState st) = st.
Proof. destruct st. reflexivity. Qed.

Lemma simulateStone_tick_returns (p : Params) (stone : Stone) (cc : bool) :
  dt p <> 0 -> exists r, simulateStone stone p (dt p) cc = Some r.
Proof.
  intro H. unfold simulateStone. cbv zeta. rewrite (stepBound_one _ H).
  destruct (stoneLoop p 1 (toState stone) [toState stone]) as [s' tr].
  now eexists.
Qed.

Lemma simulateStone_zero_step (p : Params) (stone : Stone) (cc : bool) :
  dt p = 0 ->
  simulateStone stone p (dt p) cc = Some ([toState stone], stone).
Proof.
  intro H. unfold simulateStone. cbv zeta. rewrite H, stepBound_zero.
  simpl. now rewrite fromState_toState.
Qed.

Lemma moveStones_returns (p : Params) (sd : SheetDimensions)
    (stones : list Stone) (tr : Trajectories) :
  dt p <> 0 -> exists r, moveStones p sd stones tr = Some r.
Proof.
  intro H. revert tr. induction stones as [| st rest IH]; intro tr; simpl.
  - now eexists.
  - destruct (inPlay st); simpl.
    + destruct (simulateStone_tick_returns p st false H) as [[stepTraj st1] ->].
      match goal with
      | |- context [moveStones p sd rest ?t] => destruct (IH t) as [[r1 r2] ->]
      end.
      now eexists.
    + destruct (IH tr) as [[r1 r2] ->]. now eexists.
Qed.

Lemma moveStones_zero_step (p : Params) (sd : SheetDimensions)
    (stones : list Stone) (tr : Trajectories) :
  dt p = 0 -> allOnSheet sd stones ->
  exists tr', moveStones p sd stones tr = Some (stones, tr').
Proof.
  intros H. revert tr. induction stones as [| st rest IH]; intros tr Hon; simpl.
  - now eexists.
  - assert (Hrest : allOnSheet sd rest).
    { intros s Hs. apply Hon. now right. }
    destruct (inPlay st) eqn:Hin; simpl.
    + rewrite (simulateStone_zero_step p st false H).
      rewrite (Hon st (or_introl eq_refl) Hin).
      match goal with
      | |- context [moveStones p sd rest ?t] =>
          destruct (IH t Hrest) as [tr' ->]
      end.
      now eexists.
    + destruct (IH tr Hrest) as [tr' ->]. now eexists.
Qed.

Lemma fold_left_fixed {A B : Type} (f : A -> B -> A) (l : list B) (a : A) :
  (forall b, In b l -> f a b = a) -> fold_left f l a = a.
Proof.
  induction l as [| b tl IH]; intro H; simpl.
  - reflexivity.
  - rewrite (H b) by now left. apply IH. intros b0 Hb0. apply H. now right.
Qed.

Lemma detectCollisions_noOverlap (p : Params) (stones : list Stone) :
  noOverlap p stones -> detectCollisions stones p = stones.
Proof.
  intro Hno. unfold detectCollisions. apply fold_left_fixed.
  intros i _. unfold collideRow.
  destruct (nth_error stones i) as [si |] eqn:Hi; [| reflexivity].
  destruct (inPlay si) eqn:Hpi; simpl; [| reflexivity].
  apply fold_left_fixed. intros j Hj. apply in_seq in Hj.
  unfold collidePair. rewrite Hi.
  destruct (nth_error stones j) as [sj |] eqn:Hjn; [| reflexivity].
  destruct (inPlay sj) eqn:Hpj; simpl; [| reflexivity].
  rewrite ltb_false; [reflexivity |].
  apply (Hno i j si sj); auto. lia.
Qed.

(** With a zero time step nothing moves and the clock stands still. *)
Lemma timeLoop_zero_step (p : Params) (sd : SheetDimensions) (duration : R)
    (stones : list Stone) :
  dt p = 0 -> allStopped p stones = false ->
  allOnSheet sd stones -> noOverlap p stones ->
  forall fuel time tr ticks,
    time < duration ->
    timeLoop fuel p sd duration time stones tr ticks = None.
Proof.
  intros Hdt Hmoving Hon Hno.
  induction fuel as [| fuel' IH]; intros time tr ticks Htime; simpl;
    rewrite (ltb_true _ _ Htime), Hmoving; simpl.
  - reflexivity.
  - destruct (moveStones_zero_step p sd stones tr Hdt Hon) as [tr' ->].
    rewrite (detectCollisions_noOverlap p stones Hno).
    apply IH. rewrite Hdt. lra.
Qed.

(** With a positive time step the clock reaches [duration]. *)
Lemma timeLoop_terminates (p : Params) (sd : SheetDimensions) (duration : R) :
  0 < dt p ->
  forall fuel m time stones tr ticks,
    duration - time <= INR m * dt p -> (m <= fuel)%nat ->
    exists r, timeLoop fuel p sd duration time stones tr ticks = Some r
              /\ (run_ticks r <= ticks + m)%nat.
Proof.
  intro Hdt.
  induction fuel as [| fuel' IH]; intros m time stones tr ticks Hm Hfuel.
  - assert (m = O) by lia. subst m. simpl in Hm. simpl.
    rewrite ltb_false by lra. simpl. eexists. split; [reflexivity |].
    simpl. lia.
  - simpl. destruct (time <? duration) eqn:Ht; simpl.
    + destruct (allStopped p stones).
      * eexists. split; [reflexivity |]. simpl. lia.
      * apply ltb_spec in Ht.
        destruct m as [| m'].
        { simpl in Hm. lra. }
        destruct (moveStones_returns p sd stones tr) as [[st1 tr1] ->];
          [lra |].
        destruct (IH m' (time + dt p) (detectCollisions st1 p) tr1 (S ticks))
          as [r [Hr Hticks]].
        -- rewrite S_INR in Hm. lra.
        -- lia.
        -- exists r. split; [exact Hr | lia].
    + eexists. split; [reflexivity |]. simpl. lia.
Qed.


Lemma timeLoop_done (fuel : nat) (p : Params) (sd : SheetDimensions)
    (duration time : R) (stones : list Stone) (tr : Trajectories)
    (ticks : nat) :
  duration <= time ->
  timeLoop fuel p sd duration time stones tr ticks
  = Some (mkRun tr stones ticks).
Proof.
  intro H. destruct fuel; simpl; now rewrite ltb_false by exact H.
Qed.


(** *** Sample data *)

Lemma sample_stopped (step px : R) :
  stopped (sampleParams step) (toState (sampleStone px 1)) = false.
Proof.
  unfold stopped. simpl. rewrite hypot_axis_x by lra.
  now rewrite ltb_false by lra.
Qed.

Lemma sample_moving (step px : R) (rest : list Stone) :
  allStopped (sampleParams step) (sampleStone px 1 :: rest) = false.
Proof.
  unfold allStopped.
  change (forallb _ (sampleStone px 1 :: rest))
    with ((negb true || stopped (sampleParams step) (toState (sampleStone px 1)))
          && forallb (fun st => negb (inPlay st)
                                || stopped (sampleParams step) (toState st))
               rest).
  now rewrite sample_stopped.
Qed.

Lemma sample_on_sheet (px : R) :
  0 <= px <= 30 -> offSheet sampleSheet px 0 = false.
Proof.
  intro H. unfold offSheet. simpl.
  rewrite Rabs_R0. now rewrite !ltb_false by lra.
Qed.

End SimFacts.

(** ** Properties of the physics *)

Module SimProps.
Import Spec Sim JSFacts SimFacts.

(** C4, as amended.  For every parameter set and every pair of stones
    with distinct centres less than 2R apart: if the pair is not separating
    (relative velocity along the line of centres not positive),
    [resolveCollision] leaves the centres exactly 2R apart; if the pair is
    separating, it leaves both stones as they are: no impulse, and no
    position adjustment either. *)
Theorem collision_resolution (params : Params) (stone1 stone2 : Stone) :
  0 < distance stone1 stone2 ->
  distance stone1 stone2 < 2 * R_ params ->
  let r := resolveCollision stone1 stone2 params in
  (normalVelocity stone1 stone2 <= 0 ->
     distance (fst r) (snd r) = 2 * R_ params)
  /\ (0 < normalVelocity stone1 stone2 -> r = (stone1, stone2)).
Proof.
  intros Hpos Hlt r. split.
  - intro Hc. now apply separated_after_resolution.
  - intro Hs. now apply resolveCollision_separating.
Qed.

Lemma sample_distance (vx1 vx2 : R) :
  distance (sampleStone 0 vx1) (sampleStone (1 / 5) vx2) = 1 / 5.
Proof.
  rewrite distance_on_axis; simpl; lra.
Qed.

Lemma sample_normalVelocity (vx1 vx2 : R) :
  normalVelocity (sampleStone 0 vx1) (sampleStone (1 / 5) vx2) = vx2 - vx1.
Proof.
  pose proof (sample_distance vx1 vx2) as Hd.
  unfold normalVelocity, distance in *. cbv zeta in *. simpl in *.
  rewrite Hd. field.
Qed.

Lemma collision_resolution_witness :
  let params := sampleParams (1 / 100) in
  let stone1 := sampleStone 0 1 in
  let stone2 := sampleStone (1 / 5) 0 in
  let r := resolveCollision stone1 stone2 params in
  (normalVelocity stone1 stone2 <= 0 ->
     distance (fst r) (snd r) = 2 * R_ params)
  /\ (0 < normalVelocity stone1 stone2 -> r = (stone1, stone2)).
Proof.
  intros params stone1 stone2.
  apply (collision_resolution params stone1 stone2).
  - unfold stone1, stone2. rewrite sample_distance. lra.
  - unfold stone1, stone2. rewrite sample_distance. simpl. lra.
Defined.

(** C4, counterexample.  Two stones 0.2 m apart (2R = 0.29 m) that move
    away from each other: [resolveCollision] returns at once, and the
    centres are still 0.2 m apart after it. *)
Lemma separating_pair_stays_overlapped :
  let params := sampleParams (1 / 100) in
  let stone1 := sampleStone 0 (-1) in
  let stone2 := sampleStone (1 / 5) 1 in
  let r := resolveCollision stone1 stone2 params in
  distance stone1 stone2 < 2 * R_ params
  /\ distance (fst r) (snd r) < 2 * R_ params - 8 / 100.
Proof.
  intros params stone1 stone2 r.
  assert (Hr : r = (stone1, stone2)).
  { apply resolveCollision_separating. unfold stone1, stone2.
    rewrite sample_normalVelocity. lra. }
  rewrite Hr. simpl fst. simpl snd. unfold stone1, stone2.
  rewrite sample_distance. simpl. lra.
Qed.


(** C7.  In every trajectory returned by [simulateStone] or
    [simulateDraw], each state after the first is a semi-implicit Euler
    step from the state before it: the velocities are updated from the
    accelerations at the old state, v' = v + dt a and w' = w + dt (tau/I),
    and the position is advanced with the updated velocities,
    x' = x + dt vx' and y' = y + dt vy'. *)
Theorem integration_is_semi_implicit (p : Params) (tr : list State)
    (i : nat) (s s' : State) :
  produced p tr ->
  nth_error tr i = Some s -> nth_error tr (S i) = Some s' ->
  semi_implicit p s s'.
Proof.
  intros Hp Hi Hi'.
  rewrite (linked_nth p tr i s s' (produced_linked p tr Hp) Hi Hi').
  apply integrate_semi_implicit.
Qed.

Lemma integration_is_semi_implicit_witness :
  let p := sampleParams (1 / 100) in
  let s := toState (sampleStone 1 1) in
  semi_implicit p s (integrate p s).
Proof.
  intros p s.
  apply (integration_is_semi_implicit p [s; integrate p s] 0 s (integrate p s)).
  - apply (produced_by_simulateStone p (sampleStone 1 1)
             (fromState (sampleStone 1 1) (integrate p s)) (1 / 100) false).
    unfold simulateStone. cbv zeta.
    change (dt p) with (1 / 100).
    rewrite stepBound_one by lra.
    fold s. rewrite (stoneLoop_one p s [s]) by apply sample_stopped.
    reflexivity.
  - reflexivity.
  - reflexivity.
Defined.




(** C5, as amended.  Neither entry point validates its input, and
    neither raises an error.  [evaluatePosition17] returns its usual kind
    of result, buckets with the keys -8..8 that sum to 1, whatever the
    team labels, the hammer label, the shot number and the skill (given at
    most 8 red and 8 yellow stones).  [simulateAll] accepts dt = 0: with a
    positive duration the call never returns as long as some stone in play
    is moving (the stones being on the sheet and not overlapping), since
    no tick changes anything, the clock included. *)
Theorem malformed_input_is_accepted :
  (forall (n : Z) (h : string) (stones : list Eval.EvalStone) (skill : R),
     (List.length (Eval.teamStones "red" stones) <= 8)%nat ->
     (List.length (Eval.teamStones "yellow" stones) <= 8)%nat ->
     let b := Eval.buckets17 (Eval.evaluatePosition17 n h stones skill) in
     JS.keys b = Eval.kVals /\ JS.sum (JS.values b) = 1)
  /\ (forall (p : Params) (duration : R) (stones : list Stone)
             (sd : SheetDimensions),
        dt p = 0 -> 0 < duration -> allStopped p stones = false ->
        allOnSheet sd stones -> noOverlap p stones ->
        neverReturns p duration stones sd).
Proof.
  split.
  - intros n h stones skill Hred Hyel b.
    now apply EvalFacts.buckets17_distribution.
  - intros p duration stones sd Hdt Hdur Hmoving Hon Hno fuel.
    unfold simulateAll. cbv zeta. now apply timeLoop_zero_step.
Qed.

Lemma malformed_input_is_accepted_witness :
  (let b := Eval.buckets17
              (Eval.evaluatePosition17 0 "blue"
                 [("green"%string, 0, 0); ("red"%string, 1, 1)] 0) in
   JS.keys b = Eval.kVals /\ JS.sum (JS.values b) = 1)
  /\ neverReturns (sampleParams 0) 1 [sampleStone 1 1; sampleStone 5 0]
       sampleSheet.
Proof.
  destruct malformed_input_is_accepted as [Heval Hsim]. split.
  - apply (Heval 0%Z "blue"%string
             [("green"%string, 0, 0); ("red"%string, 1, 1)] 0); simpl; lia.
  - apply (Hsim (sampleParams 0) 1 [sampleStone 1 1; sampleStone 5 0]
             sampleSheet).
    + reflexivity.
    + lra.
    + apply sample_moving.
    + intros st [<- | [<- | []]] _; apply sample_on_sheet; simpl; lra.
    + intros i j si sj Hi Hj Hij _ _.
      destruct i as [| i'].
      * destruct j as [| [| j']]; [lia | | destruct j'; discriminate].
        injection Hi as <-. injection Hj as <-.
        rewrite distance_on_axis; simpl; lra.
      * destruct j as [| [| j']]; [lia | | destruct j'; discriminate].
        destruct i' as [| i'']; [lia | destruct i''; discriminate].
Defined.

(** C5, counterexample.  A zero time step is accepted: for a single
    moving stone and a duration of one second the time loop never ends,
    and no error is raised. *)
Lemma zero_time_step_loops_forever :
  neverReturns (sampleParams 0) 1 [sampleStone 2 1] sampleSheet.
Proof.
  intro fuel. unfold simulateAll. cbv zeta.
  apply timeLoop_zero_step.
  - reflexivity.
  - apply sample_moving.
  - intros st [<- | []] _. apply sample_on_sheet. simpl. lra.
  - intros i j si sj Hi Hj Hij _ _.
    destruct i as [| i'].
    + destruct j as [| j']; [lia | destruct j'; discriminate].
    + destruct i'; discriminate.
  - lra.
Qed.

End SimProps.

(** ** Further properties of the evaluator *)

Module EvalMore.
Import Spec Notions Eval JSFacts EvalFacts.

(** *** Softmax *)

Lemma fold_Rmax_shift (l : list R) (a c : R) :
  fold_left Rmax (map (fun v => v + c) l) (a + c) = fold_left Rmax l a + c.
Proof.
  revert a. induction l as [| h tl IH]; intro a; simpl.
  - reflexivity.
  - replace (Rmax (a + c) (h + c)) with (Rmax a h + c).
    + apply IH.
    + unfold Rmax. destruct (Rle_dec a h), (Rle_dec (a + c) (h + c));
        try reflexivity; lra.
Qed.

Lemma max_list_shift (l : list R) (c : R) :
  l <> [] -> JS.max_list (map (fun v => v + c) l) = JS.max_list l + c.
Proof.
  destruct l as [| h tl]; [congruence |]. intros _. simpl.
  apply fold_Rmax_shift.
Qed.

(** X1.  Adding one constant to every entry of the array does not change the
    result of [softmax1D]. *)
Theorem softmax1D_shift (arr : list R) (c : R) :
  softmax1D (map (fun v => v + c) arr) = softmax1D arr.
Proof.
  destruct arr as [| h tl]; [reflexivity |].
  unfold softmax1D. cbv zeta.
  rewrite max_list_shift by discriminate.
  set (m0 := JS.max_list (h :: tl)).
  assert (He : map (fun v => exp (v - (m0 + c))) (map (fun v => v + c) (h :: tl))
               = map (fun v => exp (v - m0)) (h :: tl)).
  { rewrite map_map. apply map_ext. intro a. f_equal. ring. }
  now rewrite He.
Qed.

(** *** Radial value *)

Lemma Rpower_lt_1 (a b : R) : 0 < a < 1 -> 0 < b -> 0 < Rpower a b < 1.
Proof.
  intros [Ha0 Ha1] Hb. split; [apply exp_pos |].
  assert (Hln : ln a < ln 1) by (apply ln_increasing; lra).
  rewrite ln_1 in Hln.
  assert (He : exp (b * ln a) < exp 0) by (apply exp_increasing; nra).
  rewrite exp_0 in He. exact He.
Qed.

Lemma pow_unit_interval (a : R) :
  0 <= a <= 1 ->
  0 <= JS.pow a GAMMA <= 1 /\ (a < 1 -> JS.pow a GAMMA < 1)
  /\ (a = 1 -> JS.pow a GAMMA = 1).
Proof.
  intros [H0 H1]. unfold JS.pow, JS.leb.
  destruct (Rle_dec a 0) as [Hle | Hgt].
  - split; [lra |]. split; intros; lra.
  - destruct (Req_dec_T a 1) as [-> | Hne].
    + assert (E : Rpower 1 GAMMA = 1).
      { unfold Rpower. rewrite ln_1, Rmult_0_r. apply exp_0. }
      rewrite E. split; [lra |]. split; intros; lra.
    + assert (Hlt1 : a < 1) by (destruct H1 as [Hl | He]; [exact Hl | contradiction]).
      assert (Hpos : 0 < a) by (apply Rnot_le_lt; exact Hgt).
      destruct (Rpower_lt_1 a GAMMA) as [Hp0 Hp1];
        [lra | unfold GAMMA; lra |].
      split; [lra |]. split; intros; lra.
Qed.

Lemma radialValue_bounds (r : R) :
  0 <= r ->
  0 <= radialValue r <= 125 / 100
  /\ (R_HOUSE <= r <-> radialValue r = 0).
Proof.
  intro Hr. unfold radialValue. cbv zeta.
  destruct (Rlt_dec R_HOUSE r) as [Hout | Hin].
  - rewrite (ltb_true _ _ Hout).
    split; [lra |]. split; intros; [reflexivity | lra].
  - rewrite (ltb_false R_HOUSE r) by lra.
    assert (HRH : 0 < R_HOUSE) by (unfold R_HOUSE; lra).
    assert (Hq : 0 <= r / R_HOUSE <= 1).
    { split.
      - apply Rmult_le_pos; [exact Hr | left; now apply Rinv_0_lt_compat].
      - apply (Rmult_le_reg_r R_HOUSE); [exact HRH |].
        unfold Rdiv. rewrite Rmult_assoc, Rinv_l by lra. lra. }
    destruct (pow_unit_interval (r / R_HOUSE) Hq) as [[Hp0 Hp1] [Hlt Heq]].
    assert (Hboost : 9 / 10 <= (if r <? 13 / 10 then 125 / 100 else 9 / 10)
                     <= 125 / 100).
    { destruct (r <? 13 / 10); lra. }
    unfold ALPHA1. split; [nra |]. split.
    + intro Hge. assert (r = R_HOUSE) by lra. subst r.
      rewrite Heq by (field; lra). ring.
    + intro Hz. destruct (Rle_lt_dec R_HOUSE r) as [Hge | Hlt']; [exact Hge |].
      exfalso.
      assert (Hq1 : r / R_HOUSE < 1).
      { apply (Rmult_lt_reg_r R_HOUSE); [exact HRH |].
        unfold Rdiv. rewrite Rmult_assoc, Rinv_l by lra. lra. }
      specialize (Hlt Hq1). nra.
Qed.

(** X2.  For a distance [r >= 0] to the button, [radialValue r] lies
    between 0 and 1.25, and it is 0 exactly when [r >= R_HOUSE]. *)
Theorem radialValue_range (r : R) :
  0 <= r ->
  0 <= radialValue r <= 125 / 100
  /\ (R_HOUSE <= r <-> radialValue r = 0).
Proof. apply radialValue_bounds. Qed.

Lemma radialValue_range_witness :
  0 <= radialValue 2 <= 125 / 100
  /\ (R_HOUSE <= 2 <-> radialValue 2 = 0).
Proof. apply (radialValue_range 2). lra. Defined.

(** *** In play *)

Lemma Rabs_le_hypot (a b : R) : Rabs a <= JS.hypot a b /\ Rabs b <= JS.hypot a b.
Proof.
  unfold JS.hypot. split.
  - rewrite <- sqrt_Rsqr_abs. apply sqrt_le_1_alt. unfold Rsqr.
    pose proof (Rle_0_sqr b) as H. unfold Rsqr in H. lra.
  - rewrite <- sqrt_Rsqr_abs. apply sqrt_le_1_alt. unfold Rsqr.
    pose proof (Rle_0_sqr a) as H. unfold Rsqr in H. lra.
Qed.

(** X3.  A stone whose centre is within [R_HOUSE] of the button is in
    play. *)
Theorem house_is_in_play (px py : R) :
  hypot2 px py <= R_HOUSE -> isInPlay px py = true.
Proof.
  intro H. destruct (Rabs_le_hypot px py) as [Hx Hy]. fold (hypot2 px py) in *.
  apply isInPlay_true.
  - unfold HALF_WIDTH, D_STONE, R_HOUSE in *. lra.
  - unfold BACK_LINE, D_STONE, R_HOUSE in *.
    pose proof (Rabs_def2 py py) as _. 
    destruct (Rcase_abs py) as [Hn | Hp].
    + rewrite (Rabs_left py Hn) in Hy. lra.
    + lra.
  - unfold HOG_LINE, D_STONE, R_HOUSE in *.
    pose proof (Rle_abs py). lra.
Qed.

Lemma house_is_in_play_witness : isInPlay 0 1 = true.
Proof.
  apply (house_is_in_play 0 1).
  unfold hypot2. rewrite hypot_axis_y by lra. unfold R_HOUSE. lra.
Defined.

(** *** Line of sight *)

Lemma losLoop_binary (px py ux uy vr phi : R) (blockers : list (R * R)) :
  losLoop px py ux uy vr phi blockers = 0
  \/ losLoop px py ux uy vr phi blockers = 1.
Proof.
  induction blockers as [| [bx by_] rest IH]; simpl.
  - now left.
  - destruct (negb _); [exact IH |].
    destruct (_ <? eps6); [now right |].
    destruct (_ && _); [now right | exact IH].
Qed.

Lemma losLoop_far (px py ux uy vr phi : R) (blockers : list (R * R)) :
  (forall b, In b blockers -> vr - eps6 <= JS.hypot (fst b) (snd b)) ->
  losLoop px py ux uy vr phi blockers = 0.
Proof.
  induction blockers as [| [bx by_] rest IH]; intro H; simpl.
  - reflexivity.
  - rewrite ltb_false by (apply (H (bx, by_)); now left).
    simpl. apply IH. intros b Hb. apply H. now right.
Qed.

(** X4.  [hasLineOfSightBlocker] returns 0 or 1.  It returns 1 for a stone
    within 1e-6 of the button, and 0 for any other stone when no blocker is
    more than 1e-6 nearer to the button than the stone. *)
Theorem lineOfSight_binary_and_far (px py phiDeg : R)
    (blockers : list (R * R)) :
  (hasLineOfSightBlocker px py blockers phiDeg = 0
   \/ hasLineOfSightBlocker px py blockers phiDeg = 1)
  /\ (eps6 <= hypot2 px py ->
      (forall b, In b blockers ->
         hypot2 px py - eps6 <= hypot2 (fst b) (snd b)) ->
      hasLineOfSightBlocker px py blockers phiDeg = 0)
  /\ (hypot2 px py < eps6 -> hasLineOfSightBlocker px py blockers phiDeg = 1).
Proof.
  assert (Hv : JS.hypot (- px) (- py) = hypot2 px py).
  { unfold hypot2, JS.hypot. f_equal. ring. }
  unfold hasLineOfSightBlocker. cbv zeta. rewrite Hv.
  split; [| split].
  - destruct (_ <? eps6); [now right | apply losLoop_binary].
  - intros Hfar Hb. rewrite ltb_false by exact Hfar. now apply losLoop_far.
  - intro Hnear. now rewrite ltb_true.
Qed.

(** *** Entries *)

Lemma hasLOS_binary (px py : R) (blockers : list (R * R)) :
  hasLineOfSightBlocker px py blockers phiDeg_default = 0
  \/ hasLineOfSightBlocker px py blockers phiDeg_default = 1.
Proof.
  unfold hasLineOfSightBlocker. cbv zeta.
  destruct (_ <? eps6); [now right | apply losLoop_binary].
Qed.

Lemma freezeFlag_binary (px py r : R) (teamPos : list (R * R)) :
  freezeFlag px py r teamPos = 0 \/ freezeFlag px py r teamPos = 1.
Proof. unfold freezeFlag. destruct (existsb _ _); [now right | now left]. Qed.

Lemma centerFactor_range (px : R) : 0 <= centerFactor px <= 1.
Proof.
  unfold centerFactor. pose proof (Rabs_pos px) as Ha.
  unfold Rmin. destruct (Rle_dec (Rabs px) 1); lra.
Qed.

Lemma entry_value_bound (v c G F : R) :
  0 < v <= 125 / 100 -> 0 <= c <= 1 -> G = 0 \/ G = 1 -> F = 0 \/ F = 1 ->
  0 < v * (1 + W_GUARD * G) * (1 + W_CENTER * c) * (1 + W_FREEZE * F)
      * (1 - W_TAKEOUT * takeoutEase G) <= 3458 / 1000.
Proof.
  intros Hv Hc HG HF.
  unfold W_GUARD, W_CENTER, W_FREEZE, W_TAKEOUT, takeoutEase.
  assert (Ha : 0 < v * (1 + 30 / 100 * c) <= 125 / 100 * (13 / 10)) by nra.
  destruct HG as [-> | ->], HF as [-> | ->].
  - replace (v * (1 + 60 / 100 * 0) * (1 + 30 / 100 * c) * (1 + 40 / 100 * 0)
             * (1 - 50 / 100 * (1 - 9 / 10 * 0)))
      with (v * (1 + 30 / 100 * c) * (5 / 10)) by field. lra.
  - replace (v * (1 + 60 / 100 * 0) * (1 + 30 / 100 * c) * (1 + 40 / 100 * 1)
             * (1 - 50 / 100 * (1 - 9 / 10 * 0)))
      with (v * (1 + 30 / 100 * c) * (7 / 10)) by field. lra.
  - replace (v * (1 + 60 / 100 * 1) * (1 + 30 / 100 * c) * (1 + 40 / 100 * 0)
             * (1 - 50 / 100 * (1 - 9 / 10 * 1)))
      with (v * (1 + 30 / 100 * c) * (152 / 100)) by field. lra.
  - replace (v * (1 + 60 / 100 * 1) * (1 + 30 / 100 * c) * (1 + 40 / 100 * 1)
             * (1 - 50 / 100 * (1 - 9 / 10 * 1)))
      with (v * (1 + 30 / 100 * c) * (2128 / 1000)) by field. lra.
Qed.

Lemma stoneEntry_fresh (allPos teamPos : list (R * R)) (p : R * R) :
  freshEntry (stoneEntry allPos teamPos p)
  /\ e_x (stoneEntry allPos teamPos p) = fst p
  /\ e_y (stoneEntry allPos teamPos p) = snd p.
Proof.
  destruct p as [px py]. unfold stoneEntry. cbv zeta.
  set (r := hypot2 px py).
  assert (Hr : 0 <= r) by apply sqrt_pos.
  destruct (radialValue_bounds r Hr) as [[Hv0 Hv1] Hz].
  destruct (Rle_dec (radialValue r) 0) as [Hle | Hgt].
  - rewrite leb_true by exact Hle.
    assert (Hzero : radialValue r = 0) by lra.
    unfold freshEntry. cbn.
    repeat split; try lra; try (now left); try (fold r; tauto).
    unfold takeoutEase. lra.
  - rewrite leb_false by lra.
    assert (Hpos : 0 < radialValue r) by lra.
    set (G := hasLineOfSightBlocker px py allPos phiDeg_default).
    set (F := freezeFlag px py r teamPos).
    pose proof (centerFactor_range px) as [Hc0 Hc1].
    assert (HG : G = 0 \/ G = 1) by apply hasLOS_binary.
    assert (HF : F = 0 \/ F = 1) by apply freezeFlag_binary.
    set (c := centerFactor px) in *.
    set (v := radialValue r) in *.
    assert (Hbound :
      0 < v * (1 + W_GUARD * G) * (1 + W_CENTER * c) * (1 + W_FREEZE * F)
          * (1 - W_TAKEOUT * takeoutEase G) <= 3458 / 1000)
      by (apply entry_value_bound; auto; lra).
    unfold freshEntry. cbn. fold r.
    repeat split; try reflexivity; try tauto; try lra.
Qed.

Lemma computeTeamStoneValues_fresh (team : string) (stones : list EvalStone) :
  Forall freshEntry (computeTeamStoneValues team stones).
Proof.
  unfold computeTeamStoneValues. cbv zeta.
  apply Forall_forall. intros e He. apply in_map_iff in He.
  destruct He as [p [<- _]]. apply stoneEntry_fresh.
Qed.

(** X5.  [computeTeamStoneValues] returns one entry per stone of the team,
    in order and at the stone's position.  In each entry [r] is the
    distance to the button, [G] is 0 or 1, [T] is [takeoutEase G], [pre]
    equals [v], [acc] is 0, [0 <= v <= 3.458], and [v] is 0 exactly when
    [r >= R_HOUSE]. *)
Theorem computeTeamStoneValues_entries (team : string)
    (stones : list EvalStone) :
  map (fun e => (e_x e, e_y e)) (computeTeamStoneValues team stones)
  = positions (teamStones team stones)
  /\ Forall freshEntry (computeTeamStoneValues team stones).
Proof.
  split; [| apply computeTeamStoneValues_fresh].
  unfold computeTeamStoneValues. cbv zeta.
  set (tp := positions (teamStones team stones)).
  set (allPos := positions stones).
  rewrite map_map. transitivity (map (fun p : R * R => p) tp);
    [| apply map_id].
  apply map_ext. intros p.
  destruct (stoneEntry_fresh allPos tp p) as [_ [-> ->]].
  now destruct p.
Qed.

(** *** Double-takeout pass *)

Lemma set_nth_length {A : Type} (l : list A) (i : nat) (a : A) :
  List.length (set_nth l i a) = List.length l.
Proof.
  revert i. induction l as [| h tl IH]; intros [| i']; simpl; auto.
Qed.

Lemma set_nth_Forall {A : Type} (P : A -> Prop) (l : list A) (i : nat) (a : A) :
  Forall P l -> P a -> Forall P (set_nth l i a).
Proof.
  intros Hl Ha. revert i. induction Hl as [| h tl Hh Htl IH]; intros [| i'];
    simpl; constructor; auto.
Qed.

Lemma map_set_nth {A B : Type} (f : A -> B) (l : list A) (i : nat) (a : A) :
  nth_error (map f l) i = Some (f a) -> map f (set_nth l i a) = map f l.
Proof.
  revert i. induction l as [| h tl IH]; intros [| i'] H; simpl in *;
    try discriminate.
  - injection H as H. now rewrite H.
  - f_equal. now apply IH.
Qed.

Lemma dblPair_keeps (beta : R) (others : list (R * R)) (ei ej : Entry) :
  withinCap ei -> withinCap ej ->
  withinCap (fst (dblPair beta others ei ej))
  /\ withinCap (snd (dblPair beta others ei ej))
  /\ frame (fst (dblPair beta others ei ej)) = frame ei
  /\ frame (snd (dblPair beta others ei ej)) = frame ej.
Proof.
  intros Hi Hj.
  assert (Hsame : withinCap ei /\ withinCap ej
                  /\ frame ei = frame ei /\ frame ej = frame ej) by auto.
  unfold dblPair. cbv zeta.
  destruct (_ || _); [exact Hsame |].
  destruct (_ || _); [exact Hsame |].
  match goal with
  | |- context [1 / (1 + exp ?a)] => set (Pdbl := 1 / (1 + exp a))
  end.
  assert (HP : 0 < Pdbl).
  { unfold Pdbl. apply Rdiv_lt_0_compat; [lra |].
    match goal with |- 0 < 1 + exp ?a => pose proof (exp_pos a) end. lra. }
  set (Mi := Rmax (e_v ei) 0). set (Mj := Rmax (e_v ej) 0).
  assert (HMi : 0 <= Mi) by apply Rmax_r.
  assert (HMj : 0 <= Mj) by apply Rmax_r.
  destruct (Rle_dec (Mi + Mj) 0) as [Hle | Hgt].
  - rewrite leb_true by exact Hle. exact Hsame.
  - rewrite leb_false by lra. clear Hsame.
    assert (HM : 0 < Mi + Mj) by lra.
    set (delta := DBL_LAMBDA * Pdbl * (Mi + Mj)).
    assert (Hdelta : 0 <= delta).
    { unfold delta, DBL_LAMBDA. apply Rmult_le_pos; [| lra].
      apply Rmult_le_pos; lra. }
    assert (Hshare : forall m0, 0 <= m0 -> 0 <= delta * (m0 / (Mi + Mj))).
    { intros m0 Hm. apply Rmult_le_pos; [exact Hdelta |].
      apply Rmult_le_pos; [exact Hm | left; now apply Rinv_0_lt_compat]. }
    destruct Hi as [Hpi [[Hai0 Hai1] Hvi]], Hj as [Hpj [[Haj0 Haj1] Hvj]].
    set (di := Rmin (delta * (Mi / (Mi + Mj)))
                    (Rmax 0 (DBL_CAP_RHO * e_pre ei - e_acc ei))).
    set (dj := Rmin (delta * (Mj / (Mi + Mj)))
                    (Rmax 0 (DBL_CAP_RHO * e_pre ej - e_acc ej))).
    assert (Hdi : 0 <= di <= DBL_CAP_RHO * e_pre ei - e_acc ei).
    { unfold di. rewrite (Rmax_right 0 (DBL_CAP_RHO * e_pre ei - e_acc ei)) by lra.
      split.
      - apply Rmin_glb; [now apply Hshare | lra].
      - apply Rmin_r. }
    assert (Hdj : 0 <= dj <= DBL_CAP_RHO * e_pre ej - e_acc ej).
    { unfold dj. rewrite (Rmax_right 0 (DBL_CAP_RHO * e_pre ej - e_acc ej)) by lra.
      split.
      - apply Rmin_glb; [now apply Hshare | lra].
      - apply Rmin_r. }
    simpl fst. simpl snd. unfold withinCap, frame. simpl.
    unfold DBL_CAP_RHO in *.
    rewrite (Rmax_right 0 (e_v ei - di)) by lra.
    rewrite (Rmax_right 0 (e_v ej - dj)) by lra.
    repeat split; try lra; reflexivity.
Qed.

Lemma dblStep_keeps (beta : R) (others : list (R * R)) (i j : nat)
    (es : list Entry) :
  Forall withinCap es ->
  Forall withinCap (dblStep beta others i es j)
  /\ map frame (dblStep beta others i es j) = map frame es.
Proof.
  intro Hall. unfold dblStep.
  destruct (nth_error es i) as [ei |] eqn:Hi; [| auto].
  destruct (nth_error es j) as [ej |] eqn:Hj; [| auto].
  assert (Hwi : withinCap ei).
  { rewrite Forall_forall in Hall. apply Hall. eapply nth_error_In; eauto. }
  assert (Hwj : withinCap ej).
  { rewrite Forall_forall in Hall. apply Hall. eapply nth_error_In; eauto. }
  destruct (dblPair_keeps beta others ei ej Hwi Hwj) as [Hi' [Hj' [Hfi Hfj]]].
  destruct (dblPair beta others ei ej) as [ei' ej']. simpl in *.
  assert (Hm1 : map frame (set_nth es i ei') = map frame es).
  { apply map_set_nth. rewrite nth_error_map, Hi. simpl. now rewrite Hfi. }
  split.
  - apply set_nth_Forall; [apply set_nth_Forall |]; assumption.
  - rewrite map_set_nth; [exact Hm1 |].
    rewrite Hm1, nth_error_map, Hj. simpl. now rewrite Hfj.
Qed.

Lemma applyDoubleVulnerability_keeps (es : list Entry)
    (stones : list EvalStone) (s : Z) (skill : R) :
  Forall withinCap es ->
  Forall withinCap (applyDoubleVulnerability es stones s skill)
  /\ map frame (applyDoubleVulnerability es stones s skill) = map frame es.
Proof.
  intro Hall. unfold applyDoubleVulnerability. cbv zeta.
  destruct (List.length es <? 2)%nat; [auto |].
  apply (fold_left_preserves
           (fun l => Forall withinCap l /\ map frame l = map frame es));
    [| auto].
  intros l i _ Hl.
  apply (fold_left_preserves
           (fun l0 => Forall withinCap l0 /\ map frame l0 = map frame es));
    [| exact Hl].
  intros l0 j _ [Hw Hf].
  match goal with
  | |- context [dblStep ?b ?o i l0 j] =>
      destruct (dblStep_keeps b o i j l0 Hw) as [Hw' Hf']
  end.
  split; [exact Hw' | now rewrite Hf'].
Qed.

Lemma freshEntry_withinCap (e : Entry) : freshEntry e -> withinCap e.
Proof.
  intros [_ [_ [_ [Hpre [Hacc [[Hv0 _] _]]]]]]. unfold withinCap, DBL_CAP_RHO.
  rewrite Hpre, Hacc. repeat split; lra.
Qed.

(** X6.  [applyDoubleVulnerability], applied to the entries that
    [computeTeamStoneValues] returns, leaves [x], [y], [r], [G], [T] and
    [pre] of every entry as they are, and leaves every value [v] between
    [0.4 * pre] and [pre], with [acc = pre - v]. *)
Theorem doubleVulnerability_is_capped (team : string)
    (stones allStones : list EvalStone) (s : Z) (skill : R) :
  let before := computeTeamStoneValues team stones in
  let after := applyDoubleVulnerability before allStones s skill in
  map frame after = map frame before
  /\ Forall (fun e => (4 / 10) * e_pre e <= e_v e <= e_pre e
                      /\ e_acc e = e_pre e - e_v e) after.
Proof.
  intros before after.
  assert (Hw : Forall withinCap before).
  { eapply Forall_impl; [apply freshEntry_withinCap |].
    apply computeTeamStoneValues_fresh. }
  destruct (applyDoubleVulnerability_keeps before allStones s skill Hw)
    as [Hall Hframe].
  split; [exact Hframe |].
  eapply Forall_impl; [| exact Hall].
  intros e [Hp [[Ha0 Ha1] Hv]]. unfold DBL_CAP_RHO in *. repeat split; lra.
Qed.

(** X7.  [countThrown n hammerTeam] splits [n + 1] stones between the two
    teams: the counts sum to [n + 1], the team without the hammer has
    thrown as many stones as the hammer team or one more, and for [n] in
    0..15 both counts are in 0..8. *)
Theorem countThrown_splits (n : Z) (h : string) :
  let th := countThrown n h in
  (th_red th + th_yellow th = n + 1)%Z
  /\ (thrownBy h th <= thrownBy (otherTeam h) th <= thrownBy h th + 1)%Z
  /\ ((0 <= n <= 15)%Z -> (0 <= th_red th <= 8 /\ 0 <= th_yellow th <= 8)%Z).
Proof.
  intro th. unfold th, countThrown, thrownBy, otherTeam. cbv zeta.
  pose proof (Z.div_mod (n + 1) 2) as Hd.
  pose proof (Z.mod_pos_bound (n + 1) 2) as Hm.
  pose proof (Z.div_mod (n + 1 + 1) 2) as Hd'.
  pose proof (Z.mod_pos_bound (n + 1 + 1) 2) as Hm'.
  destruct (String.eqb h "red") eqn:E; simpl.
  - change (String.eqb "yellow" "red") with false. cbv iota. lia.
  - change (String.eqb "red" "red") with true. cbv iota. lia.
Qed.

(** X8.  [distribution17_fromScore] returns an object with exactly the
    keys -8..8, in which every value is positive and the values sum to 1. *)
Theorem distribution17_is_positive (sc : R) (s : Z) (skill : R) :
  let b := distribution17_fromScore sc s skill in
  JS.keys b = kVals
  /\ (forall k, (-8 <= k <= 8)%Z -> exists v, JS.get b k = Some v /\ 0 < v)
  /\ JS.sum (JS.values b) = 1.
Proof.
  intro b. split; [apply distribution_well_formed |]. split.
  - intros k Hk. apply distribution_get_pos. now apply in_kVals.
  - unfold b.
    destruct (distribution_is_combine sc s skill) as [probs [-> [Hlen [_ Hsum]]]].
    rewrite sum_values.
    assert (E : map snd (combine kVals probs) = probs).
    { clear Hsum. rewrite kVals_eq.
      do 17 (destruct probs as [| ? probs]; [discriminate |]).
      destruct probs; [reflexivity | discriminate]. }
    now rewrite E.
Qed.

(** X9.  The terminal score computed by [collapseToTerminal] with yellow
    holding the hammer is the negation of the one with red holding it; and
    when no stone is within [R_HOUSE] of the button, [collapseToTerminal]
    puts all the mass on bucket 0. *)
Theorem terminalScore_changes_sign_with_hammer (stones : list EvalStone) :
  terminalScore stones "yellow" = (- terminalScore stones "red")%Z
  /\ ((forall s, In s stones -> R_HOUSE < hypot2 (st_x s) (st_y s)) ->
      forall h, collapseToTerminal stones h = pointMass 0).
Proof.
  split.
  - unfold terminalScore. cbv zeta.
    change (String.eqb "yellow" "red") with false.
    change (String.eqb "red" "red") with true.
    change (String.eqb "red" "yellow") with false.
    change (String.eqb "yellow" "yellow") with true.
    destruct (leads _ _); [reflexivity |].
    destruct (leads _ _); [lia | reflexivity].
  - intros Hout h.
    assert (Hr : forall team, houseRadii team stones = []).
    { intro team. unfold houseRadii. rewrite filter_none; [reflexivity |].
      intros s Hs. rewrite (leb_false _ _ (Hout s Hs)).
      now rewrite andb_false_r. }
    assert (Ht : terminalScore stones h = 0%Z).
    { unfold terminalScore. cbv zeta. now rewrite !Hr. }
    rewrite collapse_pointMass; rewrite Ht; [reflexivity |].
    apply in_kVals. lia.
Qed.


Lemma positions_swapColours (stones : list EvalStone) :
  positions (swapColours stones) = positions stones.
Proof. unfold positions, swapColours. rewrite map_map. reflexivity. Qed.

Lemma eqb_swapTeam (x t : string) :
  t = "red"%string \/ t = "yellow"%string ->
  String.eqb (swapTeam x) (swapTeam t) = String.eqb x t.
Proof.
  intro Ht. unfold swapTeam at 1.
  destruct (String.eqb_spec x "red") as [-> | Hr].
  - destruct Ht as [-> | ->]; reflexivity.
  - destruct (String.eqb_spec x "yellow") as [-> | Hy].
    + destruct Ht as [-> | ->]; reflexivity.
    + destruct Ht as [-> | ->]; cbn.
      * destruct (String.eqb_spec x "yellow"); [contradiction |].
        destruct (String.eqb_spec x "red"); [contradiction | reflexivity].
      * destruct (String.eqb_spec x "red"); [contradiction |].
        destruct (String.eqb_spec x "yellow"); [contradiction | reflexivity].
Qed.

Lemma filter_swapColours (f : R -> R -> bool) (t : string)
    (stones : list EvalStone) :
  t = "red"%string \/ t = "yellow"%string ->
  filter (fun s => String.eqb (st_team s) (swapTeam t) && f (st_x s) (st_y s))
    (swapColours stones)
  = swapColours
      (filter (fun s => String.eqb (st_team s) t && f (st_x s) (st_y s))
         stones).
Proof.
  intro Ht. induction stones as [| [[tm px] py] tl IH]; simpl.
  - reflexivity.
  - unfold st_team, st_x, st_y in *. simpl.
    rewrite (eqb_swapTeam tm t Ht).
    destruct (String.eqb tm t && f px py); simpl; now rewrite IH.
Qed.

Lemma teamStones_swapColours (t : string) (stones : list EvalStone) :
  t = "red"%string \/ t = "yellow"%string ->
  teamStones (swapTeam t) (swapColours stones)
  = swapColours (teamStones t stones).
Proof.
  intro Ht. unfold teamStones.
  pose proof (filter_swapColours (fun _ _ => true) t stones Ht) as H.
  erewrite filter_ext in H; [erewrite H |].
  - apply f_equal. apply filter_ext. intro s. apply andb_true_r.
  - intro s. simpl. apply andb_true_r.
Qed.

Lemma computeTeamStoneValues_swapColours (t : string)
    (stones : list EvalStone) :
  t = "red"%string \/ t = "yellow"%string ->
  computeTeamStoneValues (swapTeam t) (swapColours stones)
  = computeTeamStoneValues t stones.
Proof.
  intro Ht. unfold computeTeamStoneValues. cbv zeta.
  now rewrite (teamStones_swapColours t stones Ht), !positions_swapColours.
Qed.

Lemma applyDoubleVulnerability_swapColours (es : list Entry)
    (stones : list EvalStone) (s : Z) (skill : R) :
  applyDoubleVulnerability es (swapColours stones) s skill
  = applyDoubleVulnerability es stones s skill.
Proof.
  unfold applyDoubleVulnerability. cbv zeta.
  now rewrite positions_swapColours.
Qed.

Lemma countCenter_swapColours (t : string) (stones : list EvalStone) :
  t = "red"%string \/ t = "yellow"%string ->
  countCenter (swapTeam t) (swapColours stones) = countCenter t stones.
Proof.
  intro Ht. unfold countCenter.
  induction stones as [| [[tm px] py] tl IH]; simpl.
  - reflexivity.
  - unfold st_team, st_x, st_y in *. simpl.
    rewrite (eqb_swapTeam tm t Ht).
    destruct (String.eqb tm t && _ && _); simpl; now rewrite IH.
Qed.

(** X10.  For a hammer team red or yellow, exchanging the colours of all
    stones and of the hammer negates red's advantage, except for the
    congestion term, which keeps its sign: the new [advantage.red] is
    [- advantage.red + 2 * congestionTerm stones hammerTeam (15 - n)]. *)
Theorem colour_exchange (n : Z) (h : string) (stones : list EvalStone)
    (skill : R) :
  h = "red"%string \/ h = "yellow"%string ->
  red (advantage
         (evaluatePosition17 n (swapTeam h) (swapColours stones) skill))
  = - red (advantage (evaluatePosition17 n h stones skill))
    + 2 * congestionTerm stones h (15 - n).
Proof.
  intro Hh.
  cbv beta zeta iota delta [evaluatePosition17 advantage red].
  unfold scoreRed. cbv zeta.
  replace (16 - (n + 1))%Z with (15 - n)%Z by lia.
  assert (Hred : computeTeamStoneValues "red" (swapColours stones)
                 = computeTeamStoneValues "yellow" stones).
  { apply (computeTeamStoneValues_swapColours "yellow"). now right. }
  assert (Hyel : computeTeamStoneValues "yellow" (swapColours stones)
                 = computeTeamStoneValues "red" stones).
  { apply (computeTeamStoneValues_swapColours "red"). now left. }
  rewrite Hred, Hyel, !applyDoubleVulnerability_swapColours.
  assert (Hcong : congestionTerm (swapColours stones) (swapTeam h) (15 - n)
                  = congestionTerm stones h (15 - n)).
  { assert (H1 : countCenter "red" (swapColours stones)
                 = countCenter "yellow" stones)
      by (apply (countCenter_swapColours "yellow"); now right).
    assert (H2 : countCenter "yellow" (swapColours stones)
                 = countCenter "red" stones)
      by (apply (countCenter_swapColours "red"); now left).
    unfold congestionTerm. cbv zeta.
    destruct Hh as [-> | ->].
    - change (swapTeam "red") with "yellow"%string.
      change (String.eqb "yellow" "red") with false.
      change (String.eqb "red" "red") with true. cbv iota.
      now rewrite H1, H2.
    - change (swapTeam "yellow") with "red"%string.
      change (String.eqb "yellow" "red") with false.
      change (String.eqb "red" "red") with true. cbv iota.
      now rewrite H1, H2. }
  rewrite Hcong.
  assert (Hbase : baseHammer (15 - n) "red" (swapTeam h)
                  = - baseHammer (15 - n) "red" h).
  { unfold baseHammer. destruct Hh as [-> | ->]; cbn; ring. }
  rewrite Hbase. ring.
Qed.

Lemma colour_exchange_witness :
  red (advantage
         (evaluatePosition17 3 (swapTeam "red")
            (swapColours [("red"%string, 0, 3); ("yellow"%string, 1, 0)]) 50))
  = - red (advantage
             (evaluatePosition17 3 "red"
                [("red"%string, 0, 3); ("yellow"%string, 1, 0)] 50))
    + 2 * congestionTerm [("red"%string, 0, 3); ("yellow"%string, 1, 0)]
            "red" (15 - 3).
Proof. apply colour_exchange. now left. Defined.

End EvalMore.

(** ** Further properties of the physics *)

Module SimMore.
Import Spec Notions Sim JSFacts SimFacts.

(** *** unit *)

(** X11.  For [eps > 0], [unit vx vy eps] returns a length [s >= eps].
    When the vector is at least [eps] long, [s] is its length and
    [(ux, uy)] is the vector divided by it, of length 1; when it is
    shorter, the result is the zero vector with [s = eps]. *)
Theorem unit_is_unit (vx vy eps : R) :
  0 < eps ->
  let u := unit vx vy eps in
  eps <= u_s u
  /\ (eps <= JS.hypot vx vy ->
      u_s u = JS.hypot vx vy
      /\ ux u * ux u + uy u * uy u = 1
      /\ ux u * u_s u = vx /\ uy u * u_s u = vy)
  /\ (JS.hypot vx vy < eps -> ux u = 0 /\ uy u = 0 /\ u_s u = eps).
Proof.
  intros Heps u. unfold u, unit. cbv zeta.
  destruct (Rlt_dec (JS.hypot vx vy) eps) as [Hlt | Hge].
  - rewrite ltb_true by exact Hlt. simpl.
    split; [lra |]. split; [intro; lra | auto].
  - rewrite ltb_false by lra. simpl.
    assert (Hs : 0 < JS.hypot vx vy) by lra.
    assert (Hsq : JS.hypot vx vy * JS.hypot vx vy = vx * vx + vy * vy).
    { unfold JS.hypot. apply sqrt_sqrt.
      pose proof (Rle_0_sqr vx). pose proof (Rle_0_sqr vy).
      unfold Rsqr in *. lra. }
    split; [lra |]. split; [| intro; lra].
    intros _. split; [reflexivity |].
    set (h := JS.hypot vx vy) in *.
    split; [| split; field; lra].
    replace (vx / h * (vx / h) + vy / h * (vy / h))
      with ((vx * vx + vy * vy) / (h * h)) by (field; lra).
    rewrite <- Hsq. field. lra.
Qed.

Lemma unit_is_unit_witness :
  let u := unit 3 4 (/ 1000000) in
  / 1000000 <= u_s u
  /\ (/ 1000000 <= JS.hypot 3 4 ->
      u_s u = JS.hypot 3 4
      /\ ux u * ux u + uy u * uy u = 1
      /\ ux u * u_s u = 3 /\ uy u * u_s u = 4)
  /\ (JS.hypot 3 4 < / 1000000 -> ux u = 0 /\ uy u = 0 /\ u_s u = / 1000000).
Proof. apply (unit_is_unit 3 4 (/ 1000000)). lra. Defined.

(** *** resolveCollision *)

Lemma normal_is_unit (a b : Stone) :
  0 < distance a b ->
  let dx := s_x b - s_x a in
  let dy := s_y b - s_y a in
  dx / distance a b * (dx / distance a b)
  + dy / distance a b * (dy / distance a b) = 1.
Proof.
  intros Hd dx dy. pose proof (distance_sq a b) as Hsq. fold dx dy in Hsq.
  replace (dx / distance a b * (dx / distance a b)
           + dy / distance a b * (dy / distance a b))
    with ((dx * dx + dy * dy) / (distance a b * distance a b))
    by (field; lra).
  rewrite <- Hsq. field. lra.
Qed.

(** X12.  When two overlapping stones with distinct centres are closing,
    [resolveCollision] leaves them with a relative velocity along the line
    of centres equal to [- restitution] times the one before. *)
Theorem restitution_law (params : Params) (stone1 stone2 : Stone) :
  0 < distance stone1 stone2 ->
  distance stone1 stone2 < 2 * R_ params ->
  normalVelocity stone1 stone2 <= 0 ->
  let r := resolveCollision stone1 stone2 params in
  normalVelocity (fst r) (snd r)
  = - restitution params * normalVelocity stone1 stone2.
Proof.
  intros Hpos Hlt Hclosing r.
  pose proof (separated_after_resolution stone1 stone2 params Hpos Hlt Hclosing)
    as Hsep.
  pose proof (normal_is_unit stone1 stone2 Hpos) as Hn. cbv zeta in Hn.
  fold r in Hsep. unfold normalVelocity at 1. cbv zeta.
  fold (distance (fst r) (snd r)).
  rewrite Hsep. unfold r.
  rewrite (resolveCollision_closing stone1 stone2 params Hclosing).
  cbv zeta. simpl fst. simpl snd. simpl s_x. simpl s_y. simpl s_vx. simpl s_vy.
  unfold normalVelocity, distance in *. cbv zeta in *.
  set (dx := s_x stone2 - s_x stone1) in *.
  set (dy := s_y stone2 - s_y stone1) in *.
  set (d := sqrt (dx * dx + dy * dy)) in *.
  set (dvx := s_vx stone2 - s_vx stone1) in *.
  set (dvy := s_vy stone2 - s_vy stone1) in *.
  set (e := restitution params).
  set (rel := dvx * (dx / d) + dvy * (dy / d)) in *.
  assert (HR : 2 * R_ params <> 0) by lra.
  assert (Hd : d <> 0) by lra.
  replace ((s_x stone2 + (2 * R_ params - d) * (dx / d) / 2
            - (s_x stone1 - (2 * R_ params - d) * (dx / d) / 2))
           / (2 * R_ params))
    with (dx / d) by (unfold dx; field; lra).
  replace ((s_y stone2 + (2 * R_ params - d) * (dy / d) / 2
            - (s_y stone1 - (2 * R_ params - d) * (dy / d) / 2))
           / (2 * R_ params))
    with (dy / d) by (unfold dy; field; lra).
  replace (s_vx stone2 + - (1 + e) * rel / 2 * (dx / d)
           - (s_vx stone1 - - (1 + e) * rel / 2 * (dx / d)))
    with (dvx - (1 + e) * rel * (dx / d)) by (unfold dvx; field; lra).
  replace (s_vy stone2 + - (1 + e) * rel / 2 * (dy / d)
           - (s_vy stone1 - - (1 + e) * rel / 2 * (dy / d)))
    with (dvy - (1 + e) * rel * (dy / d)) by (unfold dvy; field; lra).
  replace ((dvx - (1 + e) * rel * (dx / d)) * (dx / d)
           + (dvy - (1 + e) * rel * (dy / d)) * (dy / d))
    with (rel - (1 + e) * rel * (dx / d * (dx / d) + dy / d * (dy / d)))
    by (unfold rel; ring).
  rewrite Hn. ring.
Qed.

Lemma restitution_law_witness :
  let params := sampleParams (1 / 100) in
  let stone1 := sampleStone 0 1 in
  let stone2 := sampleStone (1 / 5) 0 in
  let r := resolveCollision stone1 stone2 params in
  normalVelocity (fst r) (snd r)
  = - restitution params * normalVelocity stone1 stone2.
Proof.
  intros params stone1 stone2.
  apply (restitution_law params stone1 stone2); unfold stone1, stone2.
  - rewrite SimProps.sample_distance. lra.
  - rewrite SimProps.sample_distance. simpl. lra.
  - rewrite SimProps.sample_normalVelocity. lra.
Defined.

(** *** resolveCollision: energy, badge, midpoint *)

(** X13.  For two stones with distinct centres: when they are closing,
    [resolveCollision] changes the sum of the squared speeds by
    [- (1 - e^2) / 2] times the square of the relative velocity along the
    line of centres; and for a restitution [e] in [-1, 1] the sum never
    increases. *)
Theorem collision_energy (params : Params) (stone1 stone2 : Stone) :
  0 < distance stone1 stone2 ->
  let e := restitution params in
  let r := resolveCollision stone1 stone2 params in
  (normalVelocity stone1 stone2 <= 0 ->
     speedSquares (fst r) (snd r)
     = speedSquares stone1 stone2
       - (1 - e * e) / 2
         * (normalVelocity stone1 stone2 * normalVelocity stone1 stone2))
  /\ (-1 <= e <= 1 -> speedSquares (fst r) (snd r) <= speedSquares stone1 stone2).
Proof.
  intros Hpos e r.
  assert (Hclose : normalVelocity stone1 stone2 <= 0 ->
     speedSquares (fst r) (snd r)
     = speedSquares stone1 stone2
       - (1 - e * e) / 2
         * (normalVelocity stone1 stone2 * normalVelocity stone1 stone2)).
  { intro Hc. unfold r.
    rewrite (resolveCollision_closing stone1 stone2 params Hc).
    cbv zeta. simpl fst. simpl snd. unfold speedSquares.
    simpl s_vx. simpl s_vy.
    pose proof (normal_is_unit stone1 stone2 Hpos) as Hn. cbv zeta in Hn.
    fold e.
    set (rel := normalVelocity stone1 stone2).
    assert (Hrel : rel = (s_vx stone2 - s_vx stone1)
                         * ((s_x stone2 - s_x stone1) / distance stone1 stone2)
                         + (s_vy stone2 - s_vy stone1)
                           * ((s_y stone2 - s_y stone1) / distance stone1 stone2))
      by reflexivity.
    unfold distance in Hn, Hrel. cbv zeta in Hn, Hrel.
    set (dx := s_x stone2 - s_x stone1) in *.
    set (dy := s_y stone2 - s_y stone1) in *.
    set (d := sqrt (dx * dx + dy * dy)) in *.
    set (nx := dx / d) in *. set (ny := dy / d) in *.
    set (j := - (1 + e) * rel / 2).
    replace ((s_vx stone1 - j * nx) * (s_vx stone1 - j * nx)
             + (s_vy stone1 - j * ny) * (s_vy stone1 - j * ny)
             + (s_vx stone2 + j * nx) * (s_vx stone2 + j * nx)
             + (s_vy stone2 + j * ny) * (s_vy stone2 + j * ny))
      with (s_vx stone1 * s_vx stone1 + s_vy stone1 * s_vy stone1
            + s_vx stone2 * s_vx stone2 + s_vy stone2 * s_vy stone2
            + 2 * j * ((s_vx stone2 - s_vx stone1) * nx
                       + (s_vy stone2 - s_vy stone1) * ny)
            + 2 * j * j * (nx * nx + ny * ny)) by ring.
    rewrite Hn, <- Hrel. unfold j. field. }
  split; [exact Hclose |].
  intros He.
  destruct (Rle_dec (normalVelocity stone1 stone2) 0) as [Hc | Hs].
  - rewrite (Hclose Hc).
    pose proof (Rle_0_sqr (normalVelocity stone1 stone2)) as Hsq.
    unfold Rsqr in Hsq.
    assert (0 <= (1 - e * e) / 2) by nra.
    nra.
  - unfold r. rewrite resolveCollision_separating by lra. simpl. lra.
Qed.

Lemma collision_energy_witness :
  let params := sampleParams (1 / 100) in
  let stone1 := sampleStone 0 1 in
  let stone2 := sampleStone (1 / 5) 0 in
  let e := restitution params in
  let r := resolveCollision stone1 stone2 params in
  (normalVelocity stone1 stone2 <= 0 ->
     speedSquares (fst r) (snd r)
     = speedSquares stone1 stone2
       - (1 - e * e) / 2
         * (normalVelocity stone1 stone2 * normalVelocity stone1 stone2))
  /\ (-1 <= e <= 1 -> speedSquares (fst r) (snd r) <= speedSquares stone1 stone2).
Proof.
  intros params stone1 stone2.
  apply (collision_energy params stone1 stone2).
  unfold stone1, stone2.
  rewrite (distance_on_axis (sampleStone 0 1) (sampleStone (1 / 5) 0));
    simpl; lra.
Defined.

(** X14.  For two stones with distinct centres, [resolveCollision] changes
    neither [id], [team], [inPlay] nor [t] of a stone, and keeps the
    midpoint of the two centres where it was. *)
Theorem collision_keeps_identity_and_midpoint (params : Params)
    (stone1 stone2 : Stone) :
  0 < distance stone1 stone2 ->
  let r := resolveCollision stone1 stone2 params in
  badge (fst r) = badge stone1
  /\ badge (snd r) = badge stone2
  /\ s_x (fst r) + s_x (snd r) = s_x stone1 + s_x stone2
  /\ s_y (fst r) + s_y (snd r) = s_y stone1 + s_y stone2.
Proof.
  intros Hpos r. unfold r, resolveCollision. cbv zeta.
  destruct (0 <? _); unfold badge; simpl; repeat split; try reflexivity.
  - field. unfold distance in Hpos. cbv zeta in Hpos. lra.
  - field. unfold distance in Hpos. cbv zeta in Hpos. lra.
Qed.

Lemma collision_keeps_identity_and_midpoint_witness :
  let params := sampleParams (1 / 100) in
  let stone1 := sampleStone 0 1 in
  let stone2 := sampleStone (1 / 5) 0 in
  let r := resolveCollision stone1 stone2 params in
  badge (fst r) = badge stone1
  /\ badge (snd r) = badge stone2
  /\ s_x (fst r) + s_x (snd r) = s_x stone1 + s_x stone2
  /\ s_y (fst r) + s_y (snd r) = s_y stone1 + s_y stone2.
Proof.
  intros params stone1 stone2.
  apply (collision_keeps_identity_and_midpoint params stone1 stone2).
  unfold stone1, stone2.
  rewrite (distance_on_axis (sampleStone 0 1) (sampleStone (1 / 5) 0));
    simpl; lra.
Defined.

(** *** detectCollisions *)

Lemma collided_refl (a : Stone) : collided a a.
Proof. split; auto. Qed.

Lemma collided_trans (a b c : Stone) :
  collided a b -> collided b c -> collided a c.
Proof.
  intros [H1 H1'] [H2 H2']. split.
  - congruence.
  - intro Ha. rewrite <- (H1' Ha). apply H2'.
    rewrite (H1' Ha). exact Ha.
Qed.

Lemma Forall2_collided_refl (l : list Stone) : Forall2 collided l l.
Proof. induction l; constructor; auto using collided_refl. Qed.

Lemma Forall2_collided_trans (l1 l2 l3 : list Stone) :
  Forall2 collided l1 l2 -> Forall2 collided l2 l3 -> Forall2 collided l1 l3.
Proof.
  intro H. revert l3. induction H; intros l3 H3; inversion H3; subst.
  - constructor.
  - constructor; eauto using collided_trans.
Qed.

Lemma Forall2_set_nth (l : list Stone) (i : nat) (a a' : Stone) :
  nth_error l i = Some a -> collided a a' ->
  Forall2 collided l (Eval.set_nth l i a').
Proof.
  revert i. induction l as [| h tl IH]; intros [| i] Hi Hc; simpl in *;
    try discriminate.
  - injection Hi as ->. constructor; [exact Hc | apply Forall2_collided_refl].
  - constructor; [apply collided_refl | now apply IH].
Qed.

Lemma nth_error_set_nth_other {A : Type} (l : list A) (i j : nat) (a : A) :
  i <> j -> nth_error (Eval.set_nth l i a) j = nth_error l j.
Proof.
  revert i j. induction l as [| h tl IH]; intros [| i] [| j] Hij; simpl;
    try reflexivity; try lia.
  apply IH. lia.
Qed.

Lemma resolveCollision_collided (a b : Stone) (params : Params) :
  inPlay a = true -> inPlay b = true ->
  collided a (fst (resolveCollision a b params))
  /\ collided b (snd (resolveCollision a b params)).
Proof.
  intros Ha Hb. unfold resolveCollision. cbv zeta.
  destruct (0 <? _); simpl; split; split; try reflexivity;
    intro H; congruence.
Qed.

Lemma collidePair_collided (params : Params) (i j : nat) (l : list Stone)
    (si : Stone) :
  (i < j)%nat -> nth_error l i = Some si -> inPlay si = true ->
  Forall2 collided l (collidePair params i l j).
Proof.
  intros Hij Hi Hin. unfold collidePair. rewrite Hi.
  destruct (nth_error l j) as [sj |] eqn:Hj; [| apply Forall2_collided_refl].
  destruct (inPlay sj) eqn:Hjn; simpl; [| apply Forall2_collided_refl].
  destruct (distance si sj <? 2 * R_ params); [| apply Forall2_collided_refl].
  destruct (resolveCollision_collided si sj params Hin Hjn) as [H1 H2].
  destruct (resolveCollision si sj params) as [si' sj']. simpl in H1, H2.
  apply Forall2_collided_trans with (l2 := Eval.set_nth l i si').
  - now apply Forall2_set_nth with (a := si).
  - apply Forall2_set_nth with (a := sj); [| exact H2].
    rewrite nth_error_set_nth_other by lia. exact Hj.
Qed.

Lemma Forall2_collided_nth (l l' : list Stone) (i : nat) (a : Stone) :
  Forall2 collided l l' -> nth_error l i = Some a ->
  exists a', nth_error l' i = Some a' /\ collided a a'.
Proof.
  intro H. revert i. induction H; intros [| i] Hi; simpl in *;
    try discriminate.
  - injection Hi as ->. eauto.
  - eauto.
Qed.

Lemma collided_inPlay (a b : Stone) : collided a b -> inPlay b = inPlay a.
Proof. intros [H _]. unfold badge in H. congruence. Qed.

Lemma collideRow_fold (params : Params) (i : nat) (js : list nat)
    (l : list Stone) (si : Stone) :
  (forall j, In j js -> (i < j)%nat) ->
  nth_error l i = Some si -> inPlay si = true ->
  Forall2 collided l (fold_left (collidePair params i) js l).
Proof.
  revert l si. induction js as [| j js IH]; intros l si Hjs Hi Hin; simpl.
  - apply Forall2_collided_refl.
  - assert (H1 : Forall2 collided l (collidePair params i l j)).
    { apply collidePair_collided with (si := si); auto.
      apply Hjs. now left. }
    destruct (Forall2_collided_nth _ _ i si H1 Hi) as [si' [Hi' Hc]].
    apply Forall2_collided_trans with (l2 := collidePair params i l j);
      [exact H1 |].
    apply IH with (si := si').
    + intros j' Hj'. apply Hjs. now right.
    + exact Hi'.
    + rewrite (collided_inPlay _ _ Hc). exact Hin.
Qed.

Lemma collideRow_collided (params : Params) (l : list Stone) (i : nat) :
  Forall2 collided l (collideRow params l i).
Proof.
  unfold collideRow.
  destruct (nth_error l i) as [si |] eqn:Hi; [| apply Forall2_collided_refl].
  destruct (inPlay si) eqn:Hin; simpl; [| apply Forall2_collided_refl].
  apply collideRow_fold with (si := si); auto.
  intros j Hj. apply in_seq in Hj. lia.
Qed.

Lemma fold_collideRow_collided (params : Params) (rows : list nat)
    (l : list Stone) :
  Forall2 collided l (fold_left (collideRow params) rows l).
Proof.
  revert l. induction rows as [| i rows IH]; intro l; simpl.
  - apply Forall2_collided_refl.
  - eapply Forall2_collided_trans; [apply collideRow_collided | apply IH].
Qed.

Lemma detectCollisions_collided (stones : list Stone) (params : Params) :
  Forall2 collided stones (detectCollisions stones params).
Proof. apply fold_collideRow_collided. Qed.

(** X15.  [detectCollisions] keeps the number and the order of the stones,
    changes neither [id], [team], [inPlay] nor [t] of a stone, and leaves
    every stone that is out of play untouched. *)
Theorem detectCollisions_keeps_stones (stones : list Stone) (params : Params) :
  List.length (detectCollisions stones params) = List.length stones
  /\ Forall2 collided stones (detectCollisions stones params).
Proof.
  pose proof (detectCollisions_collided stones params) as H.
  split; [| exact H].
  symmetry. eapply Forall2_length. exact H.
Qed.

(** Total momentum of the list. *)





(** *** detectCollisions: momentum of the whole list *)




(** *** simulateStone *)

Lemma stopped_at_rest_once (p : Params) (n : nat) (s : State)
    (tr : list State) :
  stopped p s = true -> stoneLoop p n s tr = (s, tr).
Proof. intro H. destruct n; simpl; [reflexivity | now rewrite H]. Qed.

(** X17.  [simulateStone] on a stone that meets the stopping condition
    returns the one-state trajectory of the stone's state and leaves the
    stone as it is, whatever the duration and the time step. *)
Theorem stone_at_rest_stays (stone : Stone) (p : Params) (duration : R)
    (checkCollisions : bool) :
  stopped p (toState stone) = true ->
  simulateStone stone p duration checkCollisions
  = Some ([toState stone], stone).
Proof.
  intro H. unfold simulateStone. cbv zeta.
  destruct (stepBound duration (dt p)) as [n |].
  - rewrite stopped_at_rest_once by exact H.
    now rewrite fromState_toState.
  - rewrite H. now rewrite fromState_toState.
Qed.

Lemma stone_at_rest_stays_witness :
  simulateStone (sampleStone 3 0) (sampleParams (1 / 100)) 5 true
  = Some ([toState (sampleStone 3 0)], sampleStone 3 0).
Proof.
  apply (stone_at_rest_stays (sampleStone 3 0) (sampleParams (1 / 100)) 5 true).
  unfold stopped. simpl.
  rewrite hypot_axis_x by lra. rewrite Rabs_R0.
  rewrite !ltb_true by lra. reflexivity.
Defined.

Lemma nth_error_cons_last {A : Type} (l : list A) (a d : A) (i : nat) :
  nth_error l i = Some a -> S i = List.length l -> last l d = a.
Proof.
  revert i. induction l as [| h tl IH]; intros i Hi Hlen; [destruct i; discriminate |].
  destruct i as [| i]; simpl in *.
  - injection Hi as ->. destruct tl; [reflexivity | discriminate].
  - destruct tl as [| h' tl']; [destruct i; discriminate |].
    apply (IH i Hi). simpl in *. lia.
Qed.

Lemma last_cons_default {A : Type} (l : list A) (a d d' : A) :
  last (a :: l) d = last (a :: l) d'.
Proof.
  revert a. induction l as [| h tl IH]; intro a; [reflexivity |].
  change (last (h :: tl) d = last (h :: tl) d'). apply IH.
Qed.

Lemma last_cons_cons {A : Type} (l : list A) (a b d : A) :
  last (a :: b :: l) d = last (b :: l) b.
Proof.
  change (last (b :: l) d = last (b :: l) b). apply last_cons_default.
Qed.


Lemma stamped_single (s : State) (h : R) : stamped (t s) h [s].
Proof.
  intros [| i] a Hi; simpl in Hi.
  - injection Hi as <-. simpl. lra.
  - destruct i; discriminate.
Qed.

Lemma movingUntilLast_single (p : Params) (s : State) : movingUntilLast p [s].
Proof. intros i a _ Hlen. simpl in Hlen. lia. Qed.

Lemma stepBound_none (duration step : R) :
  stepBound duration step = None -> step = 0 /\ 0 < duration.
Proof.
  unfold stepBound. destruct (Req_dec step 0) as [H0 | H0].
  - rewrite eqb_true by exact H0.
    destruct (Rlt_dec 0 duration) as [Hd | Hd].
    + auto.
    + rewrite ltb_false by lra. discriminate.
  - rewrite eqb_false by exact H0. discriminate.
Qed.


(** *** simulateDraw *)

Lemma drawLoop_S (p : Params) (sd : SheetDimensions) (n : nat) (s : State)
    (tr : list State) :
  drawLoop p sd (S n) s tr
  = if stopped p s then (s, tr, true)
    else if offSheet sd (x (integrate p s)) (y (integrate p s))
         then (integrate p s, tr ++ [integrate p s], false)
         else drawLoop p sd n (integrate p s) (tr ++ [integrate p s]).
Proof. reflexivity. Qed.

Lemma drawLoop_shape (p : Params) (sd : SheetDimensions) (n : nat) :
  forall (s : State) (tr : list State),
  exists ext flag,
    drawLoop p sd n s tr = (last (s :: ext) s, tr ++ ext, flag)
    /\ (flag = true -> stopped p (last (s :: ext) s) = true)
    /\ stamped (t s) (dt p) (s :: ext)
    /\ movingUntilLast p (s :: ext)
    /\ insideUntilLast sd (s :: ext)
    /\ (List.length ext <= n)%nat
    /\ (flag = false -> (List.length ext < n)%nat ->
        offSheet sd (x (last (s :: ext) s)) (y (last (s :: ext) s)) = true).
Proof.
  induction n as [| n IH]; intros s tr.
  - exists [], false. simpl. rewrite app_nil_r.
    split; [reflexivity |]. split; [discriminate |].
    split; [apply stamped_single |]. split; [apply movingUntilLast_single |].
    split; [| split; [lia | intros _ H; lia]].
    intros i a _ _ Hlen. simpl in Hlen. lia.
  - rewrite drawLoop_S. destruct (stopped p s) eqn:Hs.
    + exists [], true. simpl. rewrite app_nil_r.
      split; [reflexivity |]. split; [intros _; exact Hs |].
      split; [apply stamped_single |]. split; [apply movingUntilLast_single |].
      split; [| split; [lia | discriminate]].
      intros i a _ _ Hlen. simpl in Hlen. lia.
    + destruct (offSheet sd (x (integrate p s)) (y (integrate p s))) eqn:Hoff.
      * exists [integrate p s], false.
        split; [reflexivity |]. split; [discriminate |].
        split; [| split; [| split; [| split; [simpl; lia |]]]].
        -- intros [| [| i]] a Hi; simpl in Hi.
           ++ injection Hi as <-. simpl. lra.
           ++ injection Hi as <-. unfold integrate. cbv zeta. simpl. lra.
           ++ destruct i; discriminate.
        -- intros [| i] a Hi Hlen; simpl in Hlen; [| lia].
           simpl in Hi. injection Hi as <-. exact Hs.
        -- intros i a _ H0 Hlen. simpl in Hlen. lia.
        -- intros _ _. exact Hoff.
      * destruct (IH (integrate p s) (tr ++ [integrate p s]))
          as [ext [flag [Heq [Hflag [Hst [Hmov [Hin [Hlen Hend]]]]]]]].
        exists (integrate p s :: ext), flag.
        assert (Hlast : last (s :: integrate p s :: ext) s
                        = last (integrate p s :: ext) (integrate p s)).
        { change (last (s :: integrate p s :: ext) s)
            with (last (integrate p s :: ext) s).
          apply last_cons_default. }
        rewrite Hlast.
        split.
        { rewrite Heq. rewrite <- app_assoc. reflexivity. }
        split; [exact Hflag |].
        split; [| split; [| split; [| split; [simpl; lia |]]]].
        -- intros [| i] a Hi.
           ++ simpl in Hi. injection Hi as <-. simpl. lra.
           ++ change (nth_error (integrate p s :: ext) i = Some a) in Hi.
              rewrite (Hst i a Hi). rewrite S_INR.
              unfold integrate. cbv zeta. simpl. lra.
        -- intros [| i] a Hi Hl.
           ++ simpl in Hi. injection Hi as <-. exact Hs.
           ++ change (nth_error (integrate p s :: ext) i = Some a) in Hi.
              apply (Hmov i a Hi). simpl in *. lia.
        -- intros [| i] a Hi H0 Hl; [lia |].
           change (nth_error (integrate p s :: ext) i = Some a) in Hi.
           destruct i as [| i].
           ++ simpl in Hi. injection Hi as <-. exact Hoff.
           ++ apply (Hin (S i) a Hi); [lia | simpl in *; lia].
        -- intros Hf Hl. apply Hend; [exact Hf | simpl in Hl; lia].
Qed.

(** X19.  When [simulateDraw] returns, the trajectory starts at time 0 at
    the start point, the i-th state carries the time [i * dt], every state
    but the last is that of a moving stone, every state strictly between
    the first and the last is within the sheet widened by 0.5,
    [stoneStopped] implies that the last state meets the stopping
    condition, and [stoppedOnSheet] holds exactly when [stoneStopped] holds
    and the last position is within the sheet.  The call can fail to return
    only when [dt = 0] and [tMax > 0]. *)
Theorem simulateDraw_outcome (Vmag omegaMag : R) (turnStr : string)
    (p : Params) (startPt broomPt : R * R) (sd : SheetDimensions) :
  match simulateDraw Vmag omegaMag turnStr p startPt broomPt sd with
  | Some r =>
      exists s0 sN,
        hd_error (traj r) = Some s0 /\ last (traj r) s0 = sN
        /\ t s0 = 0 /\ x s0 = fst startPt /\ y s0 = snd startPt
        /\ stamped 0 (dt p) (traj r)
        /\ movingUntilLast p (traj r)
        /\ insideUntilLast sd (traj r)
        /\ (stoneStopped r = true -> stopped p sN = true)
        /\ (stoppedOnSheet r = true <->
            stoneStopped r = true
            /\ XMIN sd <= x sN <= XMAX sd /\ Rabs (y sN) <= HALF_W sd)
  | None => dt p = 0 /\ 0 < tMax p
  end.
Proof.
  unfold simulateDraw. cbv zeta.
  set (s := mkState 0 (fst startPt) (snd startPt) _ _ _).
  assert (Hflags : forall (sN : State) (tr : list State) (flag : bool),
    stoppedOnSheet (drawResult sd (sN, tr, flag)) = true <->
    stoneStopped (drawResult sd (sN, tr, flag)) = true
    /\ XMIN sd <= x sN <= XMAX sd /\ Rabs (y sN) <= HALF_W sd).
  { intros sN tr flag. simpl.
    rewrite !andb_true_iff. unfold JS.leb.
    destruct (Rle_dec (XMIN sd) (x sN)), (Rle_dec (x sN) (XMAX sd)),
      (Rle_dec (Rabs (y sN)) (HALF_W sd)); split;
      intros H; decompose [and] H; try discriminate; try lra; auto. }
  destruct (stepBound (tMax p) (dt p)) as [n |] eqn:Hb.
  - destruct (drawLoop_shape p sd n s [s])
      as [ext [flag [Heq [Hflag [Hst [Hmov [Hin _]]]]]]].
    rewrite Heq. simpl app.
    exists s, (last (s :: ext) s).
    split; [reflexivity |]. split; [reflexivity |].
    split; [reflexivity |]. split; [reflexivity |]. split; [reflexivity |].
    split; [exact Hst |]. split; [exact Hmov |]. split; [exact Hin |].
    split; [exact Hflag | apply Hflags].
  - destruct (stepBound_none _ _ Hb) as [Hdt Hpos].
    destruct (stopped p s) eqn:Hs.
    + exists s, s.
      split; [reflexivity |]. split; [reflexivity |].
      split; [reflexivity |]. split; [reflexivity |]. split; [reflexivity |].
      split; [apply (stamped_single s) |].
      split; [apply movingUntilLast_single |].
      split; [| split; [intros _; exact Hs | apply Hflags]].
      intros i a _ _ Hlen. simpl in Hlen. lia.
    + destruct (offSheet sd (x (integrate p s)) (y (integrate p s))) eqn:Hoff.
      * exists s, (integrate p s).
        split; [reflexivity |]. split; [reflexivity |].
        split; [reflexivity |]. split; [reflexivity |]. split; [reflexivity |].
        split; [| split; [| split; [| split; [discriminate | apply Hflags]]]].
        -- intros [| [| i]] a Hi; simpl in Hi.
           ++ injection Hi as <-. simpl. lra.
           ++ injection Hi as <-. unfold integrate. cbv zeta. simpl. lra.
           ++ destruct i; discriminate.
        -- intros [| i] a Hi Hlen; simpl in Hlen; [| lia].
           simpl in Hi. injection Hi as <-. exact Hs.
        -- intros i a _ H0 Hlen. simpl in Hlen. lia.
      * auto.
Qed.

(** *** simulateDraw: the launch *)

Lemma hypot_scaled (c a b : R) :
  a * a + b * b = 1 -> JS.hypot (c * a) (c * b) = Rabs c.
Proof.
  intro H. unfold JS.hypot.
  replace (c * a * (c * a) + c * b * (c * b))
    with (Rsqr c * (a * a + b * b)) by (unfold Rsqr; ring).
  rewrite H, Rmult_1_r. apply sqrt_Rsqr_abs.
Qed.

Lemma unit_normalised (vx vy eps : R) :
  0 < eps -> eps <= JS.hypot vx vy ->
  let u := unit vx vy eps in
  ux u * ux u + uy u * uy u = 1
  /\ ux u * JS.hypot vx vy = vx /\ uy u * JS.hypot vx vy = vy.
Proof.
  intros Heps Hge u. unfold u, unit. cbv zeta.
  rewrite ltb_false by lra. simpl.
  assert (Hsq : JS.hypot vx vy * JS.hypot vx vy = vx * vx + vy * vy).
  { unfold JS.hypot. apply sqrt_sqrt.
    pose proof (Rle_0_sqr vx). pose proof (Rle_0_sqr vy).
    unfold Rsqr in *. lra. }
  set (h := JS.hypot vx vy) in *.
  split; [| split; field; lra].
  replace (vx / h * (vx / h) + vy / h * (vy / h))
    with ((vx * vx + vy * vy) / (h * h)) by (field; lra).
  rewrite <- Hsq. field. lra.
Qed.

(** X20.  With [vEps > 0], the first state of the trajectory of
    [simulateDraw] spins at [|omegaMag|] for the turn "in" and at
    [- |omegaMag|] for any other turn.  If the broom is at least [vEps]
    away from the start point the stone leaves with speed [|Vmag|] along
    the line from the start point to the broom; if it is nearer, the stone
    is launched with velocity zero. *)
Theorem simulateDraw_launch (Vmag omegaMag : R) (turnStr : string)
    (p : Params) (startPt broomPt : R * R) (sd : SheetDimensions) :
  0 < vEps p ->
  let dx := fst broomPt - fst startPt in
  let dy := snd broomPt - snd startPt in
  match simulateDraw Vmag omegaMag turnStr p startPt broomPt sd with
  | Some r =>
      exists s0,
        hd_error (traj r) = Some s0
        /\ (vEps p <= JS.hypot dx dy ->
            JS.hypot (vx s0) (vy s0) = Rabs Vmag
            /\ vx s0 * JS.hypot dx dy = Vmag * dx
            /\ vy s0 * JS.hypot dx dy = Vmag * dy)
        /\ (JS.hypot dx dy < vEps p -> vx s0 = 0 /\ vy s0 = 0)
        /\ w s0 = (if String.eqb turnStr "in" then Rabs omegaMag
                   else - Rabs omegaMag)
  | None => True
  end.
Proof.
  intros Heps dx dy.
  assert (Hhead : forall r,
    simulateDraw Vmag omegaMag turnStr p startPt broomPt sd = Some r ->
    hd_error (traj r)
    = Some (mkState 0 (fst startPt) (snd startPt)
              (Vmag * ux (unit dx dy (vEps p)))
              (Vmag * uy (unit dx dy (vEps p)))
              (if String.eqb turnStr "in" then Rabs omegaMag
               else - Rabs omegaMag))).
  { intros r. unfold simulateDraw. cbv zeta. fold dx dy.
    set (s := mkState 0 _ _ _ _ _).
    destruct (stepBound (tMax p) (dt p)) as [n |].
    - destruct (drawLoop_shape p sd n s [s]) as [ext [flag [Heq _]]].
      rewrite Heq. intro H. injection H as <-. reflexivity.
    - destruct (stopped p s).
      + intro H. injection H as <-. reflexivity.
      + destruct (offSheet sd _ _); [| discriminate].
        intro H. injection H as <-. reflexivity. }
  destruct (simulateDraw Vmag omegaMag turnStr p startPt broomPt sd)
    as [r |]; [| exact I].
  eexists. split; [apply Hhead; reflexivity |]. simpl.
  split; [| split; [| reflexivity]].
  - intro Hge.
    destruct (unit_normalised dx dy (vEps p) Heps Hge) as [H1 [H2 H3]].
    split; [now apply hypot_scaled |].
    split.
    + rewrite Rmult_assoc, H2. reflexivity.
    + rewrite Rmult_assoc, H3. reflexivity.
  - intro Hlt. unfold unit. cbv zeta. rewrite ltb_true by exact Hlt.
    simpl. split; ring.
Qed.

Lemma simulateDraw_launch_witness :
  let p := sampleParams (1 / 100) in
  let dx := 10 - 0 in
  let dy := 0 - 0 in
  match simulateDraw 2 1 "in" p (0, 0) (10, 0) sampleSheet with
  | Some r =>
      exists s0,
        hd_error (traj r) = Some s0
        /\ (vEps p <= JS.hypot dx dy ->
            JS.hypot (vx s0) (vy s0) = Rabs 2
            /\ vx s0 * JS.hypot dx dy = 2 * dx
            /\ vy s0 * JS.hypot dx dy = 2 * dy)
        /\ (JS.hypot dx dy < vEps p -> vx s0 = 0 /\ vy s0 = 0)
        /\ w s0 = (if String.eqb "in" "in" then Rabs 1 else - Rabs 1)
  | None => True
  end.
Proof.
  intro p.
  apply (simulateDraw_launch 2 1 "in" p (0, 0) (10, 0) sampleSheet).
  simpl. lra.
Defined.

(** *** The friction force on a stone that does not spin *)

Lemma segmentForce_no_spin (p : Params) (s : State) (F : Force) (phi : R) :
  w s = 0 ->
  let vmag := JS.or_else (JS.hypot (vx s) (vy s)) (vEps p) in
  let c := - (m p * g p / INR (segments p) * (mu0 p * (1 / sqrt vmag))) in
  Fx (segmentForce p s F phi) = Fx F + c * (vx s / vmag)
  /\ Fy (segmentForce p s F phi) = Fy F + c * (vy s / vmag).
Proof.
  intros Hw vmag c. unfold segmentForce. cbv zeta. simpl.
  rewrite Hw.
  replace (vx s - 0 * rBand p * sin phi) with (vx s) by ring.
  replace (vy s + 0 * rBand p * cos phi) with (vy s) by ring.
  fold vmag. unfold c. split; reflexivity.
Qed.

Lemma fold_segmentForce_no_spin (p : Params) (s : State) (l : list R)
    (F : Force) :
  w s = 0 ->
  let vmag := JS.or_else (JS.hypot (vx s) (vy s)) (vEps p) in
  let c := - (m p * g p / INR (segments p) * (mu0 p * (1 / sqrt vmag))) in
  Fx (fold_left (segmentForce p s) l F)
  = Fx F + INR (List.length l) * (c * (vx s / vmag))
  /\ Fy (fold_left (segmentForce p s) l F)
     = Fy F + INR (List.length l) * (c * (vy s / vmag)).
Proof.
  intros Hw vmag c. revert F.
  induction l as [| phi l IH]; intro F.
  - simpl. split; ring.
  - cbn [fold_left]. destruct (IH (segmentForce p s F phi)) as [Hx Hy].
    destruct (segmentForce_no_spin p s F phi Hw) as [Hx' Hy'].
    fold vmag in Hx', Hy'. fold c in Hx', Hy'.
    rewrite Hx, Hy, Hx', Hy'.
    change (List.length (phi :: l)) with (S (List.length l)).
    rewrite S_INR. split; ring.
Qed.

(** X21.  With at least one band segment and [vEps > 0], the net force that
    the integration loop computes for a stone that does not spin is a pure
    drag: [m g mu0 / sqrt v] against the velocity when the speed [v] is
    positive, and zero when the stone is at rest. *)
Theorem drag_on_sliding_stone (p : Params) (s : State) :
  w s = 0 -> (0 < segments p)%nat -> 0 < vEps p ->
  let v := JS.hypot (vx s) (vy s) in
  (0 < v ->
     Fx (netForce p s) = - (m p * g p * mu0 p / sqrt v) * (vx s / v)
     /\ Fy (netForce p s) = - (m p * g p * mu0 p / sqrt v) * (vy s / v))
  /\ (v = 0 -> Fx (netForce p s) = 0 /\ Fy (netForce p s) = 0).
Proof.
  intros Hw Hseg Heps v.
  assert (HN : INR (segments p) <> 0).
  { apply not_0_INR. lia. }
  assert (Hlen : List.length (phis p) = segments p).
  { unfold phis. now rewrite length_map, length_seq. }
  assert (Hnet : forall vmag,
    vmag = JS.or_else v (vEps p) ->
    Fx (netForce p s)
    = INR (segments p)
      * (- (m p * g p / INR (segments p) * (mu0 p * (1 / sqrt vmag)))
         * (vx s / vmag))
    /\ Fy (netForce p s)
       = INR (segments p)
         * (- (m p * g p / INR (segments p) * (mu0 p * (1 / sqrt vmag)))
            * (vy s / vmag))).
  { intros vmag ->. unfold netForce. cbv zeta. simpl.
    destruct (fold_segmentForce_no_spin p s (phis p) (mkForce 0 0 0) Hw)
      as [Hx Hy].
    rewrite Hx, Hy, Hlen, Hw. simpl.
    rewrite ltb_false by lra. fold v. split; ring. }
  split.
  - intro Hv.
    destruct (Hnet v) as [Hx Hy].
    { unfold JS.or_else. rewrite eqb_false by lra. reflexivity. }
    assert (Hs : sqrt v <> 0).
    { pose proof (sqrt_lt_R0 v Hv). lra. }
    rewrite Hx, Hy. split; field; repeat split; lra.
  - intro Hv.
    destruct (Hnet (vEps p)) as [Hx Hy].
    { unfold JS.or_else. rewrite eqb_true by exact Hv. reflexivity. }
    assert (Hvx : vx s = 0 /\ vy s = 0).
    { unfold v, JS.hypot in Hv.
      pose proof (Rle_0_sqr (vx s)) as H1. pose proof (Rle_0_sqr (vy s)) as H2.
      unfold Rsqr in *.
      apply sqrt_eq_0 in Hv; [| lra].
      split; nra. }
    destruct Hvx as [Hvx Hvy].
    rewrite Hx, Hy, Hvx, Hvy. split; unfold Rdiv; ring.
Qed.

Lemma drag_on_sliding_stone_witness :
  let p := sampleParams (1 / 100) in
  let s := toState (sampleStone 1 1) in
  let v := JS.hypot (vx s) (vy s) in
  (0 < v ->
     Fx (netForce p s) = - (m p * g p * mu0 p / sqrt v) * (vx s / v)
     /\ Fy (netForce p s) = - (m p * g p * mu0 p / sqrt v) * (vy s / v))
  /\ (v = 0 -> Fx (netForce p s) = 0 /\ Fy (netForce p s) = 0).
Proof.
  intros p s.
  apply (drag_on_sliding_stone p s).
  - reflexivity.
  - simpl. lia.
  - simpl. lra.
Defined.

(** *** simulateAll *)

Lemma advanced_refl (a : Stone) : advanced a a.
Proof. repeat split; auto. Qed.

Lemma advanced_trans (a b c : Stone) :
  advanced a b -> advanced b c -> advanced a c.
Proof.
  intros [H1 [H2 [H3 H4]]] [H1' [H2' [H3' H4']]].
  split; [congruence |]. split; [congruence |]. split; [auto |].
  intro Ha. rewrite <- (H4 Ha). apply H4'. rewrite (H4 Ha). exact Ha.
Qed.

Lemma collided_advanced (a b : Stone) : collided a b -> advanced a b.
Proof.
  intros [Hid Hout]. unfold badge in Hid.
  injection Hid as H1 H2 H3 H4.
  repeat split; auto. congruence.
Qed.

Lemma Forall2_advanced_refl (l : list Stone) : Forall2 advanced l l.
Proof. induction l; constructor; auto using advanced_refl. Qed.

Lemma Forall2_advanced_trans (l1 l2 l3 : list Stone) :
  Forall2 advanced l1 l2 -> Forall2 advanced l2 l3 -> Forall2 advanced l1 l3.
Proof.
  intro H. revert l3. induction H; intros l3 H3; inversion H3; subst.
  - constructor.
  - constructor; eauto using advanced_trans.
Qed.

Lemma Forall2_collided_advanced (l1 l2 : list Stone) :
  Forall2 collided l1 l2 -> Forall2 advanced l1 l2.
Proof. induction 1; constructor; auto using collided_advanced. Qed.

Lemma traj_push_keys (tr : Trajectories) (k : Z) (s : State) :
  map fst (traj_push tr k s) = map fst tr.
Proof.
  induction tr as [| [k' v'] rest IH]; simpl; [reflexivity |].
  destruct (k' =? k)%Z; simpl; [reflexivity | now rewrite IH].
Qed.

Lemma simulateStone_fromState (stone stone' : Stone) (p : Params)
    (duration : R) (cc : bool) (tr : list State) :
  simulateStone stone p duration cc = Some (tr, stone') ->
  exists s', stone' = fromState stone s'.
Proof.
  unfold simulateStone. cbv zeta.
  destruct (stepBound duration (dt p)) as [n |].
  - destruct (stoneLoop p n (toState stone) [toState stone]) as [s' tr'].
    intro H. injection H as _ <-. eauto.
  - destruct (stopped p (toState stone)); [| discriminate].
    intro H. injection H as _ <-. eauto.
Qed.

Lemma moveStones_advanced (p : Params) (sd : SheetDimensions)
    (stones : list Stone) :
  forall (tr : Trajectories) (stones' : list Stone) (tr' : Trajectories),
  moveStones p sd stones tr = Some (stones', tr') ->
  Forall2 advanced stones stones' /\ map fst tr' = map fst tr.
Proof.
  induction stones as [| stone rest IH]; intros tr stones' tr' H.
  - simpl in H. injection H as <- <-. split; [constructor | reflexivity].
  - cbn [moveStones] in H.
    destruct (inPlay stone) eqn:Hin; cbn [negb] in H.
    + destruct (simulateStone stone p (dt p) false) as [[stepTraj stone1] |]
        eqn:Hsim; [| discriminate].
      cbv zeta in H.
      destruct (moveStones p sd rest _) as [[rest' tr1] |] eqn:Hrest;
        [| discriminate].
      injection H as <- <-.
      destruct (IH _ _ _ Hrest) as [Hadv Hkeys].
      destruct (simulateStone_fromState _ _ _ _ _ _ Hsim) as [s' ->].
      split.
      * constructor; [| exact Hadv].
        destruct (offSheet sd _ _); simpl; repeat split; auto;
          try discriminate; intro Hf; congruence.
      * rewrite Hkeys. apply traj_push_keys.
    + destruct (moveStones p sd rest tr) as [[rest' tr1] |] eqn:Hrest;
        [| discriminate].
      injection H as <- <-.
      destruct (IH _ _ _ Hrest) as [Hadv Hkeys].
      split; [constructor; [apply advanced_refl | exact Hadv] | exact Hkeys].
Qed.

Lemma timeLoop_advanced (p : Params) (sd : SheetDimensions) (duration : R)
    (fuel : nat) :
  forall (time : R) (stones : list Stone) (tr : Trajectories) (ticks : nat)
         (r : Run),
  timeLoop fuel p sd duration time stones tr ticks = Some r ->
  Forall2 advanced stones (run_stones r)
  /\ map fst (run_trajectories r) = map fst tr.
Proof.
  induction fuel as [| fuel IH]; intros time stones tr ticks r H.
  - simpl in H.
    destruct (negb (time <? duration));
      [| destruct (allStopped p stones); [| discriminate]];
      injection H as <-; simpl;
      (split; [apply Forall2_advanced_refl | reflexivity]).
  - cbn [timeLoop] in H.
    destruct (negb (time <? duration)).
    { injection H as <-. simpl.
      split; [apply Forall2_advanced_refl | reflexivity]. }
    destruct (allStopped p stones).
    { injection H as <-. simpl.
      split; [apply Forall2_advanced_refl | reflexivity]. }
    destruct (moveStones p sd stones tr) as [[stones1 tr1] |] eqn:Hmove;
      [| discriminate].
    cbv zeta in H.
    destruct (moveStones_advanced _ _ _ _ _ _ Hmove) as [Hadv Hkeys].
    destruct (IH _ _ _ _ _ H) as [Hadv' Hkeys'].
    split; [| congruence].
    eapply Forall2_advanced_trans; [exact Hadv |].
    eapply Forall2_advanced_trans; [| exact Hadv'].
    apply Forall2_collided_advanced.
    apply detectCollisions_collided.
Qed.

Lemma traj_set_keys (tr : Trajectories) (k k' : Z) (v : list State) :
  In k' (map fst (traj_set tr k v)) <-> k' = k \/ In k' (map fst tr).
Proof.
  induction tr as [| [k0 v0] rest IH]; simpl.
  - intuition.
  - destruct (k0 =? k)%Z eqn:Hk; simpl.
    + apply Z.eqb_eq in Hk. subst k0. intuition.
    + rewrite IH. intuition.
Qed.

Lemma traj_set_NoDup (tr : Trajectories) (k : Z) (v : list State) :
  NoDup (map fst tr) -> NoDup (map fst (traj_set tr k v)).
Proof.
  induction tr as [| [k0 v0] rest IH]; simpl; intro H.
  - constructor; [intros [] | constructor].
  - destruct (k0 =? k)%Z eqn:Hk; simpl; [exact H |].
    inversion H as [| ? ? Hnotin Hnd]; subst.
    constructor; [| now apply IH].
    intro Hin. apply traj_set_keys in Hin. destruct Hin as [-> | Hin].
    + rewrite Z.eqb_refl in Hk. discriminate.
    + contradiction.
Qed.

Lemma traj_set_empty (tr : Trajectories) (k : Z) :
  Forall (fun kv => snd kv = []) tr ->
  Forall (fun kv => snd kv = []) (traj_set tr k []).
Proof.
  induction tr as [| [k0 v0] rest IH]; simpl; intro H.
  - constructor; [reflexivity | constructor].
  - inversion H; subst.
    destruct (k0 =? k)%Z; constructor; auto.
Qed.

Lemma initial_trajectories (stones : list Stone) :
  forall tr0,
  let tr := fold_left (fun tr st => traj_set tr (id st) []) stones tr0 in
  (forall k, In k (map fst tr) <-> In k (map id stones) \/ In k (map fst tr0))
  /\ (NoDup (map fst tr0) -> NoDup (map fst tr))
  /\ (Forall (fun kv => snd kv = []) tr0 -> Forall (fun kv => snd kv = []) tr).
Proof.
  induction stones as [| st rest IH]; intro tr0; cbn [fold_left map].
  - split; [| split]; auto. intro k. simpl. intuition.
  - destruct (IH (traj_set tr0 (id st) [])) as [Hk [Hnd Hemp]].
    split; [| split].
    + intro k. rewrite Hk, traj_set_keys. simpl. intuition.
    + intro H. apply Hnd. now apply traj_set_NoDup.
    + intro H. apply Hemp. now apply traj_set_empty.
Qed.

(** X22.  When [simulateAll] returns, the stones are the stones it was
    given, position by position, with the same [id] and [team]; a stone
    that was out of play is untouched and no stone has come back into
    play; and the keys of the trajectories are the ids of the stones, each
    once. *)
Theorem simulateAll_keeps_stones (fuel : nat) (p : Params) (duration : R)
    (stones : list Stone) (sd : SheetDimensions) (r : Run) :
  simulateAll fuel p duration stones sd = Some r ->
  Forall2 advanced stones (run_stones r)
  /\ (forall k, In k (map fst (run_trajectories r)) <-> In k (map id stones))
  /\ NoDup (map fst (run_trajectories r)).
Proof.
  unfold simulateAll. cbv zeta. intro H.
  destruct (timeLoop_advanced _ _ _ _ _ _ _ _ _ H) as [Hadv Hkeys].
  destruct (initial_trajectories stones []) as [Hk [Hnd _]].
  cbv zeta in Hk, Hnd.
  split; [exact Hadv |]. rewrite Hkeys. split.
  - intro k. rewrite Hk. simpl. intuition.
  - apply Hnd. constructor.
Qed.

Lemma simulateAll_keeps_stones_witness :
  let p := sampleParams (1 / 100) in
  let stones := [sampleStone 1 1] in
  exists r,
    simulateAll 100 p 1 stones sampleSheet = Some r
    /\ Forall2 advanced stones (run_stones r)
    /\ (forall k, In k (map fst (run_trajectories r)) <-> In k (map id stones))
    /\ NoDup (map fst (run_trajectories r)).
Proof.
  intros p stones.
  destruct (timeLoop_terminates p sampleSheet 1 ltac:(simpl; lra) 100 100 0
              stones
              (fold_left (fun tr st => traj_set tr (id st) []) stones []) O)
    as [r [Hr _]].
  - simpl. lra.
  - lia.
  - exists r. split; [exact Hr |].
    apply (simulateAll_keeps_stones 100 p 1 stones sampleSheet r). exact Hr.
Defined.

(** X23.  If every stone is at rest or out of play, or if the duration is
    not positive, [simulateAll] returns at once: no tick, the stones as
    they were, and every trajectory empty. *)
Theorem simulateAll_nothing_to_do (fuel : nat) (p : Params) (duration : R)
    (stones : list Stone) (sd : SheetDimensions) :
  allStopped p stones = true \/ duration <= 0 ->
  exists tr,
    simulateAll fuel p duration stones sd = Some (mkRun tr stones 0)
    /\ Forall (fun kv => snd kv = []) tr.
Proof.
  intro H. unfold simulateAll. cbv zeta.
  destruct (initial_trajectories stones []) as [_ [_ Hemp]].
  cbv zeta in Hemp.
  eexists. split; [| apply Hemp; constructor].
  destruct H as [Hs | Hd].
  - destruct fuel; cbn [timeLoop]; rewrite Hs;
      destruct (negb (0 <? duration)); reflexivity.
  - apply timeLoop_done. exact Hd.
Qed.

Lemma simulateAll_nothing_to_do_witness :
  exists tr,
    simulateAll 0 (sampleParams (1 / 100)) 0 [sampleStone 1 1] sampleSheet
    = Some (mkRun tr [sampleStone 1 1] 0)
    /\ Forall (fun kv => snd kv = []) tr.
Proof.
  apply (simulateAll_nothing_to_do 0 (sampleParams (1 / 100)) 0
           [sampleStone 1 1] sampleSheet).
  right. lra.
Defined.

End SimMore.

(** ** Properties of the game controller *)

Module ControllerProps.
Import Spec Notions Sim Controller JSFacts SimFacts.

Lemma fold_max_ge (l : list Z) (a : Z) :
  (a <= fold_left Z.max l a)%Z
  /\ forall i, In i l -> (i <= fold_left Z.max l a)%Z.
Proof.
  revert a. induction l as [| h tl IH]; intro a; simpl.
  - split; [lia | intros i []].
  - destruct (IH (Z.max a h)) as [H1 H2]. split; [lia |].
    intros i [<- | Hi]; [lia | now apply H2].
Qed.

Lemma generateStoneId_above (stones : list Stone) (st : Stone) :
  In st stones -> (id st < generateStoneId stones)%Z.
Proof.
  intro H. apply (in_map id) in H. unfold generateStoneId.
  destruct (map id stones) as [| i rest]; [destruct H |].
  destruct (fold_max_ge rest i) as [H1 H2].
  destruct H as [<- | H]; [lia |]. specialize (H2 _ H). lia.
Qed.

(** X24.  [addStone] appends one stone, whose id is larger than every id on
    the sheet (and is 1 on an empty sheet); ids that were distinct stay
    distinct. *)
Theorem addStone_fresh_id (startX : R) (stones : list Stone) (team : string) :
  exists st,
    addStone startX stones team = stones ++ [st]
    /\ (forall st', In st' stones -> (id st' < id st)%Z)
    /\ (stones = [] -> id st = 1%Z)
    /\ (NoDup (map id stones) ->
        NoDup (map id (addStone startX stones team))).
Proof.
  unfold addStone. cbv zeta. eexists. split; [reflexivity |]. simpl.
  split; [intros st' H; now apply generateStoneId_above |].
  split; [intros ->; reflexivity |].
  intro Hnd. rewrite map_app. simpl.
  apply NoDup_app; [exact Hnd | constructor; [intros [] | constructor] |].
  intros i Hi [<- | []].
  apply in_map_iff in Hi. destruct Hi as [st' [Heq Hin]].
  pose proof (generateStoneId_above stones st' Hin). lia.
Qed.

(** *** simulateForCollisions *)

Lemma traj_push_headed (tr tr' : Trajectories) (k : Z) (s : State) :
  Forall2 headed tr tr' ->
  Forall2 headed (traj_push tr k s) (traj_push tr' k s).
Proof.
  induction 1 as [| [k1 v1] [k2 v2] l l' [Hk [s0 Hv]] Hrest IH]; simpl.
  - constructor.
  - simpl in Hk, Hv. subst k2 v2.
    destruct (k1 =? k)%Z.
    + constructor; [| exact Hrest]. split; [reflexivity |].
      exists s0. reflexivity.
    + constructor; [| exact IH]. split; [reflexivity |].
      exists s0. reflexivity.
Qed.

Lemma traj_set_headed (tr tr' : Trajectories) (k : Z) (s : State) :
  Forall2 headed tr tr' ->
  Forall2 headed (traj_set tr k []) (traj_set tr' k [s]).
Proof.
  induction 1 as [| [k1 v1] [k2 v2] l l' [Hk [s0 Hv]] Hrest IH]; simpl.
  - constructor; [| constructor]. split; [reflexivity |].
    exists s. reflexivity.
  - simpl in Hk, Hv. subst k2 v2.
    destruct (k1 =? k)%Z.
    + constructor; [| exact Hrest]. split; [reflexivity |].
      exists s. reflexivity.
    + constructor; [| exact IH]. split; [reflexivity |].
      exists s0. reflexivity.
Qed.

Lemma initial_headed (stones : list Stone) :
  forall tr tr', Forall2 headed tr tr' ->
  Forall2 headed
    (fold_left (fun tr st => traj_set tr (id st) []) stones tr)
    (fold_left (fun tr st => traj_set tr (id st) [toState st]) stones tr').
Proof.
  induction stones as [| st rest IH]; intros tr tr' H; simpl; [exact H |].
  apply IH. now apply traj_set_headed.
Qed.

Lemma moveStones_headed (p : Params) (sd : SheetDimensions)
    (stones : list Stone) :
  forall tr tr', Forall2 headed tr tr' ->
  match moveStones p sd stones tr, moveStones p sd stones tr' with
  | Some (s1, tr1), Some (s1', tr1') => s1' = s1 /\ Forall2 headed tr1 tr1'
  | None, None => True
  | _, _ => False
  end.
Proof.
  induction stones as [| stone rest IH]; intros tr tr' H; cbn [moveStones].
  - auto.
  - destruct (negb (inPlay stone)).
    + specialize (IH tr tr' H).
      destruct (moveStones p sd rest tr) as [[r1 t1] |],
               (moveStones p sd rest tr') as [[r1' t1'] |]; try exact IH.
      destruct IH as [-> IH]. auto.
    + destruct (simulateStone stone p (dt p) false) as [[stepTraj stone1] |];
        [| exact I].
      cbv zeta.
      specialize (IH _ _ (traj_push_headed tr tr' (id stone1)
                            (last stepTraj (toState stone1)) H)).
      destruct (moveStones p sd rest (traj_push tr _ _)) as [[r1 t1] |],
               (moveStones p sd rest (traj_push tr' _ _)) as [[r1' t1'] |];
        try exact IH.
      destruct IH as [-> IH]. auto.
Qed.

Lemma collisionLoop_as_timeLoop (p : Params) (sd : SheetDimensions)
    (fuel : nat) :
  forall time stones tr tr' ticks cd,
  Forall2 headed tr tr' ->
  match collisionLoop fuel p sd time stones tr' cd,
        timeLoop fuel p sd (tMax p) time stones tr ticks with
  | Some (trC, cdC, stonesC), Some r =>
      cdC = cd /\ stonesC = run_stones r
      /\ Forall2 headed (run_trajectories r) trC
  | None, None => True
  | _, _ => False
  end.
Proof.
  induction fuel as [| fuel IH]; intros time stones tr tr' ticks cd H;
    cbn [collisionLoop timeLoop].
  - destruct (negb (time <? tMax p)); [simpl; auto |].
    destruct (allStopped p stones); simpl; auto.
  - destruct (negb (time <? tMax p)); [simpl; auto |].
    destruct (allStopped p stones); [simpl; auto |].
    cbv zeta.
    pose proof (moveStones_headed p sd stones tr tr' H) as Hm.
    destruct (moveStones p sd stones tr) as [[s1 t1] |],
             (moveStones p sd stones tr') as [[s1' t1'] |];
      try contradiction; try exact I.
    destruct Hm as [-> Hm]. cbn [truthy detectCollisions_value].
    apply IH. exact Hm.
Qed.

(** X25.  [simulateForCollisions] returns exactly when [simulateAll] with
    the duration [tMax] does, and then leaves the stones in the same
    state; each of its trajectories is the one of [simulateAll] with one
    more state in front; and its collision data are always the initial
    ones (no collision, no stone moved, no time), because the call of
    [detectCollisions] has no value. *)
Theorem simulateForCollisions_never_reports (fuel : nat)
    (stones : list Stone) (p : Params) (sd : SheetDimensions) :
  match simulateForCollisions fuel stones p sd,
        simulateAll fuel p (tMax p) stones sd with
  | Some (tr, cd, stones'), Some r =>
      cd = mkCollisionData false [] None
      /\ stones' = run_stones r
      /\ Forall2 headed (run_trajectories r) tr
  | None, None => True
  | _, _ => False
  end.
Proof.
  unfold simulateForCollisions, simulateAll. cbv zeta.
  apply collisionLoop_as_timeLoop.
  apply initial_headed. constructor.
Qed.

End ControllerProps.

(** ** Properties of the evaluator with shot success *)

Module EnhancedProps.
Import Spec Notions Eval Enhanced JSFacts EvalFacts.

Lemma baseSuccess_range (ty : string) (b : R) :
  baseSuccess ty = Some b -> 35 / 100 <= b <= 88 / 100.
Proof.
  unfold baseSuccess, SHOT_TYPE_BASE_SUCCESS. cbn [lookup].
  repeat match goal with
  | |- context [String.eqb ?a ty] => destruct (String.eqb a ty)
  end;
  try (intro H; injection H as <-;
       rewrite or_else_nonzero by lra; lra).
  destruct (existsb _ _); [discriminate |].
  intro H. injection H as <-. lra.
Qed.

Lemma baseSuccess_none (ty : string) :
  baseSuccess ty = None <-> In ty inheritedNames.
Proof.
  unfold baseSuccess.
  destruct (lookup SHOT_TYPE_BASE_SUCCESS ty) as [v |] eqn:Hl.
  - split; [discriminate |]. intro Hin. exfalso.
    unfold inheritedNames in Hin. simpl in Hin.
    repeat (destruct Hin as [<- | Hin]; [discriminate Hl |]).
    exact Hin.
  - destruct (existsb (String.eqb ty) inheritedNames) eqn:He.
    + split; [| reflexivity]. intros _.
      apply existsb_exists in He. destruct He as [x [Hx He]].
      apply String.eqb_eq in He. now subst x.
    + split; [discriminate |]. intro Hin. exfalso.
      assert (existsb (String.eqb ty) inheritedNames = true).
      { apply existsb_exists. exists ty. split; [exact Hin |].
        apply String.eqb_refl. }
      congruence.
Qed.

(** The value as one product. *)
Lemma calculate_formula (c : ShotContext) :
  calculateShotSuccessProbability c
  = match baseSuccess (shotType c) with
    | None => None
    | Some b =>
        Some (bounded (b * skillFactor (skillLevel c) * pressure c * early c
                       * fatigue c * distanceFactor (targetDistance c)
                       * angleFactor (angleComplexity c)
                       * crowding (stoneCount c)))
    end.
Proof.
  unfold calculateShotSuccessProbability.
  destruct (baseSuccess (shotType c)) as [b |]; [| reflexivity].
  cbv zeta. f_equal. unfold bounded. f_equal. f_equal.
  unfold pressure, early, fatigue, distanceFactor, angleFactor, crowding,
    skillFactor.
  destruct ((8 <=? endNumber c)
            && (Rabs (gameScore_red c - gameScore_yellow c) <=? 2)
            && (12 <=? shotNumber c));
  destruct ((endNumber c <=? 3) && (shotNumber c <=? 8));
  destruct (10 <=? endNumber c);
  destruct (0 <? targetDistance c);
  destruct (0 <? angleComplexity c);
  destruct (4 <? stoneCount c); ring.
Qed.

Lemma bounded_range (v : R) : 1 / 10 <= bounded v <= 99 / 100.
Proof.
  unfold bounded, Rmax, Rmin.
  destruct (Rle_dec (99 / 100) v); destruct (Rle_dec (1 / 10) _); lra.
Qed.

Lemma bounded_monotone (u v : R) : u <= v -> bounded u <= bounded v.
Proof.
  intro H. unfold bounded, Rmax, Rmin.
  destruct (Rle_dec (99 / 100) u), (Rle_dec (99 / 100) v);
    repeat match goal with
    | |- context [Rle_dec ?a ?b] => destruct (Rle_dec a b)
    end; lra.
Qed.

Lemma success_probability_range_aux (c : ShotContext) :
  match calculateShotSuccessProbability c with
  | Some v => 1 / 10 <= v <= 99 / 100
  | None => In (shotType c) inheritedNames
  end.
Proof.
  rewrite calculate_formula.
  destruct (baseSuccess (shotType c)) as [b |] eqn:Hb.
  - apply bounded_range.
  - now apply baseSuccess_none.
Qed.

Lemma pressure_pos (c : ShotContext) : 0 < pressure c.
Proof. unfold pressure, PRESSURE_PENALTY. destruct (_ && _); lra. Qed.

Lemma early_pos (c : ShotContext) : 0 < early c.
Proof. unfold early, EARLY_GAME_BONUS. destruct (_ && _); lra. Qed.

Lemma fatigue_pos (c : ShotContext) : 0 < fatigue c.
Proof. unfold fatigue, FATIGUE_PENALTY. destruct (_ <=? _); lra. Qed.

Lemma distanceFactor_pos (d : R) : 0 < distanceFactor d.
Proof.
  unfold distanceFactor. destruct (0 <? d); [apply exp_pos | lra].
Qed.

Lemma crowding_pos (n : R) : 0 < crowding n.
Proof.
  unfold crowding. destruct (4 <? n); [| lra].
  unfold JS.pow, COMPLEXITY_PENALTY. rewrite leb_false by lra.
  unfold Rpower. apply exp_pos.
Qed.

Lemma angleFactor_nonneg (a : R) : a <= 5 -> 0 <= angleFactor a.
Proof.
  intro H. unfold angleFactor, ANGLE_PENALTY.
  destruct (0 <? a); lra.
Qed.

Lemma distanceFactor_antitone (d1 d2 : R) :
  d1 <= d2 -> distanceFactor d2 <= distanceFactor d1.
Proof.
  intro H. unfold distanceFactor, DISTANCE_DECAY.
  destruct (Rlt_dec 0 d1) as [H1 | H1].
  - rewrite (ltb_true 0 d1) by exact H1. rewrite (ltb_true 0 d2) by lra.
    destruct (Req_dec d1 d2) as [-> | Hne]; [lra |].
    left. apply exp_increasing. lra.
  - rewrite (ltb_false 0 d1) by lra.
    destruct (Rlt_dec 0 d2) as [H2 | H2].
    + rewrite (ltb_true 0 d2) by exact H2.
      pose proof (exp_increasing (- (15 / 100) * d2) 0 ltac:(lra)) as He.
      rewrite exp_0 in He. lra.
    + rewrite (ltb_false 0 d2) by lra. lra.
Qed.

(** X26.  For an angle complexity of at most 5,
    [calculateShotSuccessProbability] does not decrease when the skill
    level (at least 0) rises and the distance to the target falls, all
    else equal; and the two calls give a number together or not at all. *)
Theorem success_probability_monotone (c : ShotContext) (s1 s2 d1 d2 : R) :
  angleComplexity c <= 5 -> 0 <= s1 <= s2 -> d1 <= d2 ->
  match calculateShotSuccessProbability (withDistance (withSkill c s1) d2),
        calculateShotSuccessProbability (withDistance (withSkill c s2) d1)
  with
  | Some v1, Some v2 => v1 <= v2
  | None, None => True
  | _, _ => False
  end.
Proof.
  intros Ha [Hlow Hs] Hd. rewrite !calculate_formula.
  cbn [withSkill withDistance shotType skillLevel targetDistance
       angleComplexity stoneCount].
  destruct (baseSuccess (shotType c)) as [b |] eqn:Hb; [| exact I].
  apply bounded_monotone.
  pose proof (baseSuccess_range _ _ Hb) as Hbr.
  change (pressure (withDistance (withSkill c s1) d2)) with (pressure c).
  change (pressure (withDistance (withSkill c s2) d1)) with (pressure c).
  change (early (withDistance (withSkill c s1) d2)) with (early c).
  change (early (withDistance (withSkill c s2) d1)) with (early c).
  change (fatigue (withDistance (withSkill c s1) d2)) with (fatigue c).
  change (fatigue (withDistance (withSkill c s2) d1)) with (fatigue c).
  pose proof (pressure_pos c) as Hp. pose proof (early_pos c) as He.
  pose proof (fatigue_pos c) as Hf.
  pose proof (distanceFactor_pos d2) as Hd2.
  pose proof (distanceFactor_antitone d1 d2 Hd) as Hdd.
  pose proof (angleFactor_nonneg _ Ha) as Haf.
  pose proof (crowding_pos (stoneCount c)) as Hc.
  assert (Hk1 : 0 <= skillFactor s1).
  { unfold skillFactor, SKILL_MIN, SKILL_MAX. lra. }
  assert (Hk : skillFactor s1 <= skillFactor s2).
  { unfold skillFactor, SKILL_MIN, SKILL_MAX. lra. }
  set (k1 := skillFactor s1) in *. set (k2 := skillFactor s2) in *.
  set (P := pressure c) in *. set (E := early c) in *.
  set (F := fatigue c) in *. set (D1 := distanceFactor d1) in *.
  set (D2 := distanceFactor d2) in *.
  set (A := angleFactor (angleComplexity c)) in *.
  set (C := crowding (stoneCount c)) in *.
  assert (H1 : b * k1 <= b * k2) by nra.
  assert (H0 : 0 <= b * k1) by nra.
  assert (H2 : 0 <= P * E * F).
  { apply Rmult_le_pos; [apply Rmult_le_pos |]; lra. }
  assert (H3 : b * k1 * (P * E * F) <= b * k2 * (P * E * F)).
  { apply Rmult_le_compat_r; assumption. }
  assert (H4 : 0 <= b * k1 * (P * E * F)).
  { apply Rmult_le_pos; assumption. }
  assert (H5 : b * k1 * (P * E * F) * D2 <= b * k2 * (P * E * F) * D1).
  { apply Rmult_le_compat; lra. }
  assert (H6 : 0 <= A * C).
  { apply Rmult_le_pos; lra. }
  replace (b * k1 * P * E * F * D2 * A * C)
    with (b * k1 * (P * E * F) * D2 * (A * C)) by ring.
  replace (b * k2 * P * E * F * D1 * A * C)
    with (b * k2 * (P * E * F) * D1 * (A * C)) by ring.
  apply Rmult_le_compat_r; assumption.
Qed.

Lemma success_probability_monotone_witness :
  let c := mkContext "Take-out" 50 3 0 0 1 2 (1 / 2) 6 in
  match calculateShotSuccessProbability (withDistance (withSkill c 10) 3),
        calculateShotSuccessProbability (withDistance (withSkill c 90) 1)
  with
  | Some v1, Some v2 => v1 <= v2
  | None, None => True
  | _, _ => False
  end.
Proof.
  intro c.
  apply (success_probability_monotone c 10 90 1 3); simpl; lra.
Defined.

(** *** evaluatePositionWithSuccessProbability *)

Lemma or_else_zero (v : R) : JS.or_else v 0 = v.
Proof.
  unfold JS.or_else, JS.eqb. destruct (Req_dec_T v 0); congruence.
Qed.

Lemma set_fresh (o : JS.obj) (k : Z) (v : R) :
  ~ In k (JS.keys o) -> JS.set o k v = o ++ [(k, v)].
Proof.
  induction o as [| [k' v'] rest IH]; simpl; intro H; [reflexivity |].
  destruct (k' =? k)%Z eqn:Hk.
  - apply Z.eqb_eq in Hk. tauto.
  - rewrite IH by tauto. reflexivity.
Qed.

Lemma fold_set_build (f : Z -> R) (ks : list Z) (acc : JS.obj) :
  NoDup ks -> (forall k, In k ks -> ~ In k (JS.keys acc)) ->
  fold_left (fun o k => JS.set o k (f k)) ks acc
  = acc ++ map (fun k => (k, f k)) ks.
Proof.
  revert acc. induction ks as [| k ks IH]; intros acc Hnd Hfresh; simpl.
  - now rewrite app_nil_r.
  - inversion Hnd as [| ? ? Hnotin Hnd']; subst.
    rewrite set_fresh by (apply Hfresh; now left).
    rewrite IH; [now rewrite <- app_assoc | exact Hnd' |].
    intros k' Hk' Hin. unfold JS.keys in Hin. rewrite map_app in Hin.
    apply in_app_or in Hin. destruct Hin as [Hin | Hin].
    + apply (Hfresh k'); [now right | exact Hin].
    + simpl in Hin. destruct Hin as [<- | []]. contradiction.
Qed.

Lemma obj_as_map (o : JS.obj) :
  NoDup (JS.keys o) -> o = map (fun k => (k, bucket o k)) (JS.keys o).
Proof.
  induction o as [| [k v] rest IH]; intro Hnd; [reflexivity |].
  simpl in Hnd. inversion Hnd as [| ? ? Hnotin Hnd']; subst.
  cbn [JS.keys map fst]. f_equal.
  - unfold bucket. simpl. rewrite Z.eqb_refl. simpl.
    now rewrite or_else_zero.
  - rewrite (IH Hnd') at 1. apply map_ext_in. intros k' Hk'.
    unfold bucket. simpl.
    destruct (k =? k')%Z eqn:Hk; [| reflexivity].
    apply Z.eqb_eq in Hk. subst k'. contradiction.
Qed.

Lemma sum_weighted (p q : R) (f g : Z -> R) (ks : list Z) :
  JS.sum (map (fun k => p * f k + q * g k) ks)
  = p * JS.sum (map f ks) + q * JS.sum (map g ks).
Proof.
  induction ks as [| k ks IH]; simpl.
  - rewrite sum_nil. ring.
  - rewrite !sum_cons, IH. ring.
Qed.

Lemma sum_buckets (o : JS.obj) :
  JS.keys o = kVals ->
  JS.sum (map (bucket o) kVals) = JS.sum (JS.values o).
Proof.
  intro Hk. rewrite sum_values.
  assert (Hnd : NoDup (JS.keys o)) by (rewrite Hk; apply NoDup_kVals).
  rewrite (obj_as_map o Hnd) at 2. rewrite map_map. simpl.
  now rewrite Hk.
Qed.

Lemma estimateFailureOutcome_eq (n : Z) (h : string)
    (stones : list EvalStone) (shot : PotentialShot) (skill : R) :
  estimateFailureOutcome n h stones shot skill
  = evaluatePosition17 (n + 1) h stones skill.
Proof.
  unfold estimateFailureOutcome.
  destruct (p_type shot) as [ty |]; [| reflexivity].
  destruct (String.eqb ty "Draw"); [reflexivity |].
  destruct (String.eqb ty "Take-out"); [reflexivity |].
  destruct (String.eqb ty "Hit and Roll"); reflexivity.
Qed.

Lemma weighted_buckets (p : R) (b1 b2 : JS.obj) :
  fold_left
    (fun o score =>
       JS.set o score (p * bucket b1 score + (1 - p) * bucket b2 score))
    kVals []
  = map (fun k => (k, p * bucket b1 k + (1 - p) * bucket b2 k)) kVals.
Proof.
  rewrite (fold_set_build
             (fun k => p * bucket b1 k + (1 - p) * bucket b2 k) kVals []).
  - reflexivity.
  - apply NoDup_kVals.
  - intros k _ [].
Qed.

(** The call with a shot, unfolded. *)
Lemma enhanced_unfold (n : Z) (h : string) (stones : list EvalStone)
    (skill : R) (shot : PotentialShot) :
  ~ In (typeOrDraw (p_type shot)) inheritedNames ->
  let c := mkContext (typeOrDraw (p_type shot)) skill (IZR n) 0 0
             (IZR (n / 16 + 1)) (orZero (p_targetDistance shot))
             (orZero (p_angleComplexity shot)) (INR (List.length stones)) in
  let sEval := evaluatePosition17 (n + 1) h
                 (match p_outcome shot with Some out => out | None => stones end)
                 skill in
  let fEval := evaluatePosition17 (n + 1) h stones skill in
  exists p,
    calculateShotSuccessProbability c = Some p
    /\ 1 / 10 <= p <= 99 / 100
    /\ evaluatePositionWithSuccessProbability n h stones skill (Some shot)
       = Some (mkEvaluation
                 (mkAdvantage
                    (p * red (Eval.advantage sEval)
                     + (1 - p) * red (Eval.advantage fEval))
                    (p * yellow (Eval.advantage sEval)
                     + (1 - p) * yellow (Eval.advantage fEval)))
                 (map (fun k => (k, p * bucket (Eval.buckets17 sEval) k
                                    + (1 - p) * bucket (Eval.buckets17 fEval) k))
                    kVals)
                 (Some p)
                 (Some (mkScenarios sEval fEval
                          (evaluatePosition17 n h stones skill)))).
Proof.
  intros Hty c sEval fEval.
  pose proof (success_probability_range_aux c) as Hr.
  destruct (calculateShotSuccessProbability c) as [p |] eqn:Hc;
    [| contradiction].
  exists p. split; [reflexivity |]. split; [exact Hr |].
  unfold evaluatePositionWithSuccessProbability. cbv zeta.
  fold c. rewrite Hc. rewrite estimateFailureOutcome_eq.
  fold sEval. fold fEval. rewrite weighted_buckets. reflexivity.
Qed.

(** X27.  For a shot whose type is not the name of an inherited member of
    the table, and at most 8 stones per team on the sheet and in the
    outcome, [evaluatePositionWithSuccessProbability] returns a success
    probability in [0.1, 0.99], buckets with exactly the keys -8..8 that
    sum to 1, and advantages that are negations of each other. *)
Theorem weighted_evaluation_is_distribution (n : Z) (h : string)
    (stones : list EvalStone) (skill : R) (shot : PotentialShot) :
  ~ In (typeOrDraw (p_type shot)) inheritedNames ->
  (List.length (teamStones "red" stones) <= 8)%nat ->
  (List.length (teamStones "yellow" stones) <= 8)%nat ->
  (forall out, p_outcome shot = Some out ->
     (List.length (teamStones "red" out) <= 8)%nat
     /\ (List.length (teamStones "yellow" out) <= 8)%nat) ->
  exists r p,
    evaluatePositionWithSuccessProbability n h stones skill (Some shot)
    = Some r
    /\ successProbability r = Some p /\ 1 / 10 <= p <= 99 / 100
    /\ JS.keys (Enhanced.buckets17 r) = kVals
    /\ JS.sum (JS.values (Enhanced.buckets17 r)) = 1
    /\ red (Enhanced.advantage r) = - yellow (Enhanced.advantage r).
Proof.
  intros Hty Hred Hyel Hout.
  destruct (enhanced_unfold n h stones skill shot Hty) as [p [_ [Hp Heq]]].
  cbv zeta in Heq. rewrite Heq.
  eexists. exists p. split; [reflexivity |]. cbn [successProbability
    Enhanced.buckets17 Enhanced.advantage red yellow].
  split; [reflexivity |]. split; [exact Hp |].
  set (out := match p_outcome shot with Some o => o | None => stones end).
  assert (Hcount : (List.length (teamStones "red" out) <= 8)%nat
                   /\ (List.length (teamStones "yellow" out) <= 8)%nat).
  { unfold out. destruct (p_outcome shot) as [o |]; [now apply Hout | auto]. }
  destruct Hcount as [Hr' Hy'].
  destruct (buckets17_distribution (n + 1) h out skill Hr' Hy') as [Hk1 Hs1].
  destruct (buckets17_distribution (n + 1) h stones skill Hred Hyel)
    as [Hk2 Hs2].
  split; [| split].
  - unfold JS.keys. rewrite map_map. cbn [fst]. apply map_id.
  - rewrite sum_values, map_map. cbn [snd].
    rewrite (sum_weighted p (1 - p)
               (bucket (Eval.buckets17 (evaluatePosition17 (n + 1) h out skill)))
               (bucket (Eval.buckets17
                          (evaluatePosition17 (n + 1) h stones skill)))).
    rewrite (sum_buckets _ Hk1), (sum_buckets _ Hk2), Hs1, Hs2. ring.
  - unfold evaluatePosition17. cbv zeta. simpl. ring.
Qed.

Lemma weighted_evaluation_is_distribution_witness :
  let shot := mkShot (Some "Take-out"%string) (Some 1) None
                (Some [("red"%string, 0, 1)]) in
  exists r p,
    evaluatePositionWithSuccessProbability 3 "red"
      [("yellow"%string, 0, 1)] 50 (Some shot) = Some r
    /\ successProbability r = Some p /\ 1 / 10 <= p <= 99 / 100
    /\ JS.keys (Enhanced.buckets17 r) = kVals
    /\ JS.sum (JS.values (Enhanced.buckets17 r)) = 1
    /\ red (Enhanced.advantage r) = - yellow (Enhanced.advantage r).
Proof.
  intro shot.
  apply (weighted_evaluation_is_distribution 3 "red"
           [("yellow"%string, 0, 1)] 50 shot).
  - simpl. intuition discriminate.
  - simpl. lia.
  - simpl. lia.
  - intros out H. injection H as <-. simpl. lia.
Defined.

(** X28.  For a shot without an outcome (type as above, at most 8 stones per
    team), the advantage and the buckets that
    [evaluatePositionWithSuccessProbability] returns are those of
    [evaluatePosition17] at the next shot number on the same stones:
    neither the type of the shot, nor its distance, its angle or the
    success probability has any effect on them. *)
Theorem shot_without_outcome_changes_nothing (n : Z) (h : string)
    (stones : list EvalStone) (skill : R) (shot : PotentialShot) :
  p_outcome shot = None ->
  ~ In (typeOrDraw (p_type shot)) inheritedNames ->
  (List.length (teamStones "red" stones) <= 8)%nat ->
  (List.length (teamStones "yellow" stones) <= 8)%nat ->
  exists r,
    evaluatePositionWithSuccessProbability n h stones skill (Some shot)
    = Some r
    /\ Enhanced.advantage r
       = Eval.advantage (evaluatePosition17 (n + 1) h stones skill)
    /\ Enhanced.buckets17 r
       = Eval.buckets17 (evaluatePosition17 (n + 1) h stones skill).
Proof.
  intros Hnone Hty Hred Hyel.
  destruct (enhanced_unfold n h stones skill shot Hty) as [p [_ [Hp Heq]]].
  cbv zeta in Heq. rewrite Hnone in Heq. rewrite Heq.
  eexists. split; [reflexivity |].
  cbn [Enhanced.buckets17 Enhanced.advantage].
  split.
  - destruct (Eval.advantage (evaluatePosition17 (n + 1) h stones skill))
      as [a b]. simpl. f_equal; ring.
  - destruct (buckets17_distribution (n + 1) h stones skill Hred Hyel)
      as [Hk _].
    set (b := Eval.buckets17 (evaluatePosition17 (n + 1) h stones skill)) in *.
    assert (Hnd : NoDup (JS.keys b)) by (rewrite Hk; apply NoDup_kVals).
    transitivity (map (fun k => (k, bucket b k)) kVals).
    + apply map_ext. intro k. f_equal. ring.
    + rewrite <- Hk. symmetry. apply obj_as_map. exact Hnd.
Qed.

Lemma shot_without_outcome_changes_nothing_witness :
  let shot := mkShot (Some "Double Take-out"%string) (Some 2) (Some 1) None in
  let stones := [("yellow"%string, 0, 1)] in
  exists r,
    evaluatePositionWithSuccessProbability 3 "red" stones 50 (Some shot)
    = Some r
    /\ Enhanced.advantage r
       = Eval.advantage (evaluatePosition17 (3 + 1) "red" stones 50)
    /\ Enhanced.buckets17 r
       = Eval.buckets17 (evaluatePosition17 (3 + 1) "red" stones 50).
Proof.
  intros shot stones.
  apply (shot_without_outcome_changes_nothing 3 "red" stones 50 shot).
  - reflexivity.
  - simpl. intuition discriminate.
  - simpl. lia.
  - simpl. lia.
Defined.

(** X29.  For a shot number in 0..15 (type as above), the success
    probability that [evaluatePositionWithSuccessProbability] returns is
    the base rate of the type times the skill factor, the distance, angle
    and crowding factors, and the early bonus when the shot number is at
    most 8, clamped to [0.1, 0.99]: the end number it passes is 1 and the
    score 0-0, so neither the pressure nor the fatigue penalty applies. *)
Theorem success_probability_within_an_end (n : Z) (h : string)
    (stones : list EvalStone) (skill : R) (shot : PotentialShot) :
  (0 <= n <= 15)%Z ->
  ~ In (typeOrDraw (p_type shot)) inheritedNames ->
  exists r b,
    evaluatePositionWithSuccessProbability n h stones skill (Some shot)
    = Some r
    /\ baseSuccess (typeOrDraw (p_type shot)) = Some b
    /\ successProbability r
       = Some (bounded
                 (b * skillFactor skill
                  * (if (n <=? 8)%Z then EARLY_GAME_BONUS else 1)
                  * distanceFactor (orZero (p_targetDistance shot))
                  * angleFactor (orZero (p_angleComplexity shot))
                  * crowding (INR (List.length stones)))).
Proof.
  intros Hn Hty.
  destruct (enhanced_unfold n h stones skill shot Hty) as [p [Hc [_ Heq]]].
  cbv zeta in Heq, Hc. rewrite Heq. rewrite calculate_formula in Hc.
  cbn [shotType skillLevel targetDistance angleComplexity stoneCount] in Hc.
  destruct (baseSuccess (typeOrDraw (p_type shot))) as [b |];
    [| discriminate].
  eexists. exists b. split; [reflexivity |]. split; [reflexivity |].
  cbn [successProbability]. rewrite <- Hc. f_equal. f_equal.
  assert (Hend : IZR (n / 16 + 1) = 1).
  { rewrite Z.div_small by lia. reflexivity. }
  unfold pressure, early, fatigue.
  cbn [endNumber shotNumber gameScore_red gameScore_yellow].
  rewrite Hend.
  rewrite (leb_false 8 1) by lra. rewrite (leb_false 10 1) by lra.
  rewrite (leb_true 1 3) by lra. cbn [andb].
  destruct (n <=? 8)%Z eqn:H8.
  - apply Z.leb_le in H8. rewrite leb_true by (apply IZR_le; exact H8).
    ring.
  - apply Z.leb_gt in H8. rewrite leb_false by (apply IZR_lt; exact H8).
    ring.
Qed.

Lemma success_probability_within_an_end_witness :
  let shot := mkShot (Some "Freeze"%string) None None None in
  exists r b,
    evaluatePositionWithSuccessProbability 13 "red" [] 50 (Some shot)
    = Some r
    /\ baseSuccess (typeOrDraw (p_type shot)) = Some b
    /\ successProbability r
       = Some (bounded
                 (b * skillFactor 50
                  * (if (13 <=? 8)%Z then EARLY_GAME_BONUS else 1)
                  * distanceFactor (orZero (p_targetDistance shot))
                  * angleFactor (orZero (p_angleComplexity shot))
                  * crowding (INR (List.length (@nil EvalStone))))).
Proof.
  intro shot.
  apply (success_probability_within_an_end 13 "red" [] 50 shot).
  - lia.
  - simpl. intuition discriminate.
Defined.

End EnhancedProps.

(** ** Properties of the path helpers *)

Module IntegrationProps.
Import Spec Notions Sim Enhanced Integration JSFacts EnhancedProps.

Lemma nearby_nonneg (f : State) (stones : list Stone) (c : R) :
  0 <= c -> 0 <= fold_left (nearbyStep f) stones c.
Proof.
  revert c. induction stones as [| st rest IH]; intros c Hc; simpl.
  - exact Hc.
  - apply IH. unfold nearbyStep. cbv zeta. destruct (_ <? _); lra.
Qed.

Lemma classifyShotType_names (record : PathRecord) (stones : list Stone)
    (f : State) :
  In (classifyShotType record stones f)
    ["Take-out"; "Hit and Roll"; "Hit"; "Draw"; "Guard"]%string.
Proof.
  unfold classifyShotType. cbv zeta.
  destruct (makesContact record).
  - destruct (_ <? velocity record); [simpl; tauto |].
    destruct (_ <? _); simpl; tauto.
  - destruct (_ <? 183 / 100); [simpl; tauto |].
    destruct (2 <? _); simpl; tauto.
Qed.

(** X30.  For a path record with a non-empty trajectory, the context built
    from [classifyShotType], [calculateTargetDistance] and
    [calculateAngleComplexity] always gets a success probability in
    [0.1, 0.99]: the angle complexity is in [0, 1], the distance is not
    negative, and the shot type is one of Take-out, Hit and Roll, Hit, Draw
    and Guard, of which Hit has no entry in the table of base rates and
    gets the default 0.75. *)
Theorem path_context_has_a_probability (record : PathRecord)
    (stones : list Stone) (f : State) (broom : R * R)
    (skill n scoreRed scoreYellow endN count : R) :
  finalStateOf record = Some f ->
  exists a d v,
    calculateAngleComplexity record stones = Some a /\ 0 <= a <= 1
    /\ calculateTargetDistance record broom = Some d /\ 0 <= d
    /\ In (classifyShotType record stones f)
         ["Take-out"; "Hit and Roll"; "Hit"; "Draw"; "Guard"]%string
    /\ (classifyShotType record stones f = "Hit"%string ->
        baseSuccess (classifyShotType record stones f) = Some (75 / 100))
    /\ calculateShotSuccessProbability
         (mkContext (classifyShotType record stones f) skill n scoreRed
            scoreYellow endN d a count) = Some v
    /\ 1 / 10 <= v <= 99 / 100.
Proof.
  intro Hf.
  assert (Ha : exists a, calculateAngleComplexity record stones = Some a
                         /\ 0 <= a <= 1).
  { unfold calculateAngleComplexity. rewrite Hf.
    destruct (negb (makesContact record)).
    - exists 0. split; [reflexivity | lra].
    - eexists. split; [reflexivity |].
      pose proof (nearby_nonneg f stones 0 (Rle_refl 0)) as H0.
      unfold Rmin. destruct (Rle_dec _ 1); lra. }
  destruct Ha as [a [Ha Har]].
  assert (Hd : exists d, calculateTargetDistance record broom = Some d
                         /\ 0 <= d).
  { unfold calculateTargetDistance. rewrite Hf. cbv zeta.
    eexists. split; [reflexivity | apply sqrt_pos]. }
  destruct Hd as [d [Hd Hd0]].
  pose proof (classifyShotType_names record stones f) as Hnames.
  set (ty := classifyShotType record stones f) in *.
  assert (Hhit : ty = "Hit"%string -> baseSuccess ty = Some (75 / 100)).
  { intros ->. reflexivity. }
  pose proof (success_probability_range_aux
                (mkContext ty skill n scoreRed scoreYellow endN d a count))
    as Hr.
  destruct (calculateShotSuccessProbability _) as [v |] eqn:Hv.
  - exists a, d, v. repeat split; auto; lra.
  - exfalso. cbn [shotType] in Hr.
    simpl in Hnames, Hr.
    repeat (destruct Hnames as [Hn | Hnames];
            [rewrite <- Hn in Hr;
             repeat (destruct Hr as [Hr | Hr]; [discriminate Hr |]);
             exact Hr |]).
    exact Hnames.
Qed.

Lemma path_context_has_a_probability_witness :
  let record := mkRecord true 2 [mkState 0 0 0 2 0 0; mkState 1 1 0 0 0 0] in
  let stones := [sampleStone 1 0] in
  let f := mkState 1 1 0 0 0 0 in
  exists a d v,
    calculateAngleComplexity record stones = Some a /\ 0 <= a <= 1
    /\ calculateTargetDistance record (1, 1) = Some d /\ 0 <= d
    /\ In (classifyShotType record stones f)
         ["Take-out"; "Hit and Roll"; "Hit"; "Draw"; "Guard"]%string
    /\ (classifyShotType record stones f = "Hit"%string ->
        baseSuccess (classifyShotType record stones f) = Some (75 / 100))
    /\ calculateShotSuccessProbability
         (mkContext (classifyShotType record stones f) 50 3 0 0 1 d a 1)
       = Some v
    /\ 1 / 10 <= v <= 99 / 100.
Proof.
  intros record stones f.
  apply (path_context_has_a_probability record stones f (1, 1) 50 3 0 0 1 1).
  reflexivity.
Defined.

End IntegrationProps.
